(** * svg-interpolator: curve tools and point generator

    A shallow embedding of [src/paths.js] and [src/point-generator.js].

    JavaScript numbers are IEEE-754 binary64 values.  Three readings of them
    are used below, each where it fits the code under study:

    - [float] (the kernel's binary64 floats): the numbers of the program,
      bit for bit, for the four arithmetic operations, the comparisons,
      the remainder and the square root; the cosine, sine and arc cosine
      are fixed there only as far as ECMAScript fixes them;
    - [xreal]: exact real arithmetic completed with the special values
      [+Infinity], [-Infinity] and [NaN], i.e. the program with rounding
      switched off (the sign of zero is not tracked: a zero is [+0]);
    - [R]: plain real arithmetic, for the closed-form geometry
      ([Math.sqrt], [Math.cos], [Math.sin], [Math.acos]) and for the
      bounding box, where the properties are stated on inputs for which no
      division by zero and no [NaN] arises.  This is the program in exact
      arithmetic; what rounding does to the arc is studied on [float], in
      [Binary64].

    [getPoints] and [clean] are written once, over the interface [Number],
    and read at [float] or [xreal].  The pure functions of [paths.js] work
    on point values; the methods of [PointGenerator] that update point
    objects in place work on references into a heap. *)

From Corelib Require Import PrimFloat SpecFloat FloatOps FloatAxioms.
From Stdlib Require Import Reals Lra Lia List Bool Arith ZArith Sorted.
Import ListNotations.

Local Open Scope R_scope.

(** ** Numbers *)

(** The operations on numbers that [getPoints] and [clean] use. *)
Class Number (num : Type) : Type := {
  js_zero : num;
  js_one : num;
  js_add : num -> num -> num;
  js_sub : num -> num -> num;
  js_mul : num -> num -> num;
  js_div : num -> num -> num;
  js_lt : num -> num -> bool;
  js_le : num -> num -> bool
}.

(** IEEE-754 binary64, as the kernel implements it. *)
#[export] Instance float_Number : Number float := {
  js_zero := 0%float;
  js_one := 1%float;
  js_add := PrimFloat.add;
  js_sub := PrimFloat.sub;
  js_mul := PrimFloat.mul;
  js_div := PrimFloat.div;
  js_lt := PrimFloat.ltb;
  js_le := PrimFloat.leb
}.

(** Exact reals with the IEEE special values. *)
Inductive xreal : Type :=
| Fin (r : R)
| PInf
| NInf
| NaN.

Definition Rleb (a b : R) : bool := if Rle_dec a b then true else false.
Definition Rltb (a b : R) : bool := if Rlt_dec a b then true else false.
Definition Reqb (a b : R) : bool := if Req_dec_T a b then true else false.

Definition xneg (a : xreal) : xreal :=
  match a with
  | Fin r => Fin (- r)
  | PInf => NInf
  | NInf => PInf
  | NaN => NaN
  end.

Definition xadd (a b : xreal) : xreal :=
  match a, b with
  | NaN, _ | _, NaN => NaN
  | Fin r, Fin s => Fin (r + s)
  | PInf, NInf | NInf, PInf => NaN
  | PInf, _ | _, PInf => PInf
  | NInf, _ | _, NInf => NInf
  end.

Definition xsub (a b : xreal) : xreal := xadd a (xneg b).

(** [s] if [0 <= r] (a zero counts as [+0]), the opposite of [s] otherwise. *)
Definition xsigned (s : xreal) (r : R) : xreal :=
  if Rleb 0 r then s else xneg s.

Definition xmul (a b : xreal) : xreal :=
  match a, b with
  | NaN, _ | _, NaN => NaN
  | Fin r, Fin s => Fin (r * s)
  | Fin r, inf | inf, Fin r => if Reqb r 0 then NaN else xsigned inf r
  | PInf, PInf | NInf, NInf => PInf
  | PInf, NInf | NInf, PInf => NInf
  end.

Definition xdiv (a b : xreal) : xreal :=
  match a, b with
  | NaN, _ | _, NaN => NaN
  | Fin r, Fin s =>
      if Reqb s 0
      then (if Reqb r 0 then NaN else if Rltb 0 r then PInf else NInf)
      else Fin (r / s)
  | Fin _, _ => Fin 0
  | inf, Fin s => xsigned inf s
  | _, _ => NaN
  end.

Definition xlt (a b : xreal) : bool :=
  match a, b with
  | NaN, _ | _, NaN => false
  | Fin r, Fin s => Rltb r s
  | NInf, NInf | PInf, _ | _, NInf => false
  | _, _ => true
  end.

Definition xle (a b : xreal) : bool :=
  match a, b with
  | NaN, _ | _, NaN => false
  | Fin r, Fin s => Rleb r s
  | NInf, _ | _, PInf => true
  | _, _ => false
  end.

#[export] Instance xreal_Number : Number xreal := {
  js_zero := Fin 0;
  js_one := Fin 1;
  js_add := xadd;
  js_sub := xsub;
  js_mul := xmul;
  js_div := xdiv;
  js_lt := xlt;
  js_le := xle
}.

(** ** Points *)

(** A point object, read as its two coordinates. *)
Record point (num : Type) : Type := mkPoint { x : num; y : num }.

Arguments mkPoint {num} _ _.
Arguments x {num} _.
Arguments y {num} _.

(** ** paths.js: curve tools (real arithmetic) *)

(** [Math.pow(v, 2)] *)
Definition pow2 (v : R) : R := v ^ 2.

Definition distance (p0 p1 : point R) : R :=
  sqrt (pow2 (x p1 - x p0) + pow2 (y p1 - y p0)).

(** The integer part of a real, rounded towards zero. *)
Definition Rtrunc (r : R) : Z :=
  if Rle_dec 0 r then Int_part r else (- Int_part (- r))%Z.

(** The remainder operator [a % m] of JavaScript: the result has the sign of
    the dividend [a]. *)
Definition js_rem (a m : R) : R := a - m * IZR (Rtrunc (a / m)).

(** [mod(x, m)] *)
Definition mod_ (v m : R) : R := js_rem (js_rem v m + m) m.

Definition toRadians (angle : R) : R := angle * (PI / 180).

(** In exact arithmetic the quotient [p / n] of two vectors that are not
    zero lies in [[-1, 1]], where [Math.acos] is defined and [acos] is its
    value; [Binary64.angleBetween] is the function on the numbers of the
    program, where rounding can take the quotient out of that interval. *)
Definition angleBetween (v0 v1 : point R) : R :=
  let p := x v0 * x v1 + y v0 * y v1 in
  let n := sqrt ((pow2 (x v0) + pow2 (y v0)) * (pow2 (x v1) + pow2 (y v1))) in
  let sign := if Rltb (x v0 * y v1 - y v0 * x v1) 0 then -1 else 1 in
  let angle := sign * acos (p / n) in
  angle.

Definition clamp (val min max : R) : R := Rmin (Rmax val min) max.

Definition calculateLineParameter (x0 x1 t : R) : R := x0 + (x1 - x0) * t.

Definition pointOnLine (p0 p1 : point R) (t : R) : point R :=
  {| x := calculateLineParameter (x p0) (x p1) t;
     y := calculateLineParameter (y p0) (y p1) t |}.

(** The local variables of the non-degenerate branch of [pointOnArc] that
    outlive steps #1 to #4; the program attaches them to the point it returns
    ([resultantRx], [resultantRy], [ellipticalArcCenter],
    [ellipticalArcStartAngle], and [ellipticalArcEndAngle] as
    [startAngle + sweepAngle]). *)
Record arcGeometry : Type := {
  resultantRx : R;
  resultantRy : R;
  ellipticalArcCenter : point R;
  ellipticalArcStartAngle : R;
  sweepAngle : R
}.

(** Step #1: Compute transformedPoint *)
Definition transformedPoint (xAxisRotationRadians : R) (p0 p1 : point R)
    : point R :=
  let dx := (x p0 - x p1) / 2 in
  let dy := (y p0 - y p1) / 2 in
  {| x := cos xAxisRotationRadians * dx + sin xAxisRotationRadians * dy;
     y := - sin xAxisRotationRadians * dx + cos xAxisRotationRadians * dy |}.

(** Ensure radii are large enough: [radiiCheck], and what
    [if (radiiCheck > 1) { rx = Math.sqrt(radiiCheck) * rx; ry = ... }]
    makes of a radius [r]. *)
Definition radiiCheck (rx ry : R) (transformedPoint : point R) : R :=
  pow2 (x transformedPoint) / pow2 rx + pow2 (y transformedPoint) / pow2 ry.

Definition enlargedRadius (radiiCheck r : R) : R :=
  if Rltb 1 radiiCheck then sqrt radiiCheck * r else r.

(** Step #2: Compute transformedCenter *)
Definition cCoef (rx ry : R) (transformedPoint : point R)
    (largeArcFlag sweepFlag : bool) : R :=
  let cSquareNumerator :=
    pow2 rx * pow2 ry - pow2 rx * pow2 (y transformedPoint)
    - pow2 ry * pow2 (x transformedPoint) in
  let cSquareRootDenom :=
    pow2 rx * pow2 (y transformedPoint) + pow2 ry * pow2 (x transformedPoint) in
  let cRadicand := cSquareNumerator / cSquareRootDenom in
  (* Make sure this never drops below zero because of precision *)
  let cRadicand := if Rltb cRadicand 0 then 0 else cRadicand in
  (if negb (Bool.eqb largeArcFlag sweepFlag) then 1 else -1) * sqrt cRadicand.

Definition transformedCenter (rx ry cCoef : R) (transformedPoint : point R)
    : point R :=
  {| x := cCoef * ((rx * y transformedPoint) / ry);
     y := cCoef * (- (ry * x transformedPoint) / rx) |}.

(** Step #3: Compute center *)
Definition arcCenter (xAxisRotationRadians : R) (transformedCenter p0 p1 : point R)
    : point R :=
  {| x := cos xAxisRotationRadians * x transformedCenter
          - sin xAxisRotationRadians * y transformedCenter
          + ((x p0 + x p1) / 2);
     y := sin xAxisRotationRadians * x transformedCenter
          + cos xAxisRotationRadians * y transformedCenter
          + ((y p0 + y p1) / 2) |}.

(** Step #4: Compute start/sweep angles *)
Definition startVector (rx ry : R) (transformedPoint transformedCenter : point R)
    : point R :=
  {| x := (x transformedPoint - x transformedCenter) / rx;
     y := (y transformedPoint - y transformedCenter) / ry |}.

Definition endVector (rx ry : R) (transformedPoint transformedCenter : point R)
    : point R :=
  {| x := (- x transformedPoint - x transformedCenter) / rx;
     y := (- y transformedPoint - y transformedCenter) / ry |}.

Definition sweepAngleBetween (sweepFlag : bool) (startVector endVector : point R)
    : R :=
  let sweepAngle := angleBetween startVector endVector in
  let sweepAngle :=
    if negb sweepFlag && Rltb 0 sweepAngle then sweepAngle - 2 * PI
    else if sweepFlag && Rltb sweepAngle 0 then sweepAngle + 2 * PI
    else sweepAngle in
  (* We use % instead of mod(..) *)
  js_rem sweepAngle (2 * PI).

(** Steps #1 to #4 of [pointOnArc] in sequence, from the radii after
    [Math.abs] and the rotation in radians. *)
Definition arcGeometryOf (p0 : point R) (rx ry xAxisRotationRadians : R)
    (largeArcFlag sweepFlag : bool) (p1 : point R) : arcGeometry :=
  let tp := transformedPoint xAxisRotationRadians p0 p1 in
  let check := radiiCheck rx ry tp in
  let rx := enlargedRadius check rx in
  let ry := enlargedRadius check ry in
  let tc := transformedCenter rx ry (cCoef rx ry tp largeArcFlag sweepFlag) tp in
  let center := arcCenter xAxisRotationRadians tc p0 p1 in
  let startVector := startVector rx ry tp tc in
  let startAngle := angleBetween {| x := 1; y := 0 |} startVector in
  let endVector := endVector rx ry tp tc in
  {| resultantRx := rx;
     resultantRy := ry;
     ellipticalArcCenter := center;
     ellipticalArcStartAngle := startAngle;
     sweepAngle := sweepAngleBetween sweepFlag startVector endVector |}.

(** [pointOnArc(p0, rx, ry, xAxisRotation, largeArcFlag, sweepFlag, p1, t)];
    the value is the point's coordinates. *)
Definition pointOnArc (p0 : point R) (rx ry xAxisRotation : R)
    (largeArcFlag sweepFlag : bool) (p1 : point R) (t : R) : point R :=
  let rx := Rabs rx in
  let ry := Rabs ry in
  let xAxisRotation := mod_ xAxisRotation 360 in
  let xAxisRotationRadians := toRadians xAxisRotation in
  if Reqb (x p0) (x p1) && Reqb (y p0) (y p1) then p0
  else if Reqb rx 0 || Reqb ry 0 then pointOnLine p0 p1 t
  else
    let g := arcGeometryOf p0 rx ry xAxisRotationRadians largeArcFlag sweepFlag p1 in
    let angle := ellipticalArcStartAngle g + sweepAngle g * t in
    let ellipseComponentX := resultantRx g * cos angle in
    let ellipseComponentY := resultantRy g * sin angle in
    {| x := cos xAxisRotationRadians * ellipseComponentX
            - sin xAxisRotationRadians * ellipseComponentY
            + x (ellipticalArcCenter g);
       y := sin xAxisRotationRadians * ellipseComponentX
            + cos xAxisRotationRadians * ellipseComponentY
            + y (ellipticalArcCenter g) |}.

(** An entry [{t, arcLength}] of the arc-length map. *)
Record arcLengthMapEntry : Type := {
  entry_t : R;
  entry_arcLength : R
}.

(** The value of [approximateArcLengthOfCurve]. *)
Record arcLengthApproximation : Type := {
  arcLength : R;
  arcLengthMap : list arcLengthMapEntry;
  approximationLines : list (point R * point R)
}.

(** The variables the loop of [approximateArcLengthOfCurve] updates. *)
Record approxState : Type := {
  prevPoint : point R;
  resultantArcLength : R;
  st_arcLengthMap : list arcLengthMapEntry;
  st_approximationLines : list (point R * point R)
}.

(** One pass through the body of the loop, at counter [i]. *)
Definition approxStep (resolution : nat) (pointOnCurveFunc : R -> point R)
    (i : nat) (st : approxState) : approxState :=
  let t := clamp (INR i * (1 / INR resolution)) 0 1 in
  let nextPoint := pointOnCurveFunc t in
  let resultantArcLength' :=
    resultantArcLength st + distance (prevPoint st) nextPoint in
  {| prevPoint := nextPoint;
     resultantArcLength := resultantArcLength';
     st_arcLengthMap :=
       st_arcLengthMap st
       ++ [{| entry_t := t; entry_arcLength := resultantArcLength' |}];
     st_approximationLines :=
       st_approximationLines st ++ [(prevPoint st, nextPoint)] |}.

(** [for (var i = 0; i < resolution; i++) ...], with [count] passes left. *)
Fixpoint approxLoop (resolution : nat) (pointOnCurveFunc : R -> point R)
    (count i : nat) (st : approxState) : approxState :=
  match count with
  | O => st
  | S count' =>
      approxLoop resolution pointOnCurveFunc count' (S i)
        (approxStep resolution pointOnCurveFunc i st)
  end.

(** [approximateArcLengthOfCurve(resolution, pointOnCurveFunc)], for a
    resolution that is a natural number (the number of segments). *)
Definition approximateArcLengthOfCurve (resolution : nat)
    (pointOnCurveFunc : R -> point R) : arcLengthApproximation :=
  let resolution := if Nat.eqb resolution 0 then 500%nat else resolution in
  let st :=
    approxLoop resolution pointOnCurveFunc resolution 0
      {| prevPoint := pointOnCurveFunc 0;
         resultantArcLength := 0;
         st_arcLengthMap := [];
         st_approximationLines := [] |} in
  (* Last stretch to the endpoint *)
  let nextPoint := pointOnCurveFunc 1 in
  let resultantArcLength' :=
    resultantArcLength st + distance (prevPoint st) nextPoint in
  {| arcLength := resultantArcLength';
     arcLengthMap :=
       st_arcLengthMap st
       ++ [{| entry_t := 1; entry_arcLength := resultantArcLength' |}];
     approximationLines :=
       st_approximationLines st ++ [(prevPoint st, nextPoint)] |}.

(** ** paths.js: the point emitter (any reading of numbers) *)

Section PointEmitter.
Context {num : Type} `{Number num} {A : Type}.

(** [for (let i = 0, t = 1 / steps; i <= 1; i += t) pts.push(pointFn(i));]
    The loop need not end (with [t = 0], say): [fuel] bounds the number of
    times its condition is tested, and [None] means the bound was hit. *)
Fixpoint getPoints_loop (fuel : nat) (pointFn : num -> A) (t i : num)
    (pts : list A) : option (list A) :=
  match fuel with
  | O => None
  | S fuel' =>
      if js_le i js_one
      then getPoints_loop fuel' pointFn t (js_add i t) (pts ++ [pointFn i])
      else Some pts
  end.

Definition getPoints (fuel : nat) (pointFn : num -> A) (steps : num)
    : option (list A) :=
  getPoints_loop fuel pointFn (js_div js_one steps) js_zero [].

End PointEmitter.

(** ** point-generator.js: distances and deduplication (any reading of numbers) *)

Section PostProcessor.
Context {num : Type} `{Number num}.

(** [Math.pow(v, 2)], read as [v * v]. *)
Definition js_sq (v : num) : num := js_mul v v.

(** [qdist(p1, p2)]: the squared distance. *)
Definition qdist (p1 p2 : point num) : num :=
  js_add (js_sq (js_sub (x p2) (x p1))) (js_sq (js_sub (y p2) (y p1))).

(** The elements of an array with their indices, as [forEach] and [filter]
    hand them to their callbacks. *)
Definition indexed {A : Type} (l : list A) : list (nat * A) :=
  combine (seq 0 (length l)) l.

(** First pass of [clean]: the pairs [{p1: idx1, p2: idx2}] of indices of
    points that are too close together, in the order the two nested
    [forEach] push them. *)
Definition closePairs (minDist : num) (points : list (point num))
    : list (nat * nat) :=
  flat_map
    (fun '(idx1, p1) =>
       flat_map
         (fun '(idx2, p2) =>
            if negb (Nat.eqb idx1 idx2) && js_lt (qdist p1 p2) minDist
            then [(idx1, idx2)]
            else [])
         (indexed points))
    (indexed points).

(** [p.includes(i)] *)
Definition includes (p : list nat) (i : nat) : bool := existsb (Nat.eqb i) p.

(** Second pass of [clean]: the callback of the [reduce] over the pairs, and
    the [reduce], which leaves the indices to remove. *)
Definition removalStep (p : list nat) (c : nat * nat) : list nat :=
  if includes p (fst c) || includes p (snd c) then p else p ++ [snd c].

Definition removals (pairs : list (nat * nat)) : list nat :=
  fold_left removalStep pairs [].

(** [clean(points, tolerance)], for a generator of segment length [len]. *)
Definition clean (len : num) (points : list (point num)) (tolerance : num)
    : list (point num) :=
  let minDist := js_sq (js_sub len tolerance) in
  let pairs := closePairs minDist points in
  let pairs := removals pairs in
  map snd
    (filter (fun '(idx, p) => negb (includes pairs idx)) (indexed points)).

End PostProcessor.

(** ** point-generator.js: the generator and its in-place updates *)

(** The methods [scale], [translate] and [recenter] update the point objects
    of [this.points] in place, so an object that sits twice in the array, or
    that is also [this.center], is updated through each of its occurrences.
    Objects therefore live in a heap and the generator holds references. *)
Definition ref : Type := nat.

Definition heap : Type := ref -> point R.

(** The heap after the object at [r] has become [p]. *)
Definition upd (h : heap) (r : ref) (p : point R) : heap :=
  fun r' => if Nat.eqb r' r then p else h r'.

(** [refs.forEach(p => ...)] for a callback that updates [p] to [f p]. *)
Definition forEach (f : point R -> point R) (refs : list ref) (h : heap)
    : heap :=
  fold_left (fun h r => upd h r (f (h r))) refs h.

Record PointGenerator : Type := {
  res : R;
  len : R;
  points : list ref;
  center : ref
}.

(** [new PointGenerator(resolution, length)]; [c] is the fresh object
    allocated for [this.center]. *)
Definition newPointGenerator (resolution length : R) (c : ref) (h : heap)
    : PointGenerator * heap :=
  ({| res := resolution; len := length; points := []; center := c |},
   upd h c {| x := 0; y := 0 |}).

(** [scale(amt)]; the value is [this] with the heap the call leaves. *)
Definition scale (amt : R) (g : PointGenerator) (h : heap)
    : PointGenerator * heap :=
  (g, forEach (fun p => {| x := x p * amt; y := y p * amt |}) (points g) h).

(** [translate(x, y)] *)
Definition translate (dx dy : R) (g : PointGenerator) (h : heap)
    : PointGenerator * heap :=
  let h :=
    upd h (center g)
      {| x := x (h (center g)) + dx; y := y (h (center g)) + dy |} in
  (g, forEach (fun p => {| x := x p + dx; y := y p + dy |}) (points g) h).

(** What a call can throw. *)
Inductive exception : Type :=
| TypeError.

Inductive completion (A : Type) : Type :=
| Return (a : A)
| Throw (e : exception).

Arguments Return {A} _.
Arguments Throw {A} _.

(** The object [bbox] returns. *)
Record boundingBox : Type := {
  bbox_x : R;
  bbox_y : R;
  width : R;
  height : R
}.

(** The variables [xmin], [xmax], [ymin], [ymax] of [bbox]. *)
Record extent : Type := {
  xmin : R;
  xmax : R;
  ymin : R;
  ymax : R
}.

(** The callback of the [forEach] of [bbox]. *)
Definition bboxStep (h : heap) (e : extent) (r : ref) : extent :=
  let p := h r in
  {| xmin := if Rltb (x p) (xmin e) then x p else xmin e;
     xmax := if Rltb (xmax e) (x p) then x p else xmax e;
     ymin := if Rltb (y p) (ymin e) then y p else ymin e;
     ymax := if Rltb (ymax e) (y p) then y p else ymax e |}.

(** [bbox()]: on an empty array [this.points[0]] is [undefined], and reading
    [first.x] throws a [TypeError]. *)
Definition bbox (g : PointGenerator) (h : heap) : completion boundingBox :=
  match points g with
  | [] => Throw TypeError
  | first :: _ =>
      let first := h first in
      let e :=
        fold_left (bboxStep h) (points g)
          {| xmin := x first; xmax := x first;
             ymin := y first; ymax := y first |} in
      Return
        {| bbox_x := xmin e;
           bbox_y := ymin e;
           width := xmax e - xmin e;
           height := ymax e - ymin e |}
  end.

(** [recenter()] *)
Definition recenter (g : PointGenerator) (h : heap)
    : completion (PointGenerator * heap) :=
  match bbox g h with
  | Throw e => Throw e
  | Return bbox =>
      let xshift := bbox_x bbox + (width bbox / 2) in
      let yshift := bbox_y bbox + (height bbox / 2) in
      Return
        (g,
         forEach (fun p => {| x := x p - xshift; y := y p - yshift |})
           (points g) h)
  end.

(** ** paths.js: the Bezier evaluators *)

Definition calculateQuadraticBezierParameter (x0 x1 x2 t : R) : R :=
  pow2 (1 - t) * x0 + 2 * t * (1 - t) * x1 + pow2 t * x2.

Definition pointOnQuadraticBezier (p0 p1 p2 : point R) (t : R) : point R :=
  {| x := calculateQuadraticBezierParameter (x p0) (x p1) (x p2) t;
     y := calculateQuadraticBezierParameter (y p0) (y p1) (y p2) t |}.

Definition calculateCubicBezierParameter (x0 x1 x2 x3 t : R) : R :=
  (1 - t) ^ 3 * x0 + 3 * t * pow2 (1 - t) * x1 + 3 * (1 - t) * pow2 t * x2
  + t ^ 3 * x3.

Definition pointOnCubicBezierCurve (p0 p1 p2 p3 : point R) (t : R) : point R :=
  {| x := calculateCubicBezierParameter (x p0) (x p1) (x p2) (x p3) t;
     y := calculateCubicBezierParameter (y p0) (y p1) (y p2) (y p3) t |}.

(** ** paths.js: the re-parameterization by arc length *)

(** [(num / den) || 0]: the quotient, and [0] where the quotient is [NaN]
    (which is [0 / 0]) or [0].  A non-zero numerator over a zero denominator
    is outside this reading; [scanDivides] below says that it is not met. *)
Definition quotientOrZero (num den : R) : R :=
  if Reqb den 0 then 0 else num / den.

(** [arcLengthMap.every(function(entry) { ... })] in [transformer]: the value
    is [resultantT] when the scan ends, from the [prevArcLength] and [prevT]
    the scan has reached.  [resultantT] is [0] until an entry sets it. *)
Fixpoint scanArcLengthMap (targetDistanceFromStartingPoint : R)
    (entries : list arcLengthMapEntry) (prevArcLength prevT : R) : R :=
  match entries with
  | [] => 0
  | entry :: rest =>
      let t := entry_t entry in
      let arcLength := entry_arcLength entry in
      if Rleb targetDistanceFromStartingPoint arcLength
      then
        let endDiff := arcLength - targetDistanceFromStartingPoint in
        let startDiff := targetDistanceFromStartingPoint - prevArcLength in
        let linearFactor := quotientOrZero startDiff (endDiff + startDiff) in
        prevT + (t - prevT) * linearFactor
      else scanArcLengthMap targetDistanceFromStartingPoint rest arcLength t
  end.

(** [clamp(u, 0, 1)] on a number that may be special:
    [Math.min(Math.max(u, 0), 1)] is [NaN] on [NaN]. *)
Definition xclamp01 (u : xreal) : xreal :=
  match u with
  | Fin r => Fin (clamp r 0 1)
  | PInf => Fin 1
  | NInf => Fin 0
  | NaN => NaN
  end.

(** The function [generateLinearCurve] returns, with its property
    [arcLength]. *)
Record linearCurve : Type := {
  transformer : xreal -> point R;
  transformer_arcLength : R
}.

(** [generateLinearCurve(resolution, pointOnCurveFunc)].  In [transformer],
    a [NaN] target compares below no arc length, so that the scan sets
    nothing and the curve is read at [resultantT = 0]. *)
Definition generateLinearCurve (resolution : nat)
    (pointOnCurveFunc : R -> point R) : linearCurve :=
  let resolution := if Nat.eqb resolution 0 then 500%nat else resolution in
  let result := approximateArcLengthOfCurve resolution pointOnCurveFunc in
  let arcLength := arcLength result in
  let arcLengthMap := arcLengthMap result in
  {| transformer :=
       fun u =>
         match xclamp01 u with
         | Fin u =>
             let targetDistanceFromStartingPoint := u * arcLength in
             pointOnCurveFunc
               (scanArcLengthMap targetDistanceFromStartingPoint arcLengthMap
                  0 0)
         | _ => pointOnCurveFunc 0
         end;
     transformer_arcLength := arcLength |}.

(** [Math.floor] *)
Definition xfloor (a : xreal) : xreal :=
  match a with
  | Fin r => Fin (IZR (Int_part r))
  | _ => a
  end.

(** [nsteps(curveFn, res, len)] *)
Definition nsteps (curveFn : R -> point R) (res : nat) (len : R) : xreal :=
  let arcLength := arcLength (approximateArcLengthOfCurve res curveFn) in
  xfloor (xdiv (Fin arcLength) (Fin len)).

(** A point with finite coordinates among the points with any coordinates. *)
Definition xpoint (p : point R) : point xreal :=
  {| x := Fin (x p); y := Fin (y p) |}.

(** [pointOnLine], on numbers of any reading: [getPoints] calls it on the
    values of its loop variable. *)
Section LineEvaluator.
Context {num : Type} `{Number num}.

Definition js_calculateLineParameter (x0 x1 t : num) : num :=
  js_add x0 (js_mul (js_sub x1 x0) t).

Definition js_pointOnLine (p0 p1 : point num) (t : num) : point num :=
  {| x := js_calculateLineParameter (x p0) (x p1) t;
     y := js_calculateLineParameter (y p0) (y p1) t |}.

End LineEvaluator.

(** [pointsForBezier(start, cp1, cp2, end, res, len)], with the bound [fuel]
    of [getPoints]. *)
Definition pointsForBezier (fuel : nat) (start cp1 cp2 end_ : point R)
    (res : nat) (len : R) : option (list (point R)) :=
  let curveFn := pointOnCubicBezierCurve start cp1 cp2 end_ in
  let stepFn := generateLinearCurve res curveFn in
  let steps := nsteps curveFn res len in
  getPoints fuel (transformer stepFn) steps.

(** [pointsForArc(start, rads, rot, lrg, swp, end, res, len)] *)
Definition pointsForArc (fuel : nat) (start rads : point R) (rot : R)
    (lrg swp : bool) (end_ : point R) (res : nat) (len : R)
    : option (list (point R)) :=
  let arcFn := pointOnArc start (x rads) (y rads) rot lrg swp end_ in
  let stepFn := generateLinearCurve res arcFn in
  let steps := nsteps arcFn res len in
  getPoints fuel (transformer stepFn) steps.

(** [pointsForLine(start, end, len)] *)
Definition pointsForLine (fuel : nat) (start end_ : point R) (len : R)
    : option (list (point xreal)) :=
  let lineFn := js_pointOnLine (xpoint start) (xpoint end_) in
  let length := distance start end_ in
  let steps := xfloor (xdiv (Fin length) (Fin len)) in
  getPoints fuel lineFn steps.

(** ** point-generator.js: the fill (any reading of numbers) *)

(** [Delaunay.triangulate] belongs to another package; [tessellate] and
    [fillWithPoints] take the array it returns, [vertices], as an argument.
    Reading an array past its end gives [undefined], here [None]. *)

Section Fill.
Context {num : Type} `{Number num}.

(** The objects [{p1, p2}] that [tessellate] returns. *)
Record line : Type := { p1 : point num; p2 : point num }.

(** The objects [{p1, p2, p3}] of the first loop; a field is [undefined]
    where [vertices] or [this.points] has no such entry. *)
Record triangle : Type := {
  t_p1 : option (point num);
  t_p2 : option (point num);
  t_p3 : option (point num)
}.

(** The first loop of [tessellate], [i] going up by three. *)
Fixpoint triangles (points : list (point num)) (vertices : list nat)
    : list triangle :=
  match vertices with
  | [] => []
  | v1 :: rest =>
      match rest with
      | [] =>
          [{| t_p1 := nth_error points v1; t_p2 := None; t_p3 := None |}]
      | v2 :: rest =>
          match rest with
          | [] =>
              [{| t_p1 := nth_error points v1;
                  t_p2 := nth_error points v2;
                  t_p3 := None |}]
          | v3 :: rest =>
              {| t_p1 := nth_error points v1;
                 t_p2 := nth_error points v2;
                 t_p3 := nth_error points v3 |}
              :: triangles points rest
          end
      end
  end.

(** [d > min && d < max] *)
Definition between (min max d : num) : bool := js_lt min d && js_lt d max.

(** The callback of the [map] over the triangles; [qdist] reads [x] of its
    arguments, which throws on [undefined]. *)
Definition triangleLines (min max : num) (t : triangle)
    : completion (list line) :=
  match t_p1 t, t_p2 t, t_p3 t with
  | Some a, Some b, Some c =>
      let d1 := qdist a b in
      let d2 := qdist a c in
      let d3 := qdist b c in
      let res := [] in
      let res :=
        if between min max d1 then res ++ [{| p1 := a; p2 := b |}] else res in
      let res :=
        if between min max d2 then res ++ [{| p1 := a; p2 := c |}] else res in
      let res :=
        if between min max d3 then res ++ [{| p1 := b; p2 := c |}] else res in
      Return res
  | _, _, _ => Throw TypeError
  end.

(** [array.map(f)] for a callback that can throw. *)
Fixpoint mapThrowing {A B : Type} (f : A -> completion B) (l : list A)
    : completion (list B) :=
  match l with
  | [] => Return []
  | a :: l =>
      match f a with
      | Throw e => Throw e
      | Return b =>
          match mapThrowing f l with
          | Throw e => Throw e
          | Return bs => Return (b :: bs)
          end
      end
  end.

(** [array.reduce((prev, cur) => prev.concat(cur))]: without an initial
    value, [reduce] throws a [TypeError] on an empty array. *)
Definition reduceConcat {A : Type} (l : list (list A))
    : completion (list A) :=
  match l with
  | [] => Throw TypeError
  | first :: rest => Return (fold_left (fun prev cur => prev ++ cur) rest first)
  end.

(** [tessellate(minLength, maxLength)] on [this.points = points]. *)
Definition tessellate (vertices : list nat) (points : list (point num))
    (minLength maxLength : num) : completion (list line) :=
  let min := js_sq minLength in
  let max := js_sq maxLength in
  let triangles := triangles points vertices in
  match mapThrowing (triangleLines min max) triangles with
  | Throw e => Throw e
  | Return lines => reduceConcat lines
  end.

(** The literal [2]. *)
Definition js_two : num := js_add js_one js_one.

(** The callback of the [map] in [fillWithPoints]. *)
Definition midpoint (l : line) : point num :=
  {| x := js_add (x (p1 l)) (js_div (js_sub (x (p2 l)) (x (p1 l))) js_two);
     y := js_add (y (p1 l)) (js_div (js_sub (y (p2 l)) (y (p1 l))) js_two) |}.

(** [fillWithPoints(minThreshold, maxThreshold)] on a generator of segment
    length [len] with [this.points = points]: the new [this.points].  The
    call [this.clean(this.points)] leaves the tolerance at its default. *)
Definition fillWithPoints (vertices : list nat) (len : num)
    (points : list (point num)) (minThreshold maxThreshold : num)
    : completion (list (point num)) :=
  match tessellate vertices points minThreshold maxThreshold with
  | Throw e => Throw e
  | Return lines =>
      let lines := map midpoint lines in
      let points := points ++ lines in
      Return (clean len points js_zero)
  end.

End Fill.

Arguments line num : clear implicits.
Arguments triangle num : clear implicits.

(** ** paths.js: the arc on binary64 numbers *)

(** [pointOnArc] once more, now on the numbers of the program.  The four
    operations, the comparisons, [Math.abs] and [Math.sqrt] are those of
    IEEE 754, and [Math.pow(v, 2)] is read as the product [v * v] rounded
    once.  ECMAScript fixes [Math.cos], [Math.sin] and [Math.acos] only at
    some arguments ([NaN], the zeros, the infinities, and for [Math.acos]
    what lies outside [[-1, 1]]) and leaves the other values to the
    implementation: these are taken from [approximations], which the
    definitions below take as an argument. *)
Module Binary64.

Local Open Scope float_scope.

Record approximations : Type := {
  cos_approx : float -> float;
  sin_approx : float -> float;
  acos_approx : float -> float
}.

(** [Math.PI], the binary64 number next to the real one. *)
Definition Math_PI : float := 0x1.921fb54442d18p+1.

(** [n % d] for finite operands that are not zero: the exact remainder of
    the division truncated towards zero, with the sign of [n].  It is a
    binary64 number, so no rounding takes place. *)
Definition finiteRemainder (n d : float) : float :=
  match Prim2SF n, Prim2SF d with
  | S754_finite sn mn en, S754_finite _ md ed =>
      let e := Z.min en ed in
      let a := (Z.pos mn * 2 ^ (en - e))%Z in
      let b := (Z.pos md * 2 ^ (ed - e))%Z in
      let r := Z.rem a b in
      if (r =? 0)%Z then (if sn then (-0) else 0)
      else
        SF2Prim
          (binary_normalize prec emax (if sn then (- r)%Z else r) e false)
  | _, _ => nan
  end.

(** The operator [%] on numbers. *)
Definition remainder (n d : float) : float :=
  if is_nan n || is_nan d then nan
  else if is_infinity n then nan
  else if is_infinity d then n
  else if is_zero d then nan
  else if is_zero n then n
  else finiteRemainder n d.

Section Arc.
Variable impl : approximations.

Definition Math_cos (v : float) : float :=
  if is_nan v || is_infinity v then nan
  else if is_zero v then 1
  else cos_approx impl v.

Definition Math_sin (v : float) : float :=
  if is_nan v || is_infinity v then nan
  else if is_zero v then v
  else sin_approx impl v.

Definition Math_acos (v : float) : float :=
  if is_nan v || (1 <? v) || (v <? -1) then nan
  else if v =? 1 then 0
  else acos_approx impl v.

(** [Math.pow(v, 2)] *)
Definition pow2 (v : float) : float := v * v.

(** [mod(x, m)] *)
Definition mod_ (v m : float) : float := remainder (remainder v m + m) m.

Definition toRadians (angle : float) : float := angle * (Math_PI / 180).

(** The quotient [p / n] that [angleBetween] hands to [Math.acos]. *)
Definition cosineBetween (v0 v1 : point float) : float :=
  let p := x v0 * x v1 + y v0 * y v1 in
  let n :=
    PrimFloat.sqrt
      ((pow2 (x v0) + pow2 (y v0)) * (pow2 (x v1) + pow2 (y v1))) in
  p / n.

Definition angleBetween (v0 v1 : point float) : float :=
  let sign := if x v0 * y v1 - y v0 * x v1 <? 0 then -1 else 1 in
  let angle := sign * Math_acos (cosineBetween v0 v1) in
  angle.

Record arcGeometry : Type := {
  resultantRx : float;
  resultantRy : float;
  ellipticalArcCenter : point float;
  ellipticalArcStartAngle : float;
  sweepAngle : float
}.

(** Step #1: Compute transformedPoint *)
Definition transformedPoint (xAxisRotationRadians : float)
    (p0 p1 : point float) : point float :=
  let dx := (x p0 - x p1) / 2 in
  let dy := (y p0 - y p1) / 2 in
  {| x := Math_cos xAxisRotationRadians * dx + Math_sin xAxisRotationRadians * dy;
     y := - Math_sin xAxisRotationRadians * dx
          + Math_cos xAxisRotationRadians * dy |}.

(** Ensure radii are large enough *)
Definition radiiCheck (rx ry : float) (transformedPoint : point float)
    : float :=
  pow2 (x transformedPoint) / pow2 rx + pow2 (y transformedPoint) / pow2 ry.

Definition enlargedRadius (radiiCheck r : float) : float :=
  if 1 <? radiiCheck then PrimFloat.sqrt radiiCheck * r else r.

(** Step #2: Compute transformedCenter *)
Definition cCoef (rx ry : float) (transformedPoint : point float)
    (largeArcFlag sweepFlag : bool) : float :=
  let cSquareNumerator :=
    pow2 rx * pow2 ry - pow2 rx * pow2 (y transformedPoint)
    - pow2 ry * pow2 (x transformedPoint) in
  let cSquareRootDenom :=
    pow2 rx * pow2 (y transformedPoint) + pow2 ry * pow2 (x transformedPoint) in
  let cRadicand := cSquareNumerator / cSquareRootDenom in
  (* Make sure this never drops below zero because of precision *)
  let cRadicand := if cRadicand <? 0 then 0 else cRadicand in
  (if negb (Bool.eqb largeArcFlag sweepFlag) then 1 else -1)
  * PrimFloat.sqrt cRadicand.

Definition transformedCenter (rx ry cCoef : float)
    (transformedPoint : point float) : point float :=
  {| x := cCoef * ((rx * y transformedPoint) / ry);
     y := cCoef * (- (ry * x transformedPoint) / rx) |}.

(** Step #3: Compute center *)
Definition arcCenter (xAxisRotationRadians : float)
    (transformedCenter p0 p1 : point float) : point float :=
  {| x := Math_cos xAxisRotationRadians * x transformedCenter
          - Math_sin xAxisRotationRadians * y transformedCenter
          + ((x p0 + x p1) / 2);
     y := Math_sin xAxisRotationRadians * x transformedCenter
          + Math_cos xAxisRotationRadians * y transformedCenter
          + ((y p0 + y p1) / 2) |}.

(** Step #4: Compute start/sweep angles *)
Definition startVector (rx ry : float)
    (transformedPoint transformedCenter : point float) : point float :=
  {| x := (x transformedPoint - x transformedCenter) / rx;
     y := (y transformedPoint - y transformedCenter) / ry |}.

Definition endVector (rx ry : float)
    (transformedPoint transformedCenter : point float) : point float :=
  {| x := (- x transformedPoint - x transformedCenter) / rx;
     y := (- y transformedPoint - y transformedCenter) / ry |}.

Definition sweepAngleBetween (sweepFlag : bool)
    (startVector endVector : point float) : float :=
  let sweepAngle := angleBetween startVector endVector in
  let sweepAngle :=
    if negb sweepFlag && (0 <? sweepAngle) then sweepAngle - 2 * Math_PI
    else if sweepFlag && (sweepAngle <? 0) then sweepAngle + 2 * Math_PI
    else sweepAngle in
  (* We use % instead of mod(..) *)
  remainder sweepAngle (2 * Math_PI).

(** Steps #1 to #4 in sequence, from the radii after [Math.abs] and the
    rotation in radians. *)
Definition arcGeometryOf (p0 : point float) (rx ry xAxisRotationRadians : float)
    (largeArcFlag sweepFlag : bool) (p1 : point float) : arcGeometry :=
  let tp := transformedPoint xAxisRotationRadians p0 p1 in
  let check := radiiCheck rx ry tp in
  let rx := enlargedRadius check rx in
  let ry := enlargedRadius check ry in
  let tc := transformedCenter rx ry (cCoef rx ry tp largeArcFlag sweepFlag) tp in
  let center := arcCenter xAxisRotationRadians tc p0 p1 in
  let startVector := startVector rx ry tp tc in
  let startAngle := angleBetween {| x := 1; y := 0 |} startVector in
  let endVector := endVector rx ry tp tc in
  {| resultantRx := rx;
     resultantRy := ry;
     ellipticalArcCenter := center;
     ellipticalArcStartAngle := startAngle;
     sweepAngle := sweepAngleBetween sweepFlag startVector endVector |}.

(** The point at [t], from the geometry of steps #1 to #4. *)
Definition ellipsePoint (g : arcGeometry) (xAxisRotationRadians t : float)
    : point float :=
  let angle := ellipticalArcStartAngle g + sweepAngle g * t in
  let ellipseComponentX := resultantRx g * Math_cos angle in
  let ellipseComponentY := resultantRy g * Math_sin angle in
  {| x := Math_cos xAxisRotationRadians * ellipseComponentX
          - Math_sin xAxisRotationRadians * ellipseComponentY
          + x (ellipticalArcCenter g);
     y := Math_sin xAxisRotationRadians * ellipseComponentX
          + Math_cos xAxisRotationRadians * ellipseComponentY
          + y (ellipticalArcCenter g) |}.

(** [pointOnArc(p0, rx, ry, xAxisRotation, largeArcFlag, sweepFlag, p1, t)];
    the value is the point's coordinates. *)
Definition pointOnArc (p0 : point float) (rx ry xAxisRotation : float)
    (largeArcFlag sweepFlag : bool) (p1 : point float) (t : float)
    : point float :=
  let rx := PrimFloat.abs rx in
  let ry := PrimFloat.abs ry in
  let xAxisRotation := mod_ xAxisRotation 360 in
  let xAxisRotationRadians := toRadians xAxisRotation in
  if (x p0 =? x p1) && (y p0 =? y p1) then p0
  else if (rx =? 0) || (ry =? 0) then js_pointOnLine p0 p1 t
  else
    ellipsePoint
      (arcGeometryOf p0 rx ry xAxisRotationRadians largeArcFlag sweepFlag p1)
      xAxisRotationRadians t.

End Arc.

End Binary64.

(** ** Notions used to state the properties *)

(** A point and the extent of a cloud after a shift by [(- dx, - dy)]. *)
Definition shiftPoint (dx dy : R) (p : point R) : point R :=
  {| x := x p - dx; y := y p - dy |}.

Definition shiftExtent (dx dy : R) (e : extent) : extent :=
  {| xmin := xmin e - dx; xmax := xmax e - dx;
     ymin := ymin e - dy; ymax := ymax e - dy |}.

(** The extent [bbox] starts from, and the box it makes of the final one. *)
Definition extentOf (p : point R) : extent :=
  {| xmin := x p; xmax := x p; ymin := y p; ymax := y p |}.

Definition boxOf (e : extent) : boundingBox :=
  {| bbox_x := xmin e;
     bbox_y := ymin e;
     width := xmax e - xmin e;
     height := ymax e - ymin e |}.

(** An arc-length map entry that may stand before another: strictly smaller
    [t], and an arc length that is not larger. *)
Definition entryBefore (a b : arcLengthMapEntry) : Prop :=
  entry_t a < entry_t b /\ entry_arcLength a <= entry_arcLength b.

(** What holds of the variables of the loop of [approximateArcLengthOfCurve]
    before the pass at counter [i]. *)
Definition approxInvariant (resolution i : nat) (st : approxState) : Prop :=
  StronglySorted entryBefore (st_arcLengthMap st) /\
  Forall
    (fun e =>
       entry_t e < INR i * (1 / INR resolution) /\
       entry_arcLength e <= resultantArcLength st)
    (st_arcLengthMap st) /\
  map entry_t (st_arcLengthMap st)
  = map (fun k => INR k / INR resolution) (seq 0 i).

(** The segments [lines] lead from [start] to [finish], each one starting
    where the one before it ends. *)
Fixpoint chained (start : point R) (lines : list (point R * point R))
    (finish : point R) : Prop :=
  match lines with
  | [] => start = finish
  | line :: rest => fst line = start /\ chained (snd line) rest finish
  end.

Definition polylineLength (lines : list (point R * point R)) : R :=
  fold_right (fun line total => distance (fst line) (snd line) + total) 0 lines.

(** The resolution [approximateArcLengthOfCurve] works with. *)
Definition effectiveResolution (resolution : nat) : nat :=
  if Nat.eqb resolution 0 then 500%nat else resolution.

(** What holds of the variables of the loop of [approximateArcLengthOfCurve]
    before the pass at counter [i], for the curve [f]: the lines lead from
    [f 0] to the previous point, the running total is their length, and at
    each entry the arc length so far and the arc length since are at least
    the chords. *)
Definition approxPolylineInvariant (f : R -> point R) (i : nat)
    (st : approxState) : Prop :=
  chained (f 0) (st_approximationLines st) (prevPoint st) /\
  resultantArcLength st = polylineLength (st_approximationLines st) /\
  length (st_approximationLines st) = i /\
  length (st_arcLengthMap st) = i /\
  Forall
    (fun e =>
       0 <= entry_t e <= 1 /\
       distance (f 0) (f (entry_t e)) <= entry_arcLength e /\
       distance (f (entry_t e)) (prevPoint st)
       <= resultantArcLength st - entry_arcLength e)
    (st_arcLengthMap st) /\
  ((1 <= i)%nat ->
   exists rest,
     st_arcLengthMap st = {| entry_t := 0; entry_arcLength := 0 |} :: rest).

(** In a scan of the arc-length map, the entry that ends the scan divides by
    a non-zero number, or divides [0] by [0]. *)
Fixpoint scanDivides (targetDistanceFromStartingPoint : R)
    (entries : list arcLengthMapEntry) (prevArcLength : R) : Prop :=
  match entries with
  | [] => True
  | entry :: rest =>
      if Rleb targetDistanceFromStartingPoint (entry_arcLength entry)
      then
        entry_arcLength entry - targetDistanceFromStartingPoint
        + (targetDistanceFromStartingPoint - prevArcLength) <> 0
        \/ targetDistanceFromStartingPoint - prevArcLength = 0
      else
        scanDivides targetDistanceFromStartingPoint rest
          (entry_arcLength entry)
  end.

(** A curve that moves at constant speed [d]. *)
Definition uniformSpeed (f : R -> point R) (d : R) : Prop :=
  forall s t, distance (f s) (f t) = Rabs (t - s) * d.

(** [l] is [l'] with some of its elements left out, the others in their
    order. *)
Inductive subsequence {A : Type} : list A -> list A -> Prop :=
| subsequence_nil : subsequence [] []
| subsequence_drop (a : A) (l l' : list A) :
    subsequence l l' -> subsequence l (a :: l')
| subsequence_keep (a : A) (l l' : list A) :
    subsequence l l' -> subsequence (a :: l) (a :: l').

Section CleanNotions.
Context {num : Type} `{Number num}.

(** The points at the indices [i] and [j] of [points] are too close: their
    [qdist], taken in this order, is below [minDist]. *)
Definition closeAt (minDist : num) (points : list (point num)) (i j : nat)
    : Prop :=
  exists p q,
    nth_error points i = Some p /\ nth_error points j = Some q /\
    js_lt (qdist p q) minDist = true.

(** The pairs that the inner [forEach] of [clean] pushes for one point of
    the outer [forEach]. *)
Definition pairsFrom (minDist : num) (points : list (point num))
    (ip : nat * point num) : list (nat * nat) :=
  let '(idx1, p1) := ip in
  flat_map
    (fun '(idx2, p2) =>
       if negb (Nat.eqb idx1 idx2) && js_lt (qdist p1 p2) minDist
       then [(idx1, idx2)]
       else [])
    (indexed points).

(** What holds of the indices [marked] for removal once the pairs of the
    points before index [s] have been scanned: a marked index is too close
    to an earlier index that is not marked, and an index too close to one
    before [s] that is not marked is marked. *)
Definition scanInvariant (minDist : num) (points : list (point num))
    (s : nat) (marked : list nat) : Prop :=
  (forall j, In j marked ->
     exists i,
       (i < s)%nat /\ (i < j)%nat /\ ~ In i marked /\
       closeAt minDist points i j) /\
  (forall i j, (i < s)%nat -> ~ In i marked ->
     closeAt minDist points i j -> i <> j -> In j marked).

End CleanNotions.

Section FillNotions.
Context {num : Type} `{Number num}.

(** What [tessellate] needs of the array of the triangulation: it is not
    empty, holds its indices three by three, and each is an index of
    [points]. *)
Definition triangulationOf (points : list (point num)) (vertices : list nat)
    : Prop :=
  vertices <> [] /\
  (exists k, length vertices = (3 * k)%nat) /\
  Forall (fun v => (v < length points)%nat) vertices.

(** [l] joins two corners of [t], in the order of the fields of [t]. *)
Definition edgeOf (t : triangle num) (l : line num) : Prop :=
  (t_p1 t = Some (p1 l) /\ t_p2 t = Some (p2 l)) \/
  (t_p1 t = Some (p1 l) /\ t_p3 t = Some (p2 l)) \/
  (t_p2 t = Some (p1 l) /\ t_p3 t = Some (p2 l)).

End FillNotions.

(** The quotient [p / n] that [angleBetween] hands to [Math.acos]. *)
Definition cosineBetween (v0 v1 : point R) : R :=
  (x v0 * x v1 + y v0 * y v1)
  / sqrt ((pow2 (x v0) + pow2 (y v0)) * (pow2 (x v1) + pow2 (y v1))).

(** A generator with two points, for the examples. *)
Definition twoPoints : PointGenerator :=
  {| res := 1000; len := 10; points := [0; 1]%nat; center := 2%nat |}.

Definition twoPointsHeap : heap :=
  fun r =>
    match r with
    | 1%nat => {| x := 10; y := 4 |}
    | _ => {| x := 0; y := 0 |}
    end.

(** * Properties *)

(** ** Arrays with indices *)

Section Indexed.
Context {A : Type}.

Lemma in_combine_seq (l : list A) (s i : nat) (a : A) :
  In (i, a) (combine (seq s (length l)) l) <->
  (s <= i)%nat /\ nth_error l (i - s) = Some a.
Proof.
  revert s; induction l as [|b l IH]; intros s; simpl.
  - split; [tauto|]. intros [_ E]. destruct (i - s)%nat; discriminate.
  - rewrite IH. split.
    + intros [E | [L E]].
      * inversion E; subst. rewrite Nat.sub_diag. split; [lia | reflexivity].
      * split; [lia|]. replace (i - s)%nat with (S (i - S s)) by lia.
        exact E.
    + intros [L E]. destruct (Nat.eq_dec s i) as [->|N].
      * rewrite Nat.sub_diag in E. simpl in E. left. congruence.
      * right. split; [lia|].
        replace (i - s)%nat with (S (i - S s)) in E by lia. exact E.
Qed.

Lemma in_indexed (l : list A) (i : nat) (a : A) :
  In (i, a) (indexed l) <-> nth_error l i = Some a.
Proof.
  unfold indexed. rewrite in_combine_seq, Nat.sub_0_r.
  split; [tauto | intros E; split; [lia | exact E]].
Qed.

Lemma map_fst_indexed (l : list A) : map fst (indexed l) = seq 0 (length l).
Proof.
  unfold indexed. generalize 0%nat.
  induction l as [|b l IH]; intros s; simpl; [reflexivity|].
  now rewrite IH.
Qed.

Lemma map_snd_indexed (l : list A) : map snd (indexed l) = l.
Proof.
  unfold indexed. generalize 0%nat.
  induction l as [|b l IH]; intros s; simpl; [reflexivity|].
  now rewrite IH.
Qed.

(** Filtering keeps the indices pairwise distinct. *)
Lemma NoDup_fst_filter_indexed (keep : nat * A -> bool) (l : list A) :
  NoDup (map fst (filter keep (indexed l))).
Proof.
  assert (G : forall (m : list (nat * A)),
             NoDup (map fst m) -> NoDup (map fst (filter keep m))).
  { induction m as [|c m IH]; simpl; intros N; [constructor|].
    inversion N as [|? ? NI N']; subst.
    destruct (keep c); simpl; [|now apply IH].
    constructor; [|now apply IH].
    intros I. apply NI. apply in_map_iff in I. destruct I as [d [E I]].
    apply filter_In in I. apply in_map_iff. exists d. tauto. }
  apply G. rewrite map_fst_indexed. apply seq_NoDup.
Qed.

End Indexed.

(** ** clean: the removal set covers every pair that is too close *)

Section CleanProperties.
Context {num : Type} `{Number num}.

Lemma includes_In (p : list nat) (i : nat) : includes p i = true <-> In i p.
Proof.
  unfold includes. rewrite existsb_exists. split.
  - intros [k [I E]]. apply Nat.eqb_eq in E. now subst.
  - intros I. exists i. split; [exact I | apply Nat.eqb_refl].
Qed.

Lemma removalStep_grows (p : list nat) (c : nat * nat) (k : nat) :
  In k p -> In k (removalStep p c).
Proof.
  unfold removalStep. destruct (_ || _); [tauto|].
  intros I. apply in_or_app. now left.
Qed.

Lemma removalStep_covers (p : list nat) (c : nat * nat) :
  In (fst c) (removalStep p c) \/ In (snd c) (removalStep p c).
Proof.
  unfold removalStep. destruct (includes p (fst c)) eqn:E1; simpl.
  - left. now apply includes_In.
  - destruct (includes p (snd c)) eqn:E2.
    + right. now apply includes_In.
    + right. apply in_or_app. right. now left.
Qed.

Lemma fold_removalStep_grows (pairs : list (nat * nat)) (p : list nat) (k : nat) :
  In k p -> In k (fold_left removalStep pairs p).
Proof.
  revert p; induction pairs as [|c pairs IH]; intros p I; simpl; [exact I|].
  apply IH. now apply removalStep_grows.
Qed.

Lemma fold_removalStep_covers (pairs : list (nat * nat)) (p : list nat)
    (c : nat * nat) :
  In c pairs ->
  In (fst c) (fold_left removalStep pairs p) \/
  In (snd c) (fold_left removalStep pairs p).
Proof.
  revert p; induction pairs as [|d pairs IH]; intros p I; simpl; [destruct I|].
  destruct I as [-> | I]; [|now apply IH].
  destruct (removalStep_covers p c) as [I | I]; [left | right];
    now apply fold_removalStep_grows.
Qed.

(** Of the two indices of a pair that the scan meets, one is marked. *)
Lemma removals_covers (pairs : list (nat * nat)) (i j : nat) :
  In (i, j) pairs -> In i (removals pairs) \/ In j (removals pairs).
Proof.
  intros I. exact (fold_removalStep_covers pairs [] (i, j) I).
Qed.

Lemma in_closePairs (minDist : num) (points : list (point num))
    (i j : nat) (p q : point num) :
  nth_error points i = Some p -> nth_error points j = Some q ->
  i <> j -> js_lt (qdist p q) minDist = true ->
  In (i, j) (closePairs minDist points).
Proof.
  intros Ei Ej N L. unfold closePairs.
  apply in_flat_map. exists (i, p). split; [now apply in_indexed|].
  apply in_flat_map. exists (j, q). split; [now apply in_indexed|].
  apply Nat.eqb_neq in N. rewrite N, L. simpl. now left.
Qed.

Lemma closePairs_nil (minDist : num) (points : list (point num)) :
  (forall i j p q, nth_error points i = Some p -> nth_error points j = Some q ->
     i <> j -> js_lt (qdist p q) minDist = false) ->
  closePairs minDist points = [].
Proof.
  intros F. unfold closePairs.
  assert (G : forall (m : list (nat * point num)) (f : nat * point num -> list (nat * nat)),
            (forall c, In c m -> f c = []) -> flat_map f m = []).
  { induction m as [|c m IH]; intros f E; simpl; [reflexivity|].
    rewrite (E c) by (now left).
    rewrite IH; [reflexivity|]. intros d I. apply E. now right. }
  apply G. intros [i p] Ii. apply G. intros [j q] Ij.
  apply in_indexed in Ii. apply in_indexed in Ij.
  destruct (Nat.eqb i j) eqn:E; simpl; [reflexivity|].
  apply Nat.eqb_neq in E. now rewrite (F i j p q).
Qed.

(** The points [clean] keeps, with the indices they had in [points]. *)
Lemma clean_nth_error (len : num) (points : list (point num)) (tolerance : num)
    (a : nat) (p : point num) :
  nth_error (clean len points tolerance) a = Some p ->
  exists i,
    nth_error
      (map fst
         (filter
            (fun '(idx, _) =>
               negb (includes
                       (removals (closePairs (js_sq (js_sub len tolerance)) points))
                       idx))
            (indexed points))) a = Some i /\
    nth_error points i = Some p /\
    ~ In i (removals (closePairs (js_sq (js_sub len tolerance)) points)).
Proof.
  unfold clean. intros E. rewrite nth_error_map in E.
  destruct (nth_error _ a) as [[i p']|] eqn:Ea; [|discriminate].
  simpl in E. inversion E; subst p'. exists i.
  rewrite nth_error_map, Ea. split; [reflexivity|].
  apply nth_error_In, filter_In in Ea. destruct Ea as [I K].
  split; [now apply in_indexed|].
  intros C. apply includes_In in C. rewrite C in K. discriminate.
Qed.

(** What [clean] keeps holds no pair that is too close. *)
Lemma clean_spaced (len : num) (points : list (point num))
    (tolerance : num) (a b : nat) (p q : point num) :
  a <> b ->
  nth_error (clean len points tolerance) a = Some p ->
  nth_error (clean len points tolerance) b = Some q ->
  js_lt (qdist p q) (js_sq (js_sub len tolerance)) = false.
Proof.
  intros N Ea Eb.
  destruct (clean_nth_error _ _ _ _ _ Ea) as [i [Ia [Pi Ri]]].
  destruct (clean_nth_error _ _ _ _ _ Eb) as [j [Ib [Pj Rj]]].
  assert (D : i <> j).
  { intros E. apply N. rewrite <- E in Ib.
    pose proof
      (NoDup_fst_filter_indexed
         (fun '(idx, _) =>
            negb (includes
                    (removals (closePairs (js_sq (js_sub len tolerance)) points))
                    idx))
         points) as ND.
    apply (proj1 (NoDup_nth_error _) ND a b).
    - apply nth_error_Some. rewrite Ia. discriminate.
    - now rewrite Ia, Ib. }
  destruct (js_lt (qdist p q) (js_sq (js_sub len tolerance))) eqn:L;
    [|reflexivity].
  destruct (removals_covers _ _ _ (in_closePairs _ _ _ _ _ _ Pi Pj D L)); contradiction.
Qed.

(** C2. In the list that [clean(points, tolerance)] returns, no two entries
    at different positions have a squared distance [qdist] strictly below
    [(len - tolerance)^2]; and of every two indices of [points] whose points
    are that close, the greedy scan of the pairs marks at least one for
    removal.  This holds for every reading of the numbers, binary64
    included. *)
Theorem clean_no_close_pair (len : num) (points : list (point num))
    (tolerance : num) :
  (forall (a b : nat) (p q : point num),
     a <> b ->
     nth_error (clean len points tolerance) a = Some p ->
     nth_error (clean len points tolerance) b = Some q ->
     js_lt (qdist p q) (js_sq (js_sub len tolerance)) = false) /\
  (forall (i j : nat) (p q : point num),
     i <> j ->
     nth_error points i = Some p -> nth_error points j = Some q ->
     js_lt (qdist p q) (js_sq (js_sub len tolerance)) = true ->
     In i (removals (closePairs (js_sq (js_sub len tolerance)) points)) \/
     In j (removals (closePairs (js_sq (js_sub len tolerance)) points))).
Proof.
  split.
  - intros a b p q. apply clean_spaced.
  - intros i j p q N Pi Pj L.
    apply removals_covers. exact (in_closePairs _ _ _ _ _ _ Pi Pj N L).
Qed.

(** C3. [clean] is idempotent: a second pass finds no pair that is too close
    and returns its argument. *)
Theorem clean_idempotent (len : num) (points : list (point num))
    (tolerance : num) :
  clean len (clean len points tolerance) tolerance = clean len points tolerance.
Proof.
  set (out := clean len points tolerance).
  unfold clean at 1.
  rewrite (closePairs_nil (js_sq (js_sub len tolerance)) out).
  - unfold removals; simpl.
    assert (G : forall m : list (nat * point num),
               filter (fun '(idx, _) => negb (includes [] idx)) m = m).
    { induction m as [|[i p] m IH]; simpl; [reflexivity | now f_equal]. }
    rewrite G. apply map_snd_indexed.
  - intros i j p q Ei Ej N.
    exact (clean_spaced len points tolerance i j p q N Ei Ej).
Qed.

(** Where a point is closer to itself than the threshold (its [qdist] to
    itself is [0], the threshold positive), [clean] keeps no two entries with
    the same coordinates; two entries that are one and the same object have
    the same coordinates, so the array then holds each object once. *)
Lemma clean_NoDup (len : num) (points : list (point num)) (tolerance : num) :
  (forall p, In p points ->
     js_lt (qdist p p) (js_sq (js_sub len tolerance)) = true) ->
  NoDup (clean len points tolerance).
Proof.
  intros Self. apply NoDup_nth_error. intros a b La E.
  destruct (Nat.eq_dec a b) as [|N]; [assumption | exfalso].
  apply nth_error_Some in La.
  destruct (nth_error (clean len points tolerance) a) as [p|] eqn:Ea;
    [|congruence].
  symmetry in E.
  pose proof (clean_spaced len points tolerance a b p p N Ea E) as Far.
  destruct (clean_nth_error _ _ _ _ _ Ea) as [i [_ [Pi _]]].
  rewrite (Self p (nth_error_In _ _ Pi)) in Far. discriminate.
Qed.

End CleanProperties.

Lemma clean_no_close_pair_witness :
  0%nat <> 1%nat /\
  nth_error
    (clean 2%float
       [{| x := 0; y := 0 |}; {| x := 1; y := 0 |}; {| x := 5; y := 0 |}]%float
       0%float) 0
  = Some {| x := 0%float; y := 0%float |} /\
  nth_error
    (clean 2%float
       [{| x := 0; y := 0 |}; {| x := 1; y := 0 |}; {| x := 5; y := 0 |}]%float
       0%float) 1
  = Some {| x := 5%float; y := 0%float |} /\
  js_lt
    (qdist {| x := 0%float; y := 0%float |} {| x := 5%float; y := 0%float |})
    (js_sq (js_sub 2%float 0%float))
  = false.
Proof.
  assert (N : 0%nat <> 1%nat) by discriminate.
  assert (Ea :
    nth_error
      (clean 2%float
         [{| x := 0; y := 0 |}; {| x := 1; y := 0 |}; {| x := 5; y := 0 |}]%float
         0%float) 0
    = Some {| x := 0%float; y := 0%float |}) by (vm_compute; reflexivity).
  assert (Eb :
    nth_error
      (clean 2%float
         [{| x := 0; y := 0 |}; {| x := 1; y := 0 |}; {| x := 5; y := 0 |}]%float
         0%float) 1
    = Some {| x := 5%float; y := 0%float |}) by (vm_compute; reflexivity).
  split; [exact N|]. split; [exact Ea|]. split; [exact Eb|].
  exact (proj1 (clean_no_close_pair 2%float _ 0%float) 0%nat 1%nat _ _ N Ea Eb).
Defined.

(** ** getPoints: where the emitted sequence ends *)

Lemma Rleb_true (a b : R) : a <= b -> Rleb a b = true.
Proof. intros L. unfold Rleb. destruct (Rle_dec a b); [reflexivity | contradiction]. Qed.

Lemma Rleb_false (a b : R) : b < a -> Rleb a b = false.
Proof. intros L. unfold Rleb. destruct (Rle_dec a b); [lra | reflexivity]. Qed.

Lemma Rltb_true (a b : R) : a < b -> Rltb a b = true.
Proof. intros L. unfold Rltb. destruct (Rlt_dec a b); [reflexivity | contradiction]. Qed.

Lemma Rltb_false (a b : R) : b <= a -> Rltb a b = false.
Proof. intros L. unfold Rltb. destruct (Rlt_dec a b); [lra | reflexivity]. Qed.

Lemma Reqb_true (a b : R) : a = b -> Reqb a b = true.
Proof. intros E. unfold Reqb. destruct (Req_dec_T a b); [reflexivity | contradiction]. Qed.

Lemma Reqb_false (a b : R) : a <> b -> Reqb a b = false.
Proof. intros E. unfold Reqb. destruct (Req_dec_T a b); [contradiction | reflexivity]. Qed.

Section ExactEmitter.
Context {A : Type} (pointFn : xreal -> A) (n : nat).
Hypothesis n_positive : (1 <= n)%nat.

Lemma INR_n_pos : 0 < INR n.
Proof. apply lt_0_INR. lia. Qed.

(** With [m] steps left before [i] reaches [1], the loop emits [m + 1] more
    points and stops, provided its condition may be tested [m + 2] times. *)
Lemma getPoints_loop_exact (m : nat) :
  forall (k fuel : nat) (pts : list A),
    (k + m = n)%nat -> (m + 2 <= fuel)%nat ->
    getPoints_loop fuel pointFn (Fin (1 / INR n)) (Fin (INR k / INR n)) pts
    = Some (pts ++ map (fun j => pointFn (Fin (INR j / INR n))) (seq k (S m))).
Proof.
  pose proof (INR_n_pos) as P.
  induction m as [|m IH]; intros k fuel pts E F.
  - destruct fuel as [|[|fuel]]; try lia.
    assert (k = n) by lia; subst k. cbn.
    assert (One : INR n / INR n = 1) by (field; lra).
    assert (0 < 1 / INR n) by (apply Rdiv_lt_0_compat; lra).
    rewrite Rleb_true by lra.
    rewrite Rleb_false by lra. reflexivity.
  - destruct fuel as [|fuel]; try lia. cbn [getPoints_loop].
    assert (Lk : INR k < INR n) by (apply lt_INR; lia).
    assert (Q : INR k / INR n <= 1).
    { apply Rmult_le_reg_r with (INR n); [exact P|].
      unfold Rdiv. rewrite Rmult_assoc, Rinv_l by lra. lra. }
    cbn [js_le js_one js_add xreal_Number xle xadd].
    rewrite Rleb_true by exact Q.
    replace (INR k / INR n + 1 / INR n) with (INR (S k) / INR n)
      by (rewrite S_INR; field; lra).
    rewrite IH by lia.
    rewrite <- app_assoc. reflexivity.
Qed.

End ExactEmitter.

(** In exact arithmetic too, zero steps make the step [1 / 0 = +Infinity]:
    the loop emits the point at [u = 0] and leaves. *)
Lemma getPoints_exact_zero_steps (A : Type) (pointFn : xreal -> A) (fuel : nat) :
  getPoints (S (S fuel)) pointFn (Fin 0) = Some [pointFn (Fin 0)].
Proof.
  unfold getPoints. cbn.
  rewrite Reqb_true, Reqb_false, Rltb_true by lra.
  rewrite Rleb_true by lra. reflexivity.
Qed.

(** C1, as the code has it.  In exact arithmetic and for a whole number of
    steps [n], [getPoints] ends (its condition is tested at most [n + 2]
    times) and the sequence it emits starts with [pointFn(0)], so it is not
    empty.  For [n >= 1] it consists of the [n + 1] points [pointFn(k / n)],
    [k = 0 .. n], and so ends with [pointFn(1)]. *)
Theorem getPoints_exact_reaches_endpoint (A : Type) (pointFn : xreal -> A)
    (n fuel : nat) :
  (n + 2 <= fuel)%nat ->
  exists pts : list A,
    getPoints fuel pointFn (Fin (INR n)) = Some pts /\
    nth_error pts 0 = Some (pointFn (Fin 0)) /\
    ((1 <= n)%nat ->
     length pts = S n /\
     (forall k, (k <= n)%nat ->
        nth_error pts k = Some (pointFn (Fin (INR k / INR n)))) /\
     nth_error pts n = Some (pointFn (Fin 1))).
Proof.
  intros F. destruct (Nat.eq_dec n 0) as [->|NZ].
  - destruct fuel as [|[|fuel]]; try lia.
    exists [pointFn (Fin 0)]. simpl INR.
    rewrite getPoints_exact_zero_steps.
    split; [reflexivity|]. split; [reflexivity | lia].
  - assert (P : (1 <= n)%nat) by lia.
    pose proof (INR_n_pos n P) as Q.
    set (u := fun k : nat => pointFn (Fin (INR k / INR n))).
    assert (K : forall k, (k <= n)%nat ->
                nth_error (map u (seq 0 (S n))) k = Some (u k)).
    { intros k L. rewrite nth_error_map, nth_error_seq.
      destruct (Nat.ltb_spec k (S n)); [reflexivity | lia]. }
    assert (Z : u 0%nat = pointFn (Fin 0)).
    { unfold u. replace (INR 0 / INR n) with 0 by (simpl; field; lra).
      reflexivity. }
    exists (map u (seq 0 (S n))). split; [|split].
    + unfold getPoints. cbn [js_div js_one js_zero xreal_Number xdiv].
      rewrite Reqb_false by lra.
      replace 0 with (INR 0 / INR n) at 1 by (simpl; field; lra).
      rewrite (getPoints_loop_exact pointFn n P n 0%nat fuel []) by lia.
      reflexivity.
    + rewrite K by lia. now rewrite Z.
    + intros _. split; [now rewrite length_map, length_seq|].
      split; [exact K|].
      rewrite K by lia. unfold u.
      replace (INR n / INR n) with 1 by (field; lra). reflexivity.
Qed.

Lemma getPoints_exact_reaches_endpoint_witness :
  exists pts : list R,
    getPoints 4 (fun u => match u with Fin r => r | _ => 0 end) (Fin (INR 2))
    = Some pts /\
    nth_error pts 0 = Some (match Fin 0 with Fin r => r | _ => 0 end) /\
    ((1 <= 2)%nat ->
     length pts = 3%nat /\
     (forall k, (k <= 2)%nat ->
        nth_error pts k
        = Some (match Fin (INR k / INR 2) with Fin r => r | _ => 0 end)) /\
     nth_error pts 2 = Some (match Fin 1 with Fin r => r | _ => 0 end)).
Proof.
  apply (getPoints_exact_reaches_endpoint R
           (fun u => match u with Fin r => r | _ => 0 end) 2 4); lia.
Defined.

Lemma float_zero_is_not_one : 0%float <> 1%float.
Proof.
  intros E. apply (f_equal (fun f => PrimFloat.eqb f 0)) in E.
  vm_compute in E. discriminate.
Qed.

(** C1, as the claim has it, fails on binary64 numbers.  With [steps = 0] the
    only point emitted is the one at [u = 0], and [0] is not [1].  With
    [steps = 10] eleven points are emitted, the last one at the sum of ten
    roundings of [0.1], which is below [1].  With [steps = 49] the sum
    overshoots [1]: 49 points are emitted, all of them at some [u < 1]. *)
Lemma getPoints_float_misses_endpoint :
  (getPoints 2 (fun u : float => u) 0%float = Some [0%float]
   /\ 0%float <> 1%float) /\
  (exists pts,
     getPoints 12 (fun u : float => u) 10%float = Some pts
     /\ length pts = 11%nat
     /\ forallb (fun u => PrimFloat.ltb u 1) pts = true) /\
  (exists pts,
     getPoints 51 (fun u : float => u) 49%float = Some pts
     /\ length pts = 49%nat
     /\ forallb (fun u => PrimFloat.ltb u 1) pts = true).
Proof.
  split; [split; [vm_compute; reflexivity | exact float_zero_is_not_one]|].
  split.
  - eexists. split; [vm_compute; reflexivity|].
    split; vm_compute; reflexivity.
  - eexists. split; [vm_compute; reflexivity|].
    split; vm_compute; reflexivity.
Qed.

(** ** In-place updates: what forEach changes and what it leaves alone *)

Lemma upd_same (h : heap) (r : ref) (p : point R) : upd h r p r = p.
Proof. unfold upd. now rewrite Nat.eqb_refl. Qed.

Lemma upd_other (h : heap) (r r' : ref) (p : point R) :
  r' <> r -> upd h r p r' = h r'.
Proof. intros N. unfold upd. apply Nat.eqb_neq in N. now rewrite N. Qed.

(** An object is updated once for each of its occurrences in the array. *)
Lemma forEach_occurrences (f : point R -> point R) (refs : list ref) :
  forall (h : heap) (r : ref),
    forEach f refs h r = Nat.iter (count_occ Nat.eq_dec refs r) f (h r).
Proof.
  induction refs as [|a refs IH]; intros h r; [reflexivity|].
  unfold forEach in *. simpl fold_left. rewrite IH. simpl count_occ.
  destruct (Nat.eq_dec a r) as [->|N].
  - rewrite upd_same. now rewrite Nat.iter_succ_r.
  - rewrite upd_other by congruence. reflexivity.
Qed.

Lemma forEach_outside (f : point R -> point R) (refs : list ref) (h : heap)
    (r : ref) :
  ~ In r refs -> forEach f refs h r = h r.
Proof.
  intros N. rewrite forEach_occurrences.
  apply (count_occ_not_In Nat.eq_dec) in N. now rewrite N.
Qed.

Lemma forEach_once (f : point R -> point R) (refs : list ref) (h : heap)
    (r : ref) :
  NoDup refs -> In r refs -> forEach f refs h r = f (h r).
Proof.
  intros D I. rewrite forEach_occurrences.
  pose proof (proj1 (NoDup_count_occ Nat.eq_dec refs) D r) as L.
  apply (count_occ_In Nat.eq_dec) in I.
  replace (count_occ Nat.eq_dec refs r) with 1%nat by lia. reflexivity.
Qed.

(** C10. [scale(amt)] returns the generator it was called on, with the fields
    [res], [len], [points] (the same objects in the same order) and [center]
    as they were.  In the heap it touches the objects of [this.points] only:
    every other object, and so [this.center] when it is not one of the
    points, keeps its coordinates; and when the array holds each object once,
    each point has both coordinates multiplied by [amt].  [translate] for its
    part does add its arguments to [this.center]. *)
Theorem scale_frame (amt : R) (g : PointGenerator) (h : heap) :
  fst (scale amt g h) = g /\
  (forall r, ~ In r (points g) -> snd (scale amt g h) r = h r) /\
  (~ In (center g) (points g) ->
   snd (scale amt g h) (center g) = h (center g)) /\
  (NoDup (points g) ->
   forall r, In r (points g) ->
     snd (scale amt g h) r = {| x := x (h r) * amt; y := y (h r) * amt |}) /\
  (forall dx dy, ~ In (center g) (points g) ->
     fst (translate dx dy g h) = g /\
     snd (translate dx dy g h) (center g)
     = {| x := x (h (center g)) + dx; y := y (h (center g)) + dy |}).
Proof.
  split; [reflexivity|]. split; [|split; [|split]].
  - intros r N. simpl. now apply forEach_outside.
  - intros N. simpl. now apply forEach_outside.
  - intros D r I. simpl. now rewrite forEach_once.
  - intros dx dy N. split; [reflexivity|]. simpl.
    rewrite forEach_outside by exact N. apply upd_same.
Qed.

Lemma NoDup_twoPoints : NoDup (points twoPoints).
Proof.
  simpl. constructor; [|constructor; [|constructor]]; simpl; intuition lia.
Qed.

Lemma scale_frame_witness :
  fst (scale 3 twoPoints twoPointsHeap) = twoPoints /\
  snd (scale 3 twoPoints twoPointsHeap) (center twoPoints)
  = twoPointsHeap (center twoPoints) /\
  snd (scale 3 twoPoints twoPointsHeap) 1%nat
  = {| x := x (twoPointsHeap 1%nat) * 3; y := y (twoPointsHeap 1%nat) * 3 |}.
Proof.
  destruct (scale_frame 3 twoPoints twoPointsHeap) as [F [_ [C [S _]]]].
  split; [exact F|]. split.
  - apply C. simpl. intuition lia.
  - apply S; [exact NoDup_twoPoints | simpl; auto].
Defined.

(** ** bbox and recenter *)

(** C9. On a generator whose array of points is empty, [bbox] throws a
    [TypeError] (it reads [x] of [this.points[0]], which is [undefined]), and
    so does [recenter], which calls [bbox] before it touches anything: neither
    returns a bounding box or a generator. *)
Theorem bbox_empty_throws (g : PointGenerator) (h : heap) :
  points g = [] ->
  bbox g h = Throw TypeError /\ recenter g h = Throw TypeError.
Proof.
  intros E. unfold recenter, bbox. rewrite E. split; reflexivity.
Qed.

Lemma bbox_empty_throws_witness :
  points (fst (newPointGenerator 1000 10 0%nat (fun _ => {| x := 0; y := 0 |})))
  = [] /\
  (bbox (fst (newPointGenerator 1000 10 0%nat (fun _ => {| x := 0; y := 0 |})))
     (snd (newPointGenerator 1000 10 0%nat (fun _ => {| x := 0; y := 0 |})))
   = Throw TypeError /\
   recenter (fst (newPointGenerator 1000 10 0%nat (fun _ => {| x := 0; y := 0 |})))
     (snd (newPointGenerator 1000 10 0%nat (fun _ => {| x := 0; y := 0 |})))
   = Throw TypeError).
Proof.
  split; [reflexivity|]. apply bbox_empty_throws. reflexivity.
Defined.

Lemma bbox_cons (g : PointGenerator) (h : heap) (first : ref) (rest : list ref) :
  points g = first :: rest ->
  bbox g h
  = Return (boxOf (fold_left (bboxStep h) (first :: rest) (extentOf (h first)))).
Proof. intros E. unfold bbox. rewrite E. reflexivity. Qed.

Lemma recenter_cons (g : PointGenerator) (h : heap) (first : ref)
    (rest : list ref) :
  points g = first :: rest ->
  recenter g h
  = let b := boxOf (fold_left (bboxStep h) (first :: rest) (extentOf (h first))) in
    Return
      (g,
       forEach
         (shiftPoint (bbox_x b + width b / 2) (bbox_y b + height b / 2))
         (points g) h).
Proof. intros E. unfold recenter. rewrite (bbox_cons g h first rest E). reflexivity. Qed.

Lemma Rltb_shift (a b d : R) : Rltb (a - d) (b - d) = Rltb a b.
Proof.
  unfold Rltb. destruct (Rlt_dec (a - d) (b - d)), (Rlt_dec a b);
    try reflexivity; exfalso; lra.
Qed.

Lemma bboxStep_shift (h h' : heap) (dx dy : R) (e : extent) (r : ref) :
  h' r = shiftPoint dx dy (h r) ->
  bboxStep h' (shiftExtent dx dy e) r = shiftExtent dx dy (bboxStep h e r).
Proof.
  intros E. unfold bboxStep, shiftExtent. rewrite E. simpl.
  rewrite !Rltb_shift.
  destruct (Rltb (x (h r)) (xmin e)), (Rltb (xmax e) (x (h r))),
    (Rltb (y (h r)) (ymin e)), (Rltb (ymax e) (y (h r))); reflexivity.
Qed.

(** Shifting every point of the cloud shifts its extent. *)
Lemma fold_bboxStep_shift (h h' : heap) (dx dy : R) (refs : list ref) :
  (forall r, In r refs -> h' r = shiftPoint dx dy (h r)) ->
  forall e,
    fold_left (bboxStep h') refs (shiftExtent dx dy e)
    = shiftExtent dx dy (fold_left (bboxStep h) refs e).
Proof.
  induction refs as [|a refs IH]; intros S e; [reflexivity|]. simpl.
  rewrite (bboxStep_shift h h' dx dy e a) by (apply S; now left).
  apply IH. intros r I. apply S. now right.
Qed.

Lemma iter_shiftPoint_zero (k : nat) (p : point R) :
  Nat.iter k (shiftPoint 0 0) p = p.
Proof.
  induction k as [|k IH]; [reflexivity|]. simpl. rewrite IH.
  destruct p as [px py]. unfold shiftPoint. simpl. f_equal; lra.
Qed.

(** C8. On a generator that holds at least one point, each point object once,
    [recenter] succeeds and leaves a cloud whose bounding box has its center
    at the origin; a second [recenter] then succeeds as well, shifts by
    [(0, 0)] and leaves every object as the first call left it. *)
Theorem recenter_idempotent (g : PointGenerator) (h : heap) :
  points g <> [] -> NoDup (points g) ->
  exists h1 : heap,
    recenter g h = Return (g, h1) /\
    (exists b, bbox g h1 = Return b /\
       bbox_x b + width b / 2 = 0 /\ bbox_y b + height b / 2 = 0) /\
    (exists h2 : heap, recenter g h1 = Return (g, h2) /\ forall r, h2 r = h1 r).
Proof.
  intros NE D. destruct (points g) as [|first rest] eqn:E; [congruence|].
  rewrite (recenter_cons g h first rest E). cbv zeta.
  set (e := fold_left (bboxStep h) (first :: rest) (extentOf (h first))).
  set (dx := bbox_x (boxOf e) + width (boxOf e) / 2).
  set (dy := bbox_y (boxOf e) + height (boxOf e) / 2).
  set (h1 := forEach (shiftPoint dx dy) (points g) h).
  assert (S : forall r, In r (first :: rest) -> h1 r = shiftPoint dx dy (h r)).
  { intros r I. unfold h1. rewrite E. apply forEach_once; [exact D | exact I]. }
  assert (E1 : fold_left (bboxStep h1) (first :: rest) (extentOf (h1 first))
               = shiftExtent dx dy e).
  { rewrite (S first) by (now left).
    change (extentOf (shiftPoint dx dy (h first)))
      with (shiftExtent dx dy (extentOf (h first))).
    now apply fold_bboxStep_shift. }
  assert (Zx : xmin e - dx + (xmax e - dx - (xmin e - dx)) / 2 = 0).
  { unfold dx. simpl. field. }
  assert (Zy : ymin e - dy + (ymax e - dy - (ymin e - dy)) / 2 = 0).
  { unfold dy. simpl. field. }
  exists h1. split; [reflexivity|]. split.
  - eexists. rewrite (bbox_cons g h1 first rest E), E1. split; [reflexivity|].
    simpl. split; [exact Zx | exact Zy].
  - eexists. rewrite (recenter_cons g h1 first rest E), E1. cbv zeta.
    split; [reflexivity|]. intros r. simpl bbox_x. simpl bbox_y.
    simpl width. simpl height. rewrite Zx, Zy.
    rewrite forEach_occurrences. apply iter_shiftPoint_zero.
Qed.

Lemma recenter_idempotent_witness :
  points twoPoints <> [] /\ NoDup (points twoPoints) /\
  exists h1 : heap,
    recenter twoPoints twoPointsHeap = Return (twoPoints, h1) /\
    (exists b, bbox twoPoints h1 = Return b /\
       bbox_x b + width b / 2 = 0 /\ bbox_y b + height b / 2 = 0) /\
    (exists h2 : heap,
       recenter twoPoints h1 = Return (twoPoints, h2) /\ forall r, h2 r = h1 r).
Proof.
  assert (NE : points twoPoints <> []) by discriminate.
  split; [exact NE|]. split; [exact NoDup_twoPoints|].
  exact (recenter_idempotent twoPoints twoPointsHeap NE NoDup_twoPoints).
Defined.

(** Why each object once: an object that sits twice in the array is shifted
    twice, and the cloud [(1, 1), (1, 1)] ends at [(-1, -1)], not at the
    origin. *)
Lemma recenter_shared_object :
  exists h1 : heap,
    recenter
      {| res := 1000; len := 10; points := [0; 0]%nat; center := 1%nat |}
      (fun _ => {| x := 1; y := 1 |})
    = Return
        ({| res := 1000; len := 10; points := [0; 0]%nat; center := 1%nat |}, h1)
    /\ h1 0%nat = {| x := -1; y := -1 |}.
Proof.
  eexists. split.
  - apply (recenter_cons _ _ 0%nat [0%nat]). reflexivity.
  - cbv zeta. rewrite forEach_occurrences. simpl.
    unfold bboxStep, extentOf. simpl.
    rewrite !(Rltb_false 1 1) by lra. simpl.
    unfold shiftPoint. simpl. f_equal; field.
Qed.

(** ** pointOnArc: the degenerate branches *)

Lemma pointOnLine_same (p : point R) (t : R) : pointOnLine p p t = p.
Proof.
  destruct p as [px py]. unfold pointOnLine, calculateLineParameter. simpl.
  f_equal; ring.
Qed.

(** C5. Whatever [t]: when the start and end points have the same
    coordinates, [pointOnArc] returns the start point; and when a radius is
    zero, it returns what [pointOnLine] returns between start and end at [t]
    (which, if start and end coincide as well, is the start point). *)
Theorem pointOnArc_degenerate (p0 : point R) (rx ry xAxisRotation : R)
    (largeArcFlag sweepFlag : bool) (p1 : point R) (t : R) :
  (x p0 = x p1 -> y p0 = y p1 ->
   pointOnArc p0 rx ry xAxisRotation largeArcFlag sweepFlag p1 t = p0) /\
  (rx = 0 \/ ry = 0 ->
   pointOnArc p0 rx ry xAxisRotation largeArcFlag sweepFlag p1 t
   = pointOnLine p0 p1 t).
Proof.
  split.
  - intros Ex Ey. unfold pointOnArc. now rewrite (Reqb_true _ _ Ex), (Reqb_true _ _ Ey).
  - intros Z. unfold pointOnArc.
    destruct (Reqb (x p0) (x p1) && Reqb (y p0) (y p1)) eqn:Same.
    + apply andb_prop in Same. destruct Same as [Ex Ey].
      unfold Reqb in Ex, Ey.
      destruct (Req_dec_T (x p0) (x p1)) as [Ex'|]; [|discriminate].
      destruct (Req_dec_T (y p0) (y p1)) as [Ey'|]; [|discriminate].
      destruct p0 as [x0 y0], p1 as [x1 y1]. simpl in Ex', Ey'. subst.
      now rewrite pointOnLine_same.
    + destruct Z as [-> | ->]; rewrite Rabs_R0, (Reqb_true 0 0 eq_refl);
        [reflexivity | now rewrite orb_true_r].
Qed.

Lemma pointOnArc_degenerate_witness :
  (1 = 1 -> 2 = 2 ->
   pointOnArc {| x := 1; y := 2 |} 5 3 30 true false {| x := 1; y := 2 |} (1 / 2)
   = {| x := 1; y := 2 |}) /\
  (0 = 0 \/ 3 = 0 ->
   pointOnArc {| x := 1; y := 2 |} 0 3 30 true false {| x := 4; y := 6 |} (1 / 2)
   = pointOnLine {| x := 1; y := 2 |} {| x := 4; y := 6 |} (1 / 2)).
Proof.
  split.
  - exact (proj1 (pointOnArc_degenerate {| x := 1; y := 2 |} 5 3 30 true false
                    {| x := 1; y := 2 |} (1 / 2))).
  - exact (proj2 (pointOnArc_degenerate {| x := 1; y := 2 |} 0 3 30 true false
                    {| x := 4; y := 6 |} (1 / 2))).
Defined.

(** ** approximateArcLengthOfCurve: the arc-length map is sorted *)

Lemma distance_nonneg (p0 p1 : point R) : 0 <= distance p0 p1.
Proof. apply sqrt_pos. Qed.

Lemma StronglySorted_snoc {A : Type} (rel : A -> A -> Prop) (l : list A) (a : A) :
  StronglySorted rel l -> Forall (fun b => rel b a) l ->
  StronglySorted rel (l ++ [a]).
Proof.
  induction 1 as [|b l S IH F]; intros B; simpl.
  - repeat constructor.
  - inversion B as [|? ? Rb B']; subst. constructor; [now apply IH|].
    apply Forall_app. split; [exact F | now constructor].
Qed.

Section ArcLengthMap.
Context (resolution : nat) (pointOnCurveFunc : R -> point R).
Hypothesis resolution_positive : (1 <= resolution)%nat.

Lemma step_fraction (i : nat) :
  (i < resolution)%nat ->
  clamp (INR i * (1 / INR resolution)) 0 1 = INR i / INR resolution /\
  INR i * (1 / INR resolution) < INR (S i) * (1 / INR resolution) /\
  INR i / INR resolution = INR i * (1 / INR resolution).
Proof.
  intros L.
  assert (P : 0 < INR resolution) by (apply lt_0_INR; lia).
  assert (Li : INR i < INR resolution) by (now apply lt_INR).
  assert (Pi : 0 <= INR i) by apply pos_INR.
  assert (Q : 0 < 1 / INR resolution) by (apply Rdiv_lt_0_compat; lra).
  assert (E : INR i / INR resolution = INR i * (1 / INR resolution))
    by (field; lra).
  assert (U : INR i * (1 / INR resolution) < 1).
  { apply Rmult_lt_reg_r with (INR resolution); [exact P|].
    replace (INR i * (1 / INR resolution) * INR resolution) with (INR i)
      by (field; lra).
    lra. }
  assert (Z : 0 <= INR i * (1 / INR resolution))
    by (apply Rmult_le_pos; lra).
  split; [|split; [|exact E]].
  - unfold clamp. rewrite Rmax_left by exact Z. rewrite Rmin_left by lra.
    now rewrite E.
  - rewrite S_INR. lra.
Qed.

Lemma approxStep_invariant (i : nat) (st : approxState) :
  (i < resolution)%nat ->
  approxInvariant resolution i st ->
  approxInvariant resolution (S i)
    (approxStep resolution pointOnCurveFunc i st).
Proof.
  intros L [Sorted [Below Ts]].
  destruct (step_fraction i L) as [C [Next Frac]].
  pose proof (distance_nonneg (prevPoint st)
                (pointOnCurveFunc (clamp (INR i * (1 / INR resolution)) 0 1)))
    as D.
  unfold approxInvariant, approxStep. cbv zeta. rewrite S_INR in *.
  cbn [st_arcLengthMap resultantArcLength prevPoint].
  rewrite C in *. rewrite Frac in *.
  split; [|split].
  - apply StronglySorted_snoc; [exact Sorted|].
    apply Forall_impl with (2 := Below). intros e [Lt Le].
    unfold entryBefore. simpl. lra.
  - apply Forall_app. split.
    + apply Forall_impl with (2 := Below). intros e [Lt Le]. lra.
    + constructor; [|constructor]. simpl. lra.
  - rewrite map_app, Ts, seq_S, map_app. simpl. now rewrite Frac.
Qed.

Lemma approxLoop_invariant (count : nat) :
  forall (i : nat) (st : approxState),
    (i + count = resolution)%nat ->
    approxInvariant resolution i st ->
    approxInvariant resolution resolution
      (approxLoop resolution pointOnCurveFunc count i st).
Proof.
  induction count as [|count IH]; intros i st E I; simpl.
  - rewrite Nat.add_0_r in E. subst i. exact I.
  - apply IH; [lia|]. apply approxStep_invariant; [lia | exact I].
Qed.

End ArcLengthMap.

(** C7. For a resolution [N >= 1] and any curve, the arc-length map of
    [approximateArcLengthOfCurve] is sorted: of two entries, the earlier one
    has the strictly smaller [t] and an arc length that is not larger.  Its
    [t]s are [0, 1/N, ..., (N-1)/N], then [1]. *)
Theorem arcLengthMap_sorted (resolution : nat)
    (pointOnCurveFunc : R -> point R) :
  (1 <= resolution)%nat ->
  StronglySorted entryBefore
    (arcLengthMap (approximateArcLengthOfCurve resolution pointOnCurveFunc)) /\
  map entry_t
    (arcLengthMap (approximateArcLengthOfCurve resolution pointOnCurveFunc))
  = map (fun k => INR k / INR resolution) (seq 0 resolution) ++ [1].
Proof.
  intros P. unfold approximateArcLengthOfCurve.
  replace (Nat.eqb resolution 0) with false
    by (symmetry; apply Nat.eqb_neq; lia).
  cbv zeta.
  set (st0 := {| prevPoint := pointOnCurveFunc 0;
                 resultantArcLength := 0;
                 st_arcLengthMap := [];
                 st_approximationLines := [] |}).
  assert (I0 : approxInvariant resolution 0 st0).
  { unfold approxInvariant. simpl. repeat constructor. }
  destruct (approxLoop_invariant resolution pointOnCurveFunc P resolution 0%nat st0
              (Nat.add_0_l _) I0) as [Sorted [Below Ts]].
  set (st := approxLoop resolution pointOnCurveFunc resolution 0 st0) in *.
  pose proof (distance_nonneg (prevPoint st) (pointOnCurveFunc 1)) as D.
  assert (One : INR resolution * (1 / INR resolution) = 1).
  { field. apply not_0_INR. lia. }
  simpl. split.
  - apply StronglySorted_snoc; [exact Sorted|].
    apply Forall_impl with (2 := Below). intros e [Lt Le].
    unfold entryBefore. simpl. lra.
  - now rewrite map_app, Ts.
Qed.

Lemma arcLengthMap_sorted_witness :
  (1 <= 4)%nat /\
  (StronglySorted entryBefore
     (arcLengthMap
        (approximateArcLengthOfCurve 4
           (pointOnLine {| x := 0; y := 0 |} {| x := 3; y := 4 |}))) /\
   map entry_t
     (arcLengthMap
        (approximateArcLengthOfCurve 4
           (pointOnLine {| x := 0; y := 0 |} {| x := 3; y := 4 |})))
   = map (fun k => INR k / INR 4) (seq 0 4) ++ [1]).
Proof.
  split; [lia|]. apply arcLengthMap_sorted. lia.
Defined.

(** ** pointOnArc: the sweep angle *)

Lemma Rtrunc_small (r : R) : -1 < r < 1 -> Rtrunc r = 0%Z.
Proof.
  intros [L U]. unfold Rtrunc. destruct (Rle_dec 0 r) as [P|N].
  - symmetry. apply Int_part_spec. simpl. lra.
  - replace (Int_part (- r)) with 0%Z; [reflexivity|].
    apply Int_part_spec. simpl. lra.
Qed.

(** [a % m] is [a] when [a] lies strictly between [- m] and [m]. *)
Lemma js_rem_small (a m : R) : 0 < m -> - m < a < m -> js_rem a m = a.
Proof.
  intros P [L U]. unfold js_rem. rewrite Rtrunc_small; [simpl; ring|].
  split.
  - apply Rmult_lt_reg_r with m; [exact P|].
    unfold Rdiv. rewrite Rmult_assoc, Rinv_l by lra. lra.
  - apply Rmult_lt_reg_r with m; [exact P|].
    unfold Rdiv. rewrite Rmult_assoc, Rinv_l by lra. lra.
Qed.

Lemma angleBetween_bound (v0 v1 : point R) :
  - PI <= angleBetween v0 v1 <= PI.
Proof.
  unfold angleBetween. cbv zeta.
  match goal with |- context [acos ?a] => pose proof (acos_bound a) as B end.
  destruct (Rltb _ 0); lra.
Qed.

(** The correction of the sign by the sweep flag, then the remainder: the
    result is the angle between the vectors up to a full turn. *)
Lemma sweepAngleBetween_spec (sweepFlag : bool) (v0 v1 : point R) :
  (sweepFlag = false -> sweepAngleBetween sweepFlag v0 v1 <= 0) /\
  (sweepFlag = true -> 0 <= sweepAngleBetween sweepFlag v0 v1) /\
  - (2 * PI) < sweepAngleBetween sweepFlag v0 v1 < 2 * PI /\
  (sweepAngleBetween sweepFlag v0 v1 = angleBetween v0 v1 \/
   sweepAngleBetween sweepFlag v0 v1 = angleBetween v0 v1 - 2 * PI \/
   sweepAngleBetween sweepFlag v0 v1 = angleBetween v0 v1 + 2 * PI).
Proof.
  pose proof (angleBetween_bound v0 v1) as B. pose proof PI_RGT_0 as P.
  unfold sweepAngleBetween. cbv zeta.
  set (s0 := angleBetween v0 v1) in *.
  unfold Rltb. destruct sweepFlag; simpl.
  - destruct (Rlt_dec s0 0); rewrite js_rem_small by lra;
      (split; [discriminate|]); (split; [intros _; lra|]);
      (split; [lra | tauto]).
  - destruct (Rlt_dec 0 s0); rewrite js_rem_small by lra;
      (split; [intros _; lra|]); (split; [discriminate|]);
      (split; [lra | tauto]).
Qed.

(** ** pointOnArc: start and end of a non-degenerate arc *)

(** For unit vectors, [angleBetween] is the signed angle from the first to
    the second: its cosine is their dot product, its sine their cross
    product. *)
Lemma angleBetween_unit (v0 v1 : point R) :
  pow2 (x v0) + pow2 (y v0) = 1 -> pow2 (x v1) + pow2 (y v1) = 1 ->
  cos (angleBetween v0 v1) = x v0 * x v1 + y v0 * y v1 /\
  sin (angleBetween v0 v1) = x v0 * y v1 - y v0 * x v1.
Proof.
  destruct v0 as [a b], v1 as [c d]. unfold angleBetween. cbn [x y].
  intros U V. rewrite U, V, Rmult_1_r, sqrt_1. unfold pow2 in U, V.
  set (p := a * c + b * d). set (q := a * d - b * c).
  replace (p / 1) with p by field.
  assert (L : p ^ 2 + q ^ 2 = 1).
  { replace (p ^ 2 + q ^ 2) with ((a ^ 2 + b ^ 2) * (c ^ 2 + d ^ 2))
      by (unfold p, q; ring).
    rewrite U, V. ring. }
  assert (B : -1 <= p <= 1) by nra.
  assert (S : sqrt (1 - p²) = Rabs q).
  { rewrite <- sqrt_Rsqr_abs. f_equal. unfold Rsqr. lra. }
  cbv zeta. unfold Rltb. destruct (Rlt_dec q 0) as [N|N].
  - replace (-1 * acos p) with (- acos p) by ring.
    rewrite cos_neg, sin_neg, cos_acos, sin_acos, S by exact B.
    rewrite Rabs_left by exact N. split; [reflexivity | ring].
  - rewrite Rmult_1_l, cos_acos, sin_acos, S by exact B.
    rewrite Rabs_right by lra. split; reflexivity.
Qed.

(** After the radii have been enlarged where needed, the ellipse reaches both
    endpoints: the numerator of [cRadicand] is not negative, and its
    denominator is positive. *)
Lemma enlargedRadius_reaches (rx ry : R) (tp : point R) :
  0 < rx -> 0 < ry -> pow2 (x tp) + pow2 (y tp) <> 0 ->
  let rx' := enlargedRadius (radiiCheck rx ry tp) rx in
  let ry' := enlargedRadius (radiiCheck rx ry tp) ry in
  0 < rx' /\ 0 < ry' /\
  0 < pow2 rx' * pow2 (y tp) + pow2 ry' * pow2 (x tp) /\
  0 <= pow2 rx' * pow2 ry' - pow2 rx' * pow2 (y tp) - pow2 ry' * pow2 (x tp).
Proof.
  destruct tp as [tx ty]. cbn [x y]. intros Px Py NZ. cbv zeta.
  unfold enlargedRadius, radiiCheck, pow2 in *. cbn [x y].
  set (check := tx ^ 2 / rx ^ 2 + ty ^ 2 / ry ^ 2).
  assert (Prx : 0 < rx ^ 2) by (apply pow_lt; lra).
  assert (Pry : 0 < ry ^ 2) by (apply pow_lt; lra).
  assert (Ptx : 0 <= tx ^ 2) by apply pow2_ge_0.
  assert (Pty : 0 <= ty ^ 2) by apply pow2_ge_0.
  assert (Pd : 0 < rx ^ 2 * ty ^ 2 + ry ^ 2 * tx ^ 2).
  { destruct (Rle_lt_dec (tx ^ 2) 0) as [T|T].
    - assert (0 < ty ^ 2) by lra.
      assert (0 < rx ^ 2 * ty ^ 2) by (now apply Rmult_lt_0_compat).
      assert (0 <= ry ^ 2 * tx ^ 2) by (apply Rmult_le_pos; lra). lra.
    - assert (0 < ry ^ 2 * tx ^ 2) by (now apply Rmult_lt_0_compat).
      assert (0 <= rx ^ 2 * ty ^ 2) by (apply Rmult_le_pos; lra). lra. }
  assert (Ec : check * (rx ^ 2 * ry ^ 2) = rx ^ 2 * ty ^ 2 + ry ^ 2 * tx ^ 2).
  { unfold check. field. lra. }
  assert (Pr : 0 < rx ^ 2 * ry ^ 2) by (now apply Rmult_lt_0_compat).
  unfold Rltb. destruct (Rlt_dec 1 check) as [Big|Small].
  - assert (Pk : 0 < sqrt check) by (apply sqrt_lt_R0; lra).
    assert (Ek : sqrt check ^ 2 = check) by (apply pow2_sqrt; lra).
    split; [nra|]. split; [nra|].
    replace ((sqrt check * rx) ^ 2) with (sqrt check ^ 2 * rx ^ 2) by ring.
    replace ((sqrt check * ry) ^ 2) with (sqrt check ^ 2 * ry ^ 2) by ring.
    rewrite Ek.
    split; [nra|].
    replace (check * rx ^ 2 * (check * ry ^ 2) - check * rx ^ 2 * ty ^ 2
             - check * ry ^ 2 * tx ^ 2)
      with (check * (check * (rx ^ 2 * ry ^ 2)
                     - (rx ^ 2 * ty ^ 2 + ry ^ 2 * tx ^ 2))) by ring.
    rewrite Ec. lra.
  - split; [exact Px|]. split; [exact Py|]. split; [exact Pd|]. nra.
Qed.

(** The square of [cCoef] is [cRadicand], which the clamp leaves alone. *)
Lemma cCoef_square (rx ry : R) (tp : point R) (largeArcFlag sweepFlag : bool) :
  0 < pow2 rx * pow2 (y tp) + pow2 ry * pow2 (x tp) ->
  0 <= pow2 rx * pow2 ry - pow2 rx * pow2 (y tp) - pow2 ry * pow2 (x tp) ->
  (pow2 (cCoef rx ry tp largeArcFlag sweepFlag) + 1)
  * (pow2 rx * pow2 (y tp) + pow2 ry * pow2 (x tp))
  = pow2 rx * pow2 ry.
Proof.
  intros Pd Pn. unfold cCoef. cbv zeta.
  set (den := pow2 rx * pow2 (y tp) + pow2 ry * pow2 (x tp)) in *.
  set (num := pow2 rx * pow2 ry - pow2 rx * pow2 (y tp) - pow2 ry * pow2 (x tp)) in *.
  assert (Pq : 0 <= num / den).
  { apply Rmult_le_pos; [exact Pn|]. left. now apply Rinv_0_lt_compat. }
  rewrite (Rltb_false (num / den) 0 Pq).
  assert (Es : pow2 (sqrt (num / den)) = num / den).
  { unfold pow2. now apply pow2_sqrt. }
  replace (pow2 ((if negb (Bool.eqb largeArcFlag sweepFlag) then 1 else -1)
                 * sqrt (num / den)))
    with (num / den).
  - replace (pow2 rx * pow2 ry) with (num + den) by (unfold num, den; ring).
    field. lra.
  - unfold pow2 in *.
    destruct (negb (Bool.eqb largeArcFlag sweepFlag));
      [replace ((1 * sqrt (num / den)) ^ 2) with (sqrt (num / den) ^ 2) by ring
      |replace ((-1 * sqrt (num / den)) ^ 2) with (sqrt (num / den) ^ 2) by ring];
      now rewrite Es.
Qed.

(** The start and end vectors are unit vectors. *)
Lemma start_end_vectors_unit (rx ry cc : R) (tp : point R) :
  0 < rx -> 0 < ry ->
  (pow2 cc + 1) * (pow2 rx * pow2 (y tp) + pow2 ry * pow2 (x tp))
  = pow2 rx * pow2 ry ->
  let tc := transformedCenter rx ry cc tp in
  pow2 (x (startVector rx ry tp tc)) + pow2 (y (startVector rx ry tp tc)) = 1 /\
  pow2 (x (endVector rx ry tp tc)) + pow2 (y (endVector rx ry tp tc)) = 1.
Proof.
  destruct tp as [tx ty]. cbn [x y]. intros Px Py E. cbv zeta.
  unfold startVector, endVector, transformedCenter, pow2 in *. cbn [x y].
  assert (Pr : rx ^ 2 * ry ^ 2 <> 0).
  { apply Rgt_not_eq, Rmult_lt_0_compat; apply pow_lt; lra. }
  split.
  - replace (((tx - cc * (rx * ty / ry)) / rx) ^ 2
             + ((ty - cc * (- (ry * tx) / rx)) / ry) ^ 2)
      with ((cc ^ 2 + 1) * (rx ^ 2 * ty ^ 2 + ry ^ 2 * tx ^ 2)
            / (rx ^ 2 * ry ^ 2)) by (field; lra).
    rewrite E. field. lra.
  - replace (((- tx - cc * (rx * ty / ry)) / rx) ^ 2
             + ((- ty - cc * (- (ry * tx) / rx)) / ry) ^ 2)
      with ((cc ^ 2 + 1) * (rx ^ 2 * ty ^ 2 + ry ^ 2 * tx ^ 2)
            / (rx ^ 2 * ry ^ 2)) by (field; lra).
    rewrite E. field. lra.
Qed.

Lemma transformedPoint_norm (phi : R) (p0 p1 : point R) :
  pow2 (x (transformedPoint phi p0 p1)) + pow2 (y (transformedPoint phi p0 p1))
  = pow2 ((x p0 - x p1) / 2) + pow2 ((y p0 - y p1) / 2).
Proof.
  unfold transformedPoint, pow2. cbv zeta. cbn [x y].
  pose proof (sin2_cos2 phi) as T. unfold Rsqr in T.
  set (c := cos phi) in *. set (s := sin phi) in *.
  set (dx := (x p0 - x p1) / 2). set (dy := (y p0 - y p1) / 2).
  replace ((c * dx + s * dy) ^ 2 + (- s * dx + c * dy) ^ 2)
    with ((s * s + c * c) * (dx ^ 2 + dy ^ 2)) by ring.
  rewrite T. ring.
Qed.

Lemma transformedPoint_nonzero (phi : R) (p0 p1 : point R) :
  ~ (x p0 = x p1 /\ y p0 = y p1) ->
  pow2 (x (transformedPoint phi p0 p1)) + pow2 (y (transformedPoint phi p0 p1))
  <> 0.
Proof.
  intros N E. rewrite transformedPoint_norm in E. unfold pow2 in E.
  apply N.
  assert (Hx : 0 <= ((x p0 - x p1) / 2) ^ 2) by apply pow2_ge_0.
  assert (Hy : 0 <= ((y p0 - y p1) / 2) ^ 2) by apply pow2_ge_0.
  assert (Zx : ((x p0 - x p1) / 2) ^ 2 = 0) by lra.
  assert (Zy : ((y p0 - y p1) / 2) ^ 2 = 0) by lra.
  rewrite <- Rsqr_pow2 in Zx, Zy.
  apply Rsqr_eq_0 in Zx. apply Rsqr_eq_0 in Zy. split; lra.
Qed.

(** A full turn more or less does not change the point of the ellipse. *)
Lemma turn_cos_sin (a b : R) :
  b = a \/ b = a - 2 * PI \/ b = a + 2 * PI ->
  cos b = cos a /\ sin b = sin a.
Proof.
  intros [-> | [-> | ->]].
  - split; reflexivity.
  - rewrite <- (cos_period (a - 2 * PI) 1), <- (sin_period (a - 2 * PI) 1).
    simpl INR. split; f_equal; ring.
  - rewrite <- (cos_period a 1), <- (sin_period a 1).
    simpl INR. split; f_equal; ring.
Qed.

(** The centre parameterization that steps #1 to #4 compute: seen from the
    centre and in the frame of the ellipse, the start angle points at the
    start point and the start angle plus the sweep angle at the end point. *)
Lemma arcGeometryOf_spec (p0 : point R) (rx ry phi : R)
    (largeArcFlag sweepFlag : bool) (p1 : point R) :
  0 < rx -> 0 < ry -> ~ (x p0 = x p1 /\ y p0 = y p1) ->
  exists tc : point R,
    ellipticalArcCenter (arcGeometryOf p0 rx ry phi largeArcFlag sweepFlag p1)
    = arcCenter phi tc p0 p1 /\
    (let g := arcGeometryOf p0 rx ry phi largeArcFlag sweepFlag p1 in
     let tp := transformedPoint phi p0 p1 in
     resultantRx g * cos (ellipticalArcStartAngle g) = x tp - x tc /\
     resultantRy g * sin (ellipticalArcStartAngle g) = y tp - y tc /\
     resultantRx g * cos (ellipticalArcStartAngle g + sweepAngle g)
     = - x tp - x tc /\
     resultantRy g * sin (ellipticalArcStartAngle g + sweepAngle g)
     = - y tp - y tc).
Proof.
  intros Px Py ND. unfold arcGeometryOf. cbv zeta.
  cbn [resultantRx resultantRy ellipticalArcCenter ellipticalArcStartAngle
       sweepAngle].
  set (tp := transformedPoint phi p0 p1).
  pose proof (transformedPoint_nonzero phi p0 p1 ND) as NZ. fold tp in NZ.
  destruct (enlargedRadius_reaches rx ry tp Px Py NZ) as [Prx [Pry [Pd Pn]]].
  set (rx' := enlargedRadius (radiiCheck rx ry tp) rx) in *.
  set (ry' := enlargedRadius (radiiCheck rx ry tp) ry) in *.
  pose proof (cCoef_square rx' ry' tp largeArcFlag sweepFlag Pd Pn) as Ecc.
  set (cc := cCoef rx' ry' tp largeArcFlag sweepFlag) in *.
  destruct (start_end_vectors_unit rx' ry' cc tp Prx Pry Ecc) as [Us Ue].
  set (tc := transformedCenter rx' ry' cc tp) in *.
  set (sv := startVector rx' ry' tp tc) in *.
  set (ev := endVector rx' ry' tp tc) in *.
  assert (U1 : pow2 (x {| x := 1; y := 0 |}) + pow2 (y {| x := 1; y := 0 |}) = 1)
    by (unfold pow2; simpl; ring).
  destruct (angleBetween_unit {| x := 1; y := 0 |} sv U1 Us) as [C0 S0].
  cbn [x y] in C0, S0.
  destruct (angleBetween_unit sv ev Us Ue) as [Cd Sd].
  destruct (sweepAngleBetween_spec sweepFlag sv ev) as [_ [_ [_ Turn]]].
  destruct (turn_cos_sin _ _ Turn) as [Ct St].
  set (start := angleBetween {| x := 1; y := 0 |} sv) in *.
  set (sweep := sweepAngleBetween sweepFlag sv ev) in *.
  assert (Xs : rx' * x sv = x tp - x tc) by (unfold sv, startVector; simpl; field; lra).
  assert (Ys : ry' * y sv = y tp - y tc) by (unfold sv, startVector; simpl; field; lra).
  assert (Xe : rx' * x ev = - x tp - x tc) by (unfold ev, endVector; simpl; field; lra).
  assert (Ye : ry' * y ev = - y tp - y tc) by (unfold ev, endVector; simpl; field; lra).
  exists tc. split; [reflexivity|].
  unfold pow2 in Us.
  split; [|split; [|split]].
  - rewrite C0, <- Xs. ring.
  - rewrite S0, <- Ys. ring.
  - rewrite cos_plus, Ct, St, C0, S0, Cd, Sd, <- Xe.
    replace ((1 * x sv + 0 * y sv) * (x sv * x ev + y sv * y ev)
             - (1 * y sv - 0 * x sv) * (x sv * y ev - y sv * x ev))
      with ((x sv ^ 2 + y sv ^ 2) * x ev) by ring.
    rewrite Us. ring.
  - rewrite sin_plus, Ct, St, C0, S0, Cd, Sd, <- Ye.
    replace ((1 * y sv - 0 * x sv) * (x sv * x ev + y sv * y ev)
             + (1 * x sv + 0 * y sv) * (x sv * y ev - y sv * x ev))
      with ((x sv ^ 2 + y sv ^ 2) * y ev) by ring.
    rewrite Us. ring.
Qed.

(** Rotating the ellipse back and moving it to its centre. *)
Lemma arcCenter_back (phi : R) (tc p0 p1 : point R) (ex ey : R) :
  ex = x (transformedPoint phi p0 p1) - x tc ->
  ey = y (transformedPoint phi p0 p1) - y tc ->
  {| x := cos phi * ex - sin phi * ey + x (arcCenter phi tc p0 p1);
     y := sin phi * ex + cos phi * ey + y (arcCenter phi tc p0 p1) |} = p0.
Proof.
  intros -> ->. destruct p0 as [x0 y0]. unfold arcCenter, transformedPoint.
  cbv zeta. cbn [x y].
  pose proof (sin2_cos2 phi) as T. unfold Rsqr in T.
  set (c := cos phi) in *. set (s := sin phi) in *.
  f_equal.
  - transitivity ((s * s + c * c) * ((x0 - x p1) / 2) + (x0 + x p1) / 2);
      [ring | rewrite T; field].
  - transitivity ((s * s + c * c) * ((y0 - y p1) / 2) + (y0 + y p1) / 2);
      [ring | rewrite T; field].
Qed.

Lemma arcCenter_forth (phi : R) (tc p0 p1 : point R) (ex ey : R) :
  ex = - x (transformedPoint phi p0 p1) - x tc ->
  ey = - y (transformedPoint phi p0 p1) - y tc ->
  {| x := cos phi * ex - sin phi * ey + x (arcCenter phi tc p0 p1);
     y := sin phi * ex + cos phi * ey + y (arcCenter phi tc p0 p1) |} = p1.
Proof.
  intros -> ->. destruct p1 as [x1 y1]. unfold arcCenter, transformedPoint.
  cbv zeta. cbn [x y].
  pose proof (sin2_cos2 phi) as T. unfold Rsqr in T.
  set (c := cos phi) in *. set (s := sin phi) in *.
  f_equal.
  - transitivity ((x p0 + x1) / 2 - (s * s + c * c) * ((x p0 - x1) / 2));
      [ring | rewrite T; field].
  - transitivity ((y p0 + y1) / 2 - (s * s + c * c) * ((y p0 - y1) / 2));
      [ring | rewrite T; field].
Qed.

(** X28. In exact arithmetic: for an arc whose start and end differ and
    whose radii are both non-zero, whatever the rotation and the two flags,
    [pointOnArc] at [t = 0] is the start point and at [t = 1] the end
    point. *)
Theorem pointOnArc_endpoints (p0 : point R) (rx ry xAxisRotation : R)
    (largeArcFlag sweepFlag : bool) (p1 : point R) :
  ~ (x p0 = x p1 /\ y p0 = y p1) -> rx <> 0 -> ry <> 0 ->
  pointOnArc p0 rx ry xAxisRotation largeArcFlag sweepFlag p1 0 = p0 /\
  pointOnArc p0 rx ry xAxisRotation largeArcFlag sweepFlag p1 1 = p1.
Proof.
  intros ND Nx Ny. unfold pointOnArc. cbv zeta.
  assert (Same : Reqb (x p0) (x p1) && Reqb (y p0) (y p1) = false).
  { unfold Reqb. destruct (Req_dec_T (x p0) (x p1)); [|reflexivity].
    destruct (Req_dec_T (y p0) (y p1)); [|reflexivity]. exfalso. tauto. }
  pose proof (Rabs_pos_lt rx Nx) as Px. pose proof (Rabs_pos_lt ry Ny) as Py.
  rewrite Same, (Reqb_false (Rabs rx) 0), (Reqb_false (Rabs ry) 0) by lra.
  cbn [orb].
  set (phi := toRadians (mod_ xAxisRotation 360)).
  destruct (arcGeometryOf_spec p0 (Rabs rx) (Rabs ry) phi largeArcFlag sweepFlag
              p1 Px Py ND) as [tc [Ec [Xs [Ys [Xe Ye]]]]].
  set (g := arcGeometryOf p0 (Rabs rx) (Rabs ry) phi largeArcFlag sweepFlag p1) in *.
  rewrite Ec. split.
  - rewrite Rmult_0_r, Rplus_0_r. now apply arcCenter_back.
  - rewrite Rmult_1_r. now apply arcCenter_forth.
Qed.

Lemma pointOnArc_endpoints_witness :
  pointOnArc {| x := 0; y := 0 |} 2 1 30 true false {| x := 1; y := 1 |} 0
  = {| x := 0; y := 0 |} /\
  pointOnArc {| x := 0; y := 0 |} 2 1 30 true false {| x := 1; y := 1 |} 1
  = {| x := 1; y := 1 |}.
Proof.
  apply (pointOnArc_endpoints {| x := 0; y := 0 |} 2 1 30 true false
           {| x := 1; y := 1 |}); simpl; lra.
Defined.

(** * Further properties *)

(** ** distance, pointOnLine and the Bezier evaluators *)

Lemma sum_squares_nonneg (a b : R) : 0 <= pow2 a + pow2 b.
Proof.
  unfold pow2. pose proof (pow2_ge_0 a). pose proof (pow2_ge_0 b). lra.
Qed.

Lemma distance_square (p0 p1 : point R) :
  distance p0 p1 * distance p0 p1
  = pow2 (x p1 - x p0) + pow2 (y p1 - y p0).
Proof. unfold distance. apply sqrt_sqrt, sum_squares_nonneg. Qed.

Lemma distance_sym (a b : point R) : distance a b = distance b a.
Proof. unfold distance, pow2. f_equal. ring. Qed.

Lemma distance_zero_iff (a b : point R) :
  distance a b = 0 <-> x a = x b /\ y a = y b.
Proof.
  split.
  - intros Z. pose proof (distance_square a b) as S. rewrite Z in S.
    unfold pow2 in S.
    pose proof (pow2_ge_0 (x b - x a)). pose proof (pow2_ge_0 (y b - y a)).
    assert (Zx : (x b - x a) ^ 2 = 0) by lra.
    assert (Zy : (y b - y a) ^ 2 = 0) by lra.
    rewrite <- Rsqr_pow2 in Zx, Zy.
    apply Rsqr_eq_0 in Zx. apply Rsqr_eq_0 in Zy. split; lra.
  - intros [Ex Ey]. unfold distance, pow2. rewrite Ex, Ey.
    replace ((x b - x b) ^ 2 + (y b - y b) ^ 2) with 0 by ring.
    apply sqrt_0.
Qed.

Lemma distance_zero_eq (a b : point R) : distance a b = 0 -> a = b.
Proof.
  intros Z. apply distance_zero_iff in Z. destruct Z as [Ex Ey].
  destruct a, b. simpl in *. now subst.
Qed.

Lemma distance_same (a : point R) : distance a a = 0.
Proof. apply distance_zero_iff. split; reflexivity. Qed.

Lemma distance_triangle (a b c : point R) :
  distance a c <= distance a b + distance b c.
Proof.
  pose proof (distance_nonneg a b) as Pab.
  pose proof (distance_nonneg b c) as Pbc.
  pose proof (distance_nonneg a c) as Pac.
  pose proof (distance_square a b) as Sab.
  pose proof (distance_square b c) as Sbc.
  pose proof (distance_square a c) as Sac.
  unfold pow2 in Sab, Sbc, Sac.
  set (u1 := x b - x a) in *. set (u2 := y b - y a) in *.
  set (v1 := x c - x b) in *. set (v2 := y c - y b) in *.
  replace (x c - x a) with (u1 + v1) in Sac by (unfold u1, v1; ring).
  replace (y c - y a) with (u2 + v2) in Sac by (unfold u2, v2; ring).
  set (dab := distance a b) in *. set (dbc := distance b c) in *.
  set (dac := distance a c) in *.
  (* Cauchy-Schwarz *)
  assert (CS : u1 * v1 + u2 * v2 <= dab * dbc).
  { destruct (Rle_lt_dec (u1 * v1 + u2 * v2) 0) as [N|P].
    - pose proof (Rmult_le_pos dab dbc Pab Pbc). lra.
    - apply Rsqr_incr_0_var; [|now apply Rmult_le_pos].
      unfold Rsqr.
      replace (dab * dbc * (dab * dbc)) with ((dab * dab) * (dbc * dbc)) by ring.
      rewrite Sab, Sbc.
      pose proof (pow2_ge_0 (u1 * v2 - u2 * v1)) as Q.
      replace ((u1 ^ 2 + u2 ^ 2) * (v1 ^ 2 + v2 ^ 2))
        with ((u1 * v1 + u2 * v2) * (u1 * v1 + u2 * v2)
              + (u1 * v2 - u2 * v1) ^ 2) by ring.
      lra. }
  apply Rsqr_incr_0_var; [|lra]. unfold Rsqr.
  replace ((dab + dbc) * (dab + dbc))
    with (dab * dab + dbc * dbc + 2 * (dab * dbc)) by ring.
  rewrite Sac, Sab, Sbc.
  replace ((u1 + v1) ^ 2 + (u2 + v2) ^ 2)
    with (u1 ^ 2 + u2 ^ 2 + (v1 ^ 2 + v2 ^ 2) + 2 * (u1 * v1 + u2 * v2))
    by ring.
  lra.
Qed.

(** X1. [distance] is a metric on points: it is symmetric, it is zero exactly
    between points with the same coordinates, and it obeys the triangle
    inequality. *)
Theorem distance_metric (a b c : point R) :
  distance a b = distance b a /\
  (distance a b = 0 <-> x a = x b /\ y a = y b) /\
  distance a c <= distance a b + distance b c.
Proof.
  split; [apply distance_sym|].
  split; [apply distance_zero_iff | apply distance_triangle].
Qed.

Lemma pointOnLine_distance (p0 p1 : point R) (s t : R) :
  distance (pointOnLine p0 p1 s) (pointOnLine p0 p1 t)
  = Rabs (t - s) * distance p0 p1.
Proof.
  unfold distance, pointOnLine, calculateLineParameter, pow2. cbn [x y].
  replace ((x p0 + (x p1 - x p0) * t - (x p0 + (x p1 - x p0) * s)) ^ 2
           + (y p0 + (y p1 - y p0) * t - (y p0 + (y p1 - y p0) * s)) ^ 2)
    with ((t - s)² * ((x p1 - x p0) ^ 2 + (y p1 - y p0) ^ 2))
    by (unfold Rsqr; ring).
  rewrite sqrt_mult; [|apply Rle_0_sqr|apply (sum_squares_nonneg _ _)].
  now rewrite sqrt_Rsqr_abs.
Qed.

Lemma pointOnLine_start (p0 p1 : point R) : pointOnLine p0 p1 0 = p0.
Proof.
  destruct p0 as [x0 y0]. unfold pointOnLine, calculateLineParameter.
  simpl. f_equal; ring.
Qed.

Lemma pointOnLine_end (p0 p1 : point R) : pointOnLine p0 p1 1 = p1.
Proof.
  destruct p1 as [x1 y1]. unfold pointOnLine, calculateLineParameter.
  simpl. f_equal; ring.
Qed.

(** X2. [pointOnLine] starts at [p0], ends at [p1], and moves at constant
    speed: the distance between its points at [s] and at [t] is
    [|t - s|] times the distance from [p0] to [p1]. *)
Theorem pointOnLine_uniform (p0 p1 : point R) (s t : R) :
  pointOnLine p0 p1 0 = p0 /\
  pointOnLine p0 p1 1 = p1 /\
  distance (pointOnLine p0 p1 s) (pointOnLine p0 p1 t)
  = Rabs (t - s) * distance p0 p1.
Proof.
  split; [apply pointOnLine_start|].
  split; [apply pointOnLine_end | apply pointOnLine_distance].
Qed.

Lemma convex3 (lo hi a b c wa wb wc : R) :
  0 <= wa -> 0 <= wb -> 0 <= wc -> wa + wb + wc = 1 ->
  lo <= a <= hi -> lo <= b <= hi -> lo <= c <= hi ->
  lo <= wa * a + wb * b + wc * c <= hi.
Proof. intros. split; nra. Qed.

Lemma convex4 (lo hi a b c d wa wb wc wd : R) :
  0 <= wa -> 0 <= wb -> 0 <= wc -> 0 <= wd -> wa + wb + wc + wd = 1 ->
  lo <= a <= hi -> lo <= b <= hi -> lo <= c <= hi -> lo <= d <= hi ->
  lo <= wa * a + wb * b + wc * c + wd * d <= hi.
Proof. intros. split; nra. Qed.

Lemma cubicBezierParameter_between (x0 x1 x2 x3 t lo hi : R) :
  0 <= t <= 1 ->
  lo <= x0 <= hi -> lo <= x1 <= hi -> lo <= x2 <= hi -> lo <= x3 <= hi ->
  lo <= calculateCubicBezierParameter x0 x1 x2 x3 t <= hi.
Proof.
  intros [T0 T1] B0 B1 B2 B3. unfold calculateCubicBezierParameter, pow2.
  assert (S : 0 <= 1 - t) by lra.
  apply convex4; try assumption.
  - now apply pow_le.
  - apply Rmult_le_pos; [lra | now apply pow_le].
  - apply Rmult_le_pos; [lra | now apply pow_le].
  - now apply pow_le.
  - ring.
Qed.

Lemma quadraticBezierParameter_between (x0 x1 x2 t lo hi : R) :
  0 <= t <= 1 ->
  lo <= x0 <= hi -> lo <= x1 <= hi -> lo <= x2 <= hi ->
  lo <= calculateQuadraticBezierParameter x0 x1 x2 t <= hi.
Proof.
  intros [T0 T1] B0 B1 B2. unfold calculateQuadraticBezierParameter, pow2.
  assert (S : 0 <= 1 - t) by lra.
  apply convex3; try assumption.
  - now apply pow_le.
  - apply Rmult_le_pos; [lra | exact S].
  - now apply pow_le.
  - ring.
Qed.

(** X3. The cubic Bezier evaluator starts at [p0] and ends at [p3]; read
    backwards it is the curve of the reversed control points; and for [t] in
    [[0, 1]] each coordinate of its point lies between any two bounds that
    hold the four control coordinates. *)
Theorem cubicBezier_shape (p0 p1 p2 p3 : point R) :
  pointOnCubicBezierCurve p0 p1 p2 p3 0 = p0 /\
  pointOnCubicBezierCurve p0 p1 p2 p3 1 = p3 /\
  (forall t,
     pointOnCubicBezierCurve p0 p1 p2 p3 t
     = pointOnCubicBezierCurve p3 p2 p1 p0 (1 - t)) /\
  (forall t lo hi,
     0 <= t <= 1 ->
     lo <= x p0 <= hi -> lo <= x p1 <= hi ->
     lo <= x p2 <= hi -> lo <= x p3 <= hi ->
     lo <= x (pointOnCubicBezierCurve p0 p1 p2 p3 t) <= hi) /\
  (forall t lo hi,
     0 <= t <= 1 ->
     lo <= y p0 <= hi -> lo <= y p1 <= hi ->
     lo <= y p2 <= hi -> lo <= y p3 <= hi ->
     lo <= y (pointOnCubicBezierCurve p0 p1 p2 p3 t) <= hi).
Proof.
  split; [|split; [|split; [|split]]].
  - destruct p0 as [x0 y0].
    unfold pointOnCubicBezierCurve, calculateCubicBezierParameter, pow2.
    simpl. f_equal; ring.
  - destruct p3 as [x3 y3].
    unfold pointOnCubicBezierCurve, calculateCubicBezierParameter, pow2.
    simpl. f_equal; ring.
  - intros t.
    unfold pointOnCubicBezierCurve, calculateCubicBezierParameter, pow2.
    f_equal; ring.
  - intros t lo hi T B0 B1 B2 B3. simpl.
    now apply cubicBezierParameter_between.
  - intros t lo hi T B0 B1 B2 B3. simpl.
    now apply cubicBezierParameter_between.
Qed.

Lemma cubicBezier_shape_witness :
  0 <= x (pointOnCubicBezierCurve
            {| x := 0; y := 0 |} {| x := 1; y := 2 |}
            {| x := 3; y := 2 |} {| x := 4; y := 0 |} (1 / 2)) <= 4.
Proof.
  destruct (cubicBezier_shape
              {| x := 0; y := 0 |} {| x := 1; y := 2 |}
              {| x := 3; y := 2 |} {| x := 4; y := 0 |})
    as [_ [_ [_ [Bx _]]]].
  apply Bx; simpl; lra.
Defined.

(** X4. The quadratic Bezier evaluator starts at [p0] and ends at [p2]; read
    backwards it is the curve of the reversed control points; and for [t] in
    [[0, 1]] each coordinate of its point lies between any two bounds that
    hold the three control coordinates. *)
Theorem quadraticBezier_shape (p0 p1 p2 : point R) :
  pointOnQuadraticBezier p0 p1 p2 0 = p0 /\
  pointOnQuadraticBezier p0 p1 p2 1 = p2 /\
  (forall t,
     pointOnQuadraticBezier p0 p1 p2 t
     = pointOnQuadraticBezier p2 p1 p0 (1 - t)) /\
  (forall t lo hi,
     0 <= t <= 1 ->
     lo <= x p0 <= hi -> lo <= x p1 <= hi -> lo <= x p2 <= hi ->
     lo <= x (pointOnQuadraticBezier p0 p1 p2 t) <= hi) /\
  (forall t lo hi,
     0 <= t <= 1 ->
     lo <= y p0 <= hi -> lo <= y p1 <= hi -> lo <= y p2 <= hi ->
     lo <= y (pointOnQuadraticBezier p0 p1 p2 t) <= hi).
Proof.
  split; [|split; [|split; [|split]]].
  - destruct p0 as [x0 y0].
    unfold pointOnQuadraticBezier, calculateQuadraticBezierParameter, pow2.
    simpl. f_equal; ring.
  - destruct p2 as [x2 y2].
    unfold pointOnQuadraticBezier, calculateQuadraticBezierParameter, pow2.
    simpl. f_equal; ring.
  - intros t.
    unfold pointOnQuadraticBezier, calculateQuadraticBezierParameter, pow2.
    f_equal; ring.
  - intros t lo hi T B0 B1 B2. simpl.
    now apply quadraticBezierParameter_between.
  - intros t lo hi T B0 B1 B2. simpl.
    now apply quadraticBezierParameter_between.
Qed.

Lemma quadraticBezier_shape_witness :
  0 <= y (pointOnQuadraticBezier
            {| x := 0; y := 0 |} {| x := 1; y := 2 |} {| x := 2; y := 0 |}
            (1 / 2)) <= 2.
Proof.
  destruct (quadraticBezier_shape
              {| x := 0; y := 0 |} {| x := 1; y := 2 |} {| x := 2; y := 0 |})
    as [_ [_ [_ [_ By]]]].
  apply By; simpl; lra.
Defined.

(** ** The remainder and mod *)

Lemma js_rem_congruent (a m : R) : exists k : Z, js_rem a m = a - IZR k * m.
Proof. exists (Rtrunc (a / m)). unfold js_rem. ring. Qed.

(** The remainder has the sign of the dividend and is smaller than the
    divisor. *)
Lemma js_rem_range (a m : R) :
  0 < m ->
  (0 <= a -> 0 <= js_rem a m < m) /\ (a < 0 -> - m < js_rem a m <= 0).
Proof.
  intros P.
  assert (Sc : forall d, 0 <= d < 1 -> 0 <= m * d < m).
  { intros d [D0 D1]. split; [apply Rmult_le_pos; lra|].
    rewrite <- (Rmult_1_r m) at 2. apply Rmult_lt_compat_l; lra. }
  split; intros A; unfold js_rem, Rtrunc.
  - assert (0 <= a / m).
    { apply Rmult_le_pos; [exact A|]. left. now apply Rinv_0_lt_compat. }
    destruct (Rle_dec 0 (a / m)) as [_|N]; [|contradiction].
    destruct (base_Int_part (a / m)) as [L U].
    replace (a - m * IZR (Int_part (a / m)))
      with (m * (a / m - IZR (Int_part (a / m)))) by (field; lra).
    apply Sc. lra.
  - assert (a / m < 0).
    { unfold Rdiv. rewrite <- (Rmult_0_l (/ m)).
      apply Rmult_lt_compat_r; [now apply Rinv_0_lt_compat | exact A]. }
    destruct (Rle_dec 0 (a / m)) as [N|_]; [lra|].
    destruct (base_Int_part (- (a / m))) as [L U].
    rewrite opp_IZR.
    replace (a - m * - IZR (Int_part (- (a / m))))
      with (- (m * (- (a / m) - IZR (Int_part (- (a / m)))))) by (field; lra).
    destruct (Sc (- (a / m) - IZR (Int_part (- (a / m))))); lra.
Qed.

(** X5. For a positive modulus [m], [mod(v, m)] lies in [[0, m)] and differs
    from [v] by a whole multiple of [m]; so the rotation that [pointOnArc]
    uses lies in [[0, 360)] degrees. *)
Theorem mod_range (v m : R) :
  0 < m ->
  0 <= mod_ v m < m /\ exists k : Z, mod_ v m = v + IZR k * m.
Proof.
  intros P. unfold mod_.
  destruct (js_rem_range v m P) as [Pos Neg].
  assert (B : - m < js_rem v m < m).
  { destruct (Rle_lt_dec 0 v) as [A|A]; [apply Pos in A | apply Neg in A]; lra. }
  split.
  - apply (js_rem_range (js_rem v m + m) m P). lra.
  - destruct (js_rem_congruent v m) as [k1 E1].
    destruct (js_rem_congruent (js_rem v m + m) m) as [k2 E2].
    exists (1 - k1 - k2)%Z. rewrite E2, E1, !minus_IZR. ring.
Qed.

Lemma mod_range_witness :
  0 <= mod_ (-30) 360 < 360 /\ exists k : Z, mod_ (-30) 360 = -30 + IZR k * 360.
Proof. apply mod_range. lra. Defined.

(** ** approximateArcLengthOfCurve: the polyline *)

Lemma chained_snoc (s a b : point R) (lines : list (point R * point R)) :
  chained s lines a -> chained s (lines ++ [(a, b)]) b.
Proof.
  revert s; induction lines as [|ln lines IH]; intros s; simpl.
  - intros ->. split; reflexivity.
  - intros [E C]. split; [exact E | now apply IH].
Qed.

Lemma polylineLength_snoc (lines : list (point R * point R))
    (ln : point R * point R) :
  polylineLength (lines ++ [ln])
  = polylineLength lines + distance (fst ln) (snd ln).
Proof.
  unfold polylineLength. induction lines as [|l lines IH]; simpl; [ring|].
  rewrite IH. ring.
Qed.

(** A polyline is at least as long as its chord. *)
Lemma chained_chord (lines : list (point R * point R)) :
  forall s e, chained s lines e -> distance s e <= polylineLength lines.
Proof.
  induction lines as [|ln lines IH]; intros s e; simpl.
  - intros ->. rewrite distance_same. lra.
  - intros [E C]. subst s. pose proof (IH _ _ C).
    pose proof (distance_triangle (fst ln) (snd ln) e).
    unfold polylineLength in *. simpl. lra.
Qed.

Lemma clamp_unit (v : R) : 0 <= clamp v 0 1 <= 1.
Proof.
  unfold clamp. split.
  - apply Rmin_glb; [apply Rmax_r | lra].
  - apply Rmin_r.
Qed.

Lemma clamp_inside (v : R) : 0 <= v <= 1 -> clamp v 0 1 = v.
Proof.
  intros [L U]. unfold clamp. rewrite Rmax_left by lra. now apply Rmin_left.
Qed.

Section Polyline.
Context (resolution : nat) (f : R -> point R).

Lemma approxStep_polyline (i : nat) (st : approxState) :
  approxPolylineInvariant f i st ->
  approxPolylineInvariant f (S i) (approxStep resolution f i st).
Proof.
  intros [Ch [Len [Nl [Nm [Each Head]]]]].
  unfold approxPolylineInvariant, approxStep. cbv zeta.
  cbn [st_approximationLines st_arcLengthMap prevPoint resultantArcLength].
  set (t := clamp (INR i * (1 / INR resolution)) 0 1).
  pose proof (clamp_unit (INR i * (1 / INR resolution))) as Tu. fold t in Tu.
  pose proof (distance_nonneg (prevPoint st) (f t)) as D.
  split; [now apply chained_snoc|].
  split; [rewrite polylineLength_snoc; simpl; lra|].
  split; [rewrite length_app; simpl; lia|].
  split; [rewrite length_app; simpl; lia|].
  split.
  - apply Forall_app. split.
    + apply Forall_impl with (2 := Each). intros e [Te [Before After]].
      split; [exact Te|]. split; [exact Before|].
      pose proof (distance_triangle (f (entry_t e)) (prevPoint st) (f t)). lra.
    + constructor; [|constructor]. simpl.
      split; [exact Tu|]. rewrite distance_same. split; [|lra].
      pose proof (chained_chord _ _ _ Ch).
      pose proof (distance_triangle (f 0) (prevPoint st) (f t)). lra.
  - intros _. destruct i as [|i].
    + destruct (st_arcLengthMap st) as [|e m]; [|discriminate].
      destruct (st_approximationLines st) as [|l ls]; [|discriminate].
      simpl in Ch, Len. exists []. simpl. unfold t. simpl INR.
      rewrite Rmult_0_l, clamp_inside by lra.
      rewrite Len, <- Ch, distance_same. do 2 f_equal. ring.
    + destruct Head as [rest E]; [lia|]. rewrite E. simpl. eauto.
Qed.

Lemma approxLoop_polyline (count : nat) :
  forall (i : nat) (st : approxState),
    approxPolylineInvariant f i st ->
    approxPolylineInvariant f (i + count)
      (approxLoop resolution f count i st).
Proof.
  induction count as [|count IH]; intros i st I; simpl.
  - now rewrite Nat.add_0_r.
  - replace (i + S count)%nat with (S i + count)%nat by lia.
    apply IH. now apply approxStep_polyline.
Qed.

End Polyline.

(** What the loop leaves, for the resolution in effect. *)
Lemma approximateArcLength_loop (resolution : nat) (f : R -> point R) :
  exists st : approxState,
    approxPolylineInvariant f (effectiveResolution resolution) st /\
    approximateArcLengthOfCurve resolution f
    = {| arcLength := resultantArcLength st + distance (prevPoint st) (f 1);
         arcLengthMap :=
           st_arcLengthMap st
           ++ [{| entry_t := 1;
                  entry_arcLength :=
                    resultantArcLength st + distance (prevPoint st) (f 1) |}];
         approximationLines :=
           st_approximationLines st ++ [(prevPoint st, f 1)] |}.
Proof.
  unfold approximateArcLengthOfCurve, effectiveResolution. cbv zeta.
  set (n := if Nat.eqb resolution 0 then 500%nat else resolution).
  set (st0 := {| prevPoint := f 0; resultantArcLength := 0;
                 st_arcLengthMap := []; st_approximationLines := [] |}).
  exists (approxLoop n f n 0 st0). split; [|reflexivity].
  apply (approxLoop_polyline n f n 0%nat st0).
  unfold approxPolylineInvariant, st0. simpl.
  repeat split; try reflexivity; try constructor. lia.
Qed.

Lemma effectiveResolution_positive (resolution : nat) :
  (1 <= effectiveResolution resolution)%nat.
Proof.
  unfold effectiveResolution. destruct (Nat.eqb_spec resolution 0); lia.
Qed.

(** The facts about the result that the properties below start from. *)
Lemma approximateArcLength_facts (resolution : nat) (f : R -> point R) :
  let result := approximateArcLengthOfCurve resolution f in
  chained (f 0) (approximationLines result) (f 1) /\
  arcLength result = polylineLength (approximationLines result) /\
  length (approximationLines result) = S (effectiveResolution resolution) /\
  length (arcLengthMap result) = S (effectiveResolution resolution) /\
  Forall
    (fun e =>
       0 <= entry_t e <= 1 /\
       distance (f 0) (f (entry_t e)) <= entry_arcLength e /\
       distance (f (entry_t e)) (f 1) <= arcLength result - entry_arcLength e)
    (arcLengthMap result) /\
  (exists rest,
     arcLengthMap result
     = {| entry_t := 0; entry_arcLength := 0 |} :: rest
       ++ [{| entry_t := 1; entry_arcLength := arcLength result |}]).
Proof.
  cbv zeta.
  destruct (approximateArcLength_loop resolution f)
    as [st [[Ch [Len [Nl [Nm [Each Head]]]]] ->]].
  cbn [arcLength arcLengthMap approximationLines].
  pose proof (distance_nonneg (prevPoint st) (f 1)) as D.
  split; [now apply chained_snoc|].
  split; [rewrite polylineLength_snoc; simpl; lra|].
  split; [rewrite length_app; simpl; lia|].
  split; [rewrite length_app; simpl; lia|].
  split.
  - apply Forall_app. split.
    + apply Forall_impl with (2 := Each). intros e [Te [Before After]].
      split; [exact Te|]. split; [exact Before|].
      pose proof (distance_triangle (f (entry_t e)) (prevPoint st) (f 1)). lra.
    + constructor; [|constructor]. simpl.
      split; [lra|]. rewrite distance_same. split; [|lra].
      pose proof (chained_chord _ _ _ Ch).
      pose proof (distance_triangle (f 0) (prevPoint st) (f 1)). lra.
  - destruct (Head (effectiveResolution_positive resolution)) as [rest E].
    exists rest. now rewrite E.
Qed.

(** X6. The lines that [approximateArcLengthOfCurve] records form a polyline
    from the point of the curve at [0] to its point at [1], with one line
    more than the resolution in effect (500 where none is given); the arc
    length returned is the length of that polyline, hence at least the
    distance between the two ends of the curve. *)
Theorem approximateArcLength_polyline (resolution : nat) (f : R -> point R) :
  let result := approximateArcLengthOfCurve resolution f in
  chained (f 0) (approximationLines result) (f 1) /\
  length (approximationLines result)
  = S (if Nat.eqb resolution 0 then 500%nat else resolution) /\
  arcLength result = polylineLength (approximationLines result) /\
  distance (f 0) (f 1) <= arcLength result.
Proof.
  cbv zeta.
  destruct (approximateArcLength_facts resolution f)
    as [Ch [Len [Nl _]]].
  split; [exact Ch|]. split; [exact Nl|]. split; [exact Len|].
  rewrite Len. now apply chained_chord.
Qed.

(** X7. Every entry of the arc-length map has its [t] in [[0, 1]]; its arc
    length is at least the distance from the start of the curve to the point
    at that [t], and what is left of the total arc length is at least the
    distance from that point to the end of the curve.  The map starts with
    the entry [(0, 0)] and ends with the entry [(1, total arc length)]. *)
Theorem arcLengthMap_chords (resolution : nat) (f : R -> point R) :
  let result := approximateArcLengthOfCurve resolution f in
  Forall
    (fun e =>
       0 <= entry_t e <= 1 /\
       distance (f 0) (f (entry_t e)) <= entry_arcLength e /\
       distance (f (entry_t e)) (f 1) <= arcLength result - entry_arcLength e)
    (arcLengthMap result) /\
  (exists rest,
     arcLengthMap result
     = {| entry_t := 0; entry_arcLength := 0 |} :: rest
       ++ [{| entry_t := 1; entry_arcLength := arcLength result |}]).
Proof.
  cbv zeta.
  destruct (approximateArcLength_facts resolution f)
    as [_ [_ [_ [_ [Each Ends]]]]].
  split; [exact Each | exact Ends].
Qed.

(** ** generateLinearCurve: the re-parameterization *)

Lemma approximate_effective (resolution : nat) (f : R -> point R) :
  approximateArcLengthOfCurve (effectiveResolution resolution) f
  = approximateArcLengthOfCurve resolution f.
Proof.
  unfold effectiveResolution. destruct resolution as [|n]; reflexivity.
Qed.

(** The arc-length map is sorted at any resolution, the default included. *)
Lemma arcLengthMap_sorted_any (resolution : nat) (f : R -> point R) :
  StronglySorted entryBefore
    (arcLengthMap (approximateArcLengthOfCurve resolution f)).
Proof.
  rewrite <- approximate_effective.
  pose proof (effectiveResolution_positive resolution) as P.
  set (n := effectiveResolution resolution) in *.
  unfold approximateArcLengthOfCurve.
  replace (Nat.eqb n 0) with false by (symmetry; apply Nat.eqb_neq; lia).
  cbv zeta.
  set (st0 := {| prevPoint := f 0; resultantArcLength := 0;
                 st_arcLengthMap := []; st_approximationLines := [] |}).
  assert (I0 : approxInvariant n 0 st0).
  { unfold approxInvariant. simpl. repeat constructor. }
  destruct (approxLoop_invariant n f P n 0%nat st0 (Nat.add_0_l _) I0)
    as [Sorted [Below Ts]].
  set (st := approxLoop n f n 0 st0) in *.
  pose proof (distance_nonneg (prevPoint st) (f 1)) as D.
  assert (One : INR n * (1 / INR n) = 1) by (field; apply not_0_INR; lia).
  simpl. apply StronglySorted_snoc; [exact Sorted|].
  apply Forall_impl with (2 := Below). intros e [Lt Le].
  unfold entryBefore. simpl. lra.
Qed.

Lemma quotientOrZero_unit (s e : R) :
  0 <= s -> 0 <= e -> 0 <= quotientOrZero s (e + s) <= 1.
Proof.
  intros S E. unfold quotientOrZero, Reqb.
  destruct (Req_dec_T (e + s) 0) as [Z|N]; [lra|].
  assert (P : 0 < e + s) by lra. split.
  - apply Rmult_le_pos; [exact S|]. left. now apply Rinv_0_lt_compat.
  - apply Rmult_le_reg_r with (e + s); [exact P|].
    unfold Rdiv. rewrite Rmult_assoc, Rinv_l by exact N. lra.
Qed.

(** The scan stops at a parameter between the ones it has passed and [1]. *)
Lemma scan_in_unit (target : R) (entries : list arcLengthMapEntry) :
  forall prevArcLength prevT,
    prevArcLength <= target -> 0 <= prevT <= 1 ->
    Forall (fun e => prevT <= entry_t e <= 1) entries ->
    StronglySorted entryBefore entries ->
    0 <= scanArcLengthMap target entries prevArcLength prevT <= 1.
Proof.
  induction entries as [|e entries IH]; intros prevL prevT Lp Tp Ts Sorted;
    simpl; [lra|].
  inversion Ts as [|? ? Te Ts']; subst.
  inversion Sorted as [|? ? Sorted' Before]; subst.
  unfold Rleb. destruct (Rle_dec target (entry_arcLength e)) as [Stop|Go].
  - destruct (quotientOrZero_unit (target - prevL)
                (entry_arcLength e - target)) as [Q0 Q1]; try lra.
    set (q := quotientOrZero (target - prevL)
                (entry_arcLength e - target + (target - prevL))) in *.
    assert (0 <= (entry_t e - prevT) * q) by (apply Rmult_le_pos; lra).
    assert ((entry_t e - prevT) * q <= (entry_t e - prevT) * 1)
      by (apply Rmult_le_compat_l; lra).
    lra.
  - apply IH; try lra; [|exact Sorted'].
    rewrite Forall_forall in *. intros e' I.
    destruct (Before e' I) as [Lt _]. pose proof (Ts' e' I). lra.
Qed.

Lemma scan_divides (target : R) (entries : list arcLengthMapEntry) :
  forall prevArcLength,
    prevArcLength <= target -> scanDivides target entries prevArcLength.
Proof.
  induction entries as [|e entries IH]; intros prevL Lp; simpl; [exact I|].
  unfold Rleb. destruct (Rle_dec target (entry_arcLength e)) as [Stop|Go].
  - destruct (Req_dec_T (target - prevL) 0) as [Z|N]; [now right|].
    left. lra.
  - apply IH. lra.
Qed.

(** A scan for the total arc length stops at an entry that has it. *)
Lemma scan_total (total : R) (entries : list arcLengthMapEntry) :
  forall prevArcLength prevT,
    prevArcLength < total ->
    (exists e, In e entries /\ total <= entry_arcLength e) ->
    exists e,
      In e entries /\ total <= entry_arcLength e /\
      (entry_arcLength e <= total ->
       scanArcLengthMap total entries prevArcLength prevT = entry_t e).
Proof.
  induction entries as [|e entries IH]; intros prevL prevT Lp [e' [I' Le']];
    [destruct I'|]. simpl.
  unfold Rleb. destruct (Rle_dec total (entry_arcLength e)) as [Stop|Go].
  - exists e. split; [now left|]. split; [exact Stop|]. intros Le.
    assert (E : entry_arcLength e = total) by lra.
    unfold quotientOrZero. rewrite E, Reqb_false by lra. field. lra.
  - destruct I' as [->|I']; [contradiction|].
    destruct (IH (entry_arcLength e) (entry_t e)) as [e2 [I2 [L2 S2]]];
      [lra | now exists e' |].
    exists e2. split; [now right|]. split; assumption.
Qed.

Section Transformer.
Context (resolution : nat) (f : R -> point R).

Lemma generateLinearCurve_unfold (u : xreal) :
  transformer (generateLinearCurve resolution f) u
  = match xclamp01 u with
    | Fin u =>
        f (scanArcLengthMap
             (u * arcLength (approximateArcLengthOfCurve resolution f))
             (arcLengthMap (approximateArcLengthOfCurve resolution f)) 0 0)
    | _ => f 0
    end.
Proof.
  unfold generateLinearCurve. cbv zeta. fold (effectiveResolution resolution).
  rewrite approximate_effective. reflexivity.
Qed.

Lemma arcLength_nonneg :
  0 <= arcLength (approximateArcLengthOfCurve resolution f).
Proof.
  destruct (approximateArcLength_facts resolution f) as [Ch [Len _]].
  pose proof (chained_chord _ _ _ Ch). pose proof (distance_nonneg (f 0) (f 1)).
  lra.
Qed.

Lemma transformer_on_curve (u : xreal) :
  exists t, 0 <= t <= 1 /\ transformer (generateLinearCurve resolution f) u = f t.
Proof.
  rewrite generateLinearCurve_unfold.
  destruct (xclamp01 u) as [r| | |] eqn:E;
    try (exists 0; split; [lra | reflexivity]).
  eexists. split; [|reflexivity].
  assert (Rg : 0 <= r <= 1).
  { destruct u; simpl in E; inversion E; subst; try lra. apply clamp_unit. }
  pose proof arcLength_nonneg as P.
  destruct (approximateArcLength_facts resolution f)
    as [_ [_ [_ [_ [Each _]]]]].
  apply scan_in_unit.
  - apply Rmult_le_pos; lra.
  - lra.
  - apply Forall_impl with (2 := Each). intros e [Te _]. exact Te.
  - apply arcLengthMap_sorted_any.
Qed.

Lemma transformer_start (r : R) :
  r <= 0 -> transformer (generateLinearCurve resolution f) (Fin r) = f 0.
Proof.
  intros N. rewrite generateLinearCurve_unfold. simpl xclamp01. cbv iota.
  replace (clamp r 0 1) with 0
    by (unfold clamp; rewrite Rmax_right by lra; now rewrite Rmin_left by lra).
  destruct (approximateArcLength_facts resolution f)
    as [_ [_ [_ [_ [_ [rest ->]]]]]].
  rewrite Rmult_0_l. simpl. rewrite Rleb_true by lra.
  unfold quotientOrZero. rewrite Reqb_true by ring. f_equal. ring.
Qed.

Lemma transformer_end (r : R) :
  1 <= r -> transformer (generateLinearCurve resolution f) (Fin r) = f 1.
Proof.
  intros N. rewrite generateLinearCurve_unfold. simpl xclamp01. cbv iota.
  replace (clamp r 0 1) with 1
    by (unfold clamp; rewrite Rmax_left by lra; now rewrite Rmin_right by lra).
  rewrite Rmult_1_l.
  pose proof arcLength_nonneg as P.
  destruct (approximateArcLength_facts resolution f)
    as [_ [_ [_ [_ [Each [rest E]]]]]].
  set (total := arcLength (approximateArcLengthOfCurve resolution f)) in *.
  rewrite E in *. simpl.
  destruct (Req_dec_T total 0) as [Z|NZ].
  - rewrite Rleb_true by lra.
    inversion Each as [|? ? [_ [_ After]] _]; subst. simpl in After.
    pose proof (distance_nonneg (f 0) (f 1)).
    rewrite <- (distance_zero_eq (f 0) (f 1)) by lra.
    f_equal. unfold quotientOrZero. rewrite Reqb_true by lra. ring.
  - rewrite Rleb_false by lra.
    destruct (scan_total total
                (rest ++ [{| entry_t := 1; entry_arcLength := total |}]) 0 0)
      as [e [I [Ge S]]].
    + lra.
    + eexists. split; [apply in_or_app; right; now left | simpl; lra].
    + inversion Each as [|? ? _ Each']; subst.
      rewrite Forall_forall in Each'. destruct (Each' e I) as [_ [_ After]].
      pose proof (distance_nonneg (f (entry_t e)) (f 1)).
      rewrite S by lra. apply distance_zero_eq. lra.
Qed.

End Transformer.

(** X8. The function that [generateLinearCurve] returns reads the curve at a
    parameter in [[0, 1]], whatever number it is given ([NaN] and the
    infinities included); at [u <= 0] it returns the point of the curve at
    [0] and at [u >= 1] the point at [1]; its scan of the arc-length map
    never divides a non-zero number by zero; and its property [arcLength]
    is the arc length of [approximateArcLengthOfCurve]. *)
Theorem transformer_reads_curve (resolution : nat) (f : R -> point R) :
  (forall u : xreal,
     exists t,
       0 <= t <= 1 /\ transformer (generateLinearCurve resolution f) u = f t) /\
  (forall r, r <= 0 ->
     transformer (generateLinearCurve resolution f) (Fin r) = f 0) /\
  (forall r, 1 <= r ->
     transformer (generateLinearCurve resolution f) (Fin r) = f 1) /\
  (forall r,
     scanDivides
       (clamp r 0 1 * arcLength (approximateArcLengthOfCurve resolution f))
       (arcLengthMap (approximateArcLengthOfCurve resolution f)) 0) /\
  transformer_arcLength (generateLinearCurve resolution f)
  = arcLength (approximateArcLengthOfCurve resolution f).
Proof.
  split; [apply transformer_on_curve|].
  split; [apply transformer_start|].
  split; [apply transformer_end|].
  split.
  - intros r. apply scan_divides.
    pose proof (clamp_unit r). pose proof (arcLength_nonneg resolution f).
    apply Rmult_le_pos; lra.
  - unfold generateLinearCurve. cbv zeta.
    fold (effectiveResolution resolution).
    now rewrite approximate_effective.
Qed.

Lemma transformer_reads_curve_witness :
  transformer
    (generateLinearCurve 4
       (pointOnCubicBezierCurve {| x := 0; y := 0 |} {| x := 1; y := 2 |}
          {| x := 3; y := 2 |} {| x := 4; y := 0 |}))
    (Fin 2)
  = pointOnCubicBezierCurve {| x := 0; y := 0 |} {| x := 1; y := 2 |}
      {| x := 3; y := 2 |} {| x := 4; y := 0 |} 1.
Proof.
  destruct (transformer_reads_curve 4
              (pointOnCubicBezierCurve {| x := 0; y := 0 |} {| x := 1; y := 2 |}
                 {| x := 3; y := 2 |} {| x := 4; y := 0 |}))
    as [_ [_ [End _]]].
  apply End. lra.
Defined.

(** ** Curves of constant speed: the line *)

Lemma clamp_monotone (a b : R) : a <= b -> clamp a 0 1 <= clamp b 0 1.
Proof.
  intros L. unfold clamp.
  apply Rle_min_compat_r. now apply Rle_max_compat_r.
Qed.

Section UniformSpeed.
Context (f : R -> point R) (d : R).
Hypothesis f_uniform : uniformSpeed f d.

Lemma uniformSpeed_forward (s t : R) :
  s <= t -> distance (f s) (f t) = (t - s) * d.
Proof. intros L. rewrite f_uniform, Rabs_right by lra. reflexivity. Qed.

Lemma uniformSpeed_nonneg : 0 <= d.
Proof.
  pose proof (distance_nonneg (f 0) (f 1)) as P.
  rewrite uniformSpeed_forward in P by lra. lra.
Qed.

(** The loop on a curve of constant speed: every entry has the arc length
    [t * d]. *)
Lemma approxLoop_uniform (n count : nat) :
  (1 <= n)%nat ->
  forall (i : nat) (st : approxState),
    (exists tp,
       prevPoint st = f tp /\ resultantArcLength st = tp * d /\
       tp <= clamp (INR i * (1 / INR n)) 0 1) ->
    Forall (fun e => entry_arcLength e = entry_t e * d) (st_arcLengthMap st) ->
    let st' := approxLoop n f count i st in
    (exists tp,
       prevPoint st' = f tp /\ resultantArcLength st' = tp * d /\ tp <= 1) /\
    Forall (fun e => entry_arcLength e = entry_t e * d) (st_arcLengthMap st').
Proof.
  intros P. assert (Q : 0 < 1 / INR n).
  { apply Rdiv_lt_0_compat; [lra | apply lt_0_INR; lia]. }
  induction count as [|count IH]; intros i st [tp [Ep [El Lt]]] Each; simpl.
  - split; [|exact Each]. exists tp.
    pose proof (clamp_unit (INR i * (1 / INR n))). repeat split; try assumption.
    lra.
  - apply IH.
    + exists (clamp (INR i * (1 / INR n)) 0 1).
      unfold approxStep. cbv zeta.
      cbn [prevPoint resultantArcLength st_arcLengthMap].
      split; [reflexivity|]. split.
      * rewrite Ep, El, uniformSpeed_forward by exact Lt. ring.
      * apply clamp_monotone. rewrite S_INR.
        apply Rmult_le_compat_r; lra.
    + unfold approxStep. cbv zeta.
      cbn [prevPoint resultantArcLength st_arcLengthMap].
      apply Forall_app. split; [exact Each|].
      constructor; [|constructor]. simpl.
      rewrite Ep, El, uniformSpeed_forward by exact Lt. ring.
Qed.

Lemma approximateArcLength_uniform (resolution : nat) :
  arcLength (approximateArcLengthOfCurve resolution f) = d /\
  Forall (fun e => entry_arcLength e = entry_t e * d)
    (arcLengthMap (approximateArcLengthOfCurve resolution f)).
Proof.
  rewrite <- approximate_effective.
  pose proof (effectiveResolution_positive resolution) as P.
  set (n := effectiveResolution resolution) in *.
  unfold approximateArcLengthOfCurve.
  replace (Nat.eqb n 0) with false by (symmetry; apply Nat.eqb_neq; lia).
  cbv zeta.
  set (st0 := {| prevPoint := f 0; resultantArcLength := 0;
                 st_arcLengthMap := []; st_approximationLines := [] |}).
  destruct (approxLoop_uniform n n P 0%nat st0) as [[tp [Ep [El Lt]]] Each].
  - exists 0. simpl. split; [reflexivity|]. split; [ring|].
    apply clamp_unit.
  - constructor.
  - cbv zeta in Ep, El, Each. simpl.
    set (st := approxLoop n f n 0 st0) in *.
    rewrite Ep, El, uniformSpeed_forward by exact Lt.
    split; [ring|]. apply Forall_app. split; [exact Each|].
    constructor; [|constructor]. simpl. ring.
Qed.

(** On entries with the arc length [t * d], the scan for [u * d] stops at
    [u]. *)
Lemma scan_uniform (u : R) (entries : list arcLengthMapEntry) :
  0 < d ->
  forall prevT,
    Forall (fun e => entry_arcLength e = entry_t e * d) entries ->
    prevT <= u ->
    Forall (fun e => prevT <= entry_t e) entries ->
    StronglySorted entryBefore entries ->
    (exists e, In e entries /\ u <= entry_t e) ->
    scanArcLengthMap (u * d) entries (prevT * d) prevT = u.
Proof.
  intros P.
  induction entries as [|e entries IH];
    intros prevT Each Lu Ts Sorted [e' [I' Le']]; [destruct I'|].
  inversion Each as [|? ? Ee Each']; subst.
  inversion Ts as [|? ? Te Ts']; subst.
  inversion Sorted as [|? ? Sorted' Before]; subst.
  simpl. rewrite Ee. unfold Rleb.
  destruct (Rle_dec (u * d) (entry_t e * d)) as [Stop|Go].
  - assert (Ue : u <= entry_t e) by nra.
    unfold quotientOrZero, Reqb.
    destruct (Req_dec_T (entry_t e * d - u * d + (u * d - prevT * d)) 0)
      as [Z|NZ].
    + assert (entry_t e = prevT) by nra. lra.
    + assert (entry_t e - prevT <> 0) by (intros Z; apply NZ; nra).
      replace (entry_t e * d - u * d + (u * d - prevT * d))
        with ((entry_t e - prevT) * d) by ring.
      field. split; [lra | assumption].
  - assert (Ue : entry_t e < u) by nra.
    destruct I' as [->|I']; [lra|].
    apply IH; try assumption; [lra| |now exists e'].
    rewrite Forall_forall in *. intros e2 I2.
    destruct (Before e2 I2) as [Lt _]. lra.
Qed.

Lemma transformer_uniform (resolution : nat) (u : R) :
  0 <= u <= 1 ->
  transformer (generateLinearCurve resolution f) (Fin u) = f u.
Proof.
  intros Ru. rewrite generateLinearCurve_unfold. simpl xclamp01. cbv iota.
  rewrite clamp_inside by exact Ru.
  destruct (approximateArcLength_uniform resolution) as [El Each].
  rewrite El.
  pose proof uniformSpeed_nonneg as Pd.
  destruct (Req_dec_T d 0) as [Z|NZ].
  - apply distance_zero_eq. rewrite f_uniform, Z. ring.
  - f_equal.
    destruct (approximateArcLength_facts resolution f)
      as [_ [_ [_ [_ [Unit [rest E]]]]]].
    assert (S : scanArcLengthMap (u * d)
                  (arcLengthMap (approximateArcLengthOfCurve resolution f))
                  (0 * d) 0 = u).
    { apply scan_uniform.
      - lra.
      - exact Each.
      - lra.
      - apply Forall_impl with (2 := Unit). intros e [Te _]. lra.
      - apply arcLengthMap_sorted_any.
      - rewrite E. eexists. split.
        + right. apply in_or_app. right. now left.
        + simpl. lra. }
    rewrite Rmult_0_l in S. exact S.
Qed.

End UniformSpeed.

Lemma pointOnLine_uniformSpeed (p0 p1 : point R) :
  uniformSpeed (pointOnLine p0 p1) (distance p0 p1).
Proof. intros s t. apply pointOnLine_distance. Qed.

(** X9. For a straight line the approximation is exact at every resolution:
    the arc length is the distance between the endpoints, every entry of the
    arc-length map has the arc length [t] times that distance, and the
    re-parameterized line is the line itself, [transformer(u)] being
    [pointOnLine(p0, p1, u)] for [u] in [[0, 1]]. *)
Theorem line_arcLength_exact (resolution : nat) (p0 p1 : point R) :
  arcLength (approximateArcLengthOfCurve resolution (pointOnLine p0 p1))
  = distance p0 p1 /\
  Forall (fun e => entry_arcLength e = entry_t e * distance p0 p1)
    (arcLengthMap (approximateArcLengthOfCurve resolution (pointOnLine p0 p1))) /\
  (forall u, 0 <= u <= 1 ->
     transformer (generateLinearCurve resolution (pointOnLine p0 p1)) (Fin u)
     = pointOnLine p0 p1 u).
Proof.
  pose proof (pointOnLine_uniformSpeed p0 p1) as U.
  destruct (approximateArcLength_uniform _ _ U resolution) as [El Each].
  split; [exact El|]. split; [exact Each|].
  intros u Ru. now apply transformer_uniform with (d := distance p0 p1).
Qed.

Lemma line_arcLength_exact_witness :
  transformer
    (generateLinearCurve 3 (pointOnLine {| x := 0; y := 0 |} {| x := 3; y := 4 |}))
    (Fin (1 / 2))
  = pointOnLine {| x := 0; y := 0 |} {| x := 3; y := 4 |} (1 / 2).
Proof.
  destruct (line_arcLength_exact 3 {| x := 0; y := 0 |} {| x := 3; y := 4 |})
    as [_ [_ T]].
  apply T. lra.
Defined.

(** ** nsteps and the three point emitters of paths.js *)

Lemma floor_quotient (a len : R) :
  0 <= a -> 0 < len ->
  exists n : nat,
    xfloor (xdiv (Fin a) (Fin len)) = Fin (INR n) /\
    INR n * len <= a < (INR n + 1) * len.
Proof.
  intros A P. simpl. rewrite Reqb_false by lra. simpl.
  assert (Q : 0 <= a / len).
  { apply Rmult_le_pos; [exact A|]. left. now apply Rinv_0_lt_compat. }
  destruct (base_Int_part (a / len)) as [L U].
  assert (Z : (0 <= Int_part (a / len))%Z).
  { assert (H : IZR (-1) < IZR (Int_part (a / len))) by (simpl; lra).
    apply lt_IZR in H. lia. }
  exists (Z.to_nat (Int_part (a / len))).
  rewrite INR_IZR_INZ, Z2Nat.id by exact Z.
  split; [reflexivity|].
  assert (E : a = a / len * len) by (field; lra).
  split.
  - rewrite E at 2. apply Rmult_le_compat_r; lra.
  - rewrite E at 1. apply Rmult_lt_compat_r; lra.
Qed.

(** X10. For a positive spacing [len], [nsteps] is a whole number [n] of
    steps with [n * len <= arcLength < (n + 1) * len]: as many steps of
    length [len] as fit into the approximated arc length. *)
Theorem nsteps_fits (curveFn : R -> point R) (res : nat) (len : R) :
  0 < len ->
  exists n : nat,
    nsteps curveFn res len = Fin (INR n) /\
    INR n * len <= arcLength (approximateArcLengthOfCurve res curveFn)
    < (INR n + 1) * len.
Proof.
  intros P. unfold nsteps. cbv zeta.
  apply floor_quotient; [apply arcLength_nonneg | exact P].
Qed.

Lemma nsteps_fits_witness :
  exists n : nat,
    nsteps (pointOnLine {| x := 0; y := 0 |} {| x := 3; y := 4 |}) 10 2
    = Fin (INR n) /\
    INR n * 2
    <= arcLength
         (approximateArcLengthOfCurve 10
            (pointOnLine {| x := 0; y := 0 |} {| x := 3; y := 4 |}))
    < (INR n + 1) * 2.
Proof. apply nsteps_fits. lra. Defined.

(** The points [getPoints] emits in exact arithmetic, for a whole number of
    steps. *)
Lemma getPoints_exact (A : Type) (pointFn : xreal -> A) (n fuel : nat) :
  (n + 2 <= fuel)%nat ->
  getPoints fuel pointFn (Fin (INR n))
  = Some (if Nat.eqb n 0 then [pointFn (Fin 0)]
          else map (fun k => pointFn (Fin (INR k / INR n))) (seq 0 (S n))).
Proof.
  intros F. destruct (Nat.eqb_spec n 0) as [->|NZ].
  - destruct fuel as [|[|fuel]]; try lia. simpl INR.
    apply getPoints_exact_zero_steps.
  - assert (P : (1 <= n)%nat) by lia.
    pose proof (INR_n_pos n P) as Q.
    unfold getPoints. cbn [js_div js_one js_zero xreal_Number xdiv].
    rewrite Reqb_false by lra.
    replace 0 with (INR 0 / INR n) at 1 by (simpl; field; lra).
    rewrite (getPoints_loop_exact pointFn n P n 0%nat fuel []) by lia.
    reflexivity.
Qed.

(** With a number of steps that is negative or infinite the step is negative
    or zero, and the loop variable never passes [1]. *)
Lemma getPoints_loop_stuck (A : Type) (pointFn : xreal -> A) (t : R) :
  t <= 0 ->
  forall (fuel : nat) (i : R) (pts : list A),
    i <= 1 -> getPoints_loop fuel pointFn (Fin t) (Fin i) pts = None.
Proof.
  intros T. induction fuel as [|fuel IH]; intros i pts I; [reflexivity|].
  cbn [getPoints_loop js_le js_one js_add xreal_Number xle xadd].
  rewrite Rleb_true by exact I. apply IH. lra.
Qed.

Lemma getPoints_stuck (A : Type) (pointFn : xreal -> A)
    (steps : xreal) (fuel : nat) :
  steps = PInf \/ steps = NInf \/ (exists r, steps = Fin r /\ r < 0) ->
  getPoints fuel pointFn steps = None.
Proof.
  intros [-> | [-> | [r [-> N]]]]; unfold getPoints;
    cbn [js_div js_one js_zero xreal_Number xdiv].
  - apply getPoints_loop_stuck; lra.
  - apply getPoints_loop_stuck; lra.
  - rewrite Reqb_false by lra. apply getPoints_loop_stuck; [|lra].
    assert (0 < 1 / - r) by (apply Rdiv_lt_0_compat; lra).
    replace (1 / r) with (- (1 / - r)) by (field; lra). lra.
Qed.

(** X11. In exact arithmetic, [getPoints] does not terminate when the number
    of steps is negative or infinite: whatever bound is put on its loop, the
    bound is hit.  That is the case of a segment length of zero (the number
    of steps is then [+Infinity]) or below zero on a curve of positive
    length. *)
Theorem getPoints_never_ends (A : Type) (pointFn : xreal -> A)
    (steps : xreal) (fuel : nat) :
  steps = PInf \/ steps = NInf \/ (exists r, steps = Fin r /\ r < 0) ->
  getPoints fuel pointFn steps = None.
Proof.
  intros Bad. now apply getPoints_stuck.
Qed.

Lemma getPoints_never_ends_witness :
  getPoints 1000 (fun u : xreal => u)
    (xfloor (xdiv (Fin 5) (Fin 0))) = None.
Proof.
  apply getPoints_never_ends. left. simpl.
  rewrite Reqb_true, Reqb_false, Rltb_true by lra. reflexivity.
Defined.

Lemma js_pointOnLine_fin (p0 p1 : point R) (t : R) :
  js_pointOnLine (xpoint p0) (xpoint p1) (Fin t) = xpoint (pointOnLine p0 p1 t).
Proof. reflexivity. Qed.

Lemma nth_error_map_seq {A : Type} (g : nat -> A) (n k : nat) :
  (k < n)%nat -> nth_error (map g (seq 0 n)) k = Some (g k).
Proof.
  intros L. rewrite nth_error_map, nth_error_seq.
  destruct (Nat.ltb_spec k n); [reflexivity | lia].
Qed.

(** X12. [pointsForLine] with a positive segment length [len], in exact
    arithmetic: with [n] the number of whole segments of length [len] that
    fit between [start] and [end], the loop ends and returns [n + 1] points,
    the first of them [start].  When [n >= 1] the last point is [end], and
    any two consecutive points are the same distance apart, the [n]-th part
    of the distance from [start] to [end], which is at least [len]. *)
Theorem pointsForLine_spaced (start end_ : point R) (len : R) :
  0 < len ->
  exists n : nat,
    INR n * len <= distance start end_ < (INR n + 1) * len /\
    forall fuel, (n + 2 <= fuel)%nat ->
      exists pts,
        pointsForLine fuel start end_ len = Some pts /\
        length pts = S n /\
        nth_error pts 0 = Some (xpoint start) /\
        ((1 <= n)%nat ->
         nth_error pts n = Some (xpoint end_) /\
         forall k, (k < n)%nat ->
           exists p q,
             nth_error pts k = Some (xpoint p) /\
             nth_error pts (S k) = Some (xpoint q) /\
             distance p q = distance start end_ / INR n /\
             len <= distance p q).
Proof.
  intros P.
  destruct (floor_quotient (distance start end_) len
              (distance_nonneg start end_) P) as [n [E B]].
  exists n. split; [exact B|]. intros fuel F.
  unfold pointsForLine. cbv zeta. rewrite E, getPoints_exact by exact F.
  eexists. split; [reflexivity|].
  destruct (Nat.eqb_spec n 0) as [->|NZ].
  - split; [reflexivity|]. split; [|lia].
    simpl. now rewrite js_pointOnLine_fin, pointOnLine_start.
  - assert (Pn : 0 < INR n) by (apply lt_0_INR; lia).
    set (g := fun k : nat =>
                js_pointOnLine (xpoint start) (xpoint end_) (Fin (INR k / INR n))).
    split; [now rewrite length_map, length_seq|].
    split.
    + rewrite (nth_error_map_seq g) by lia. unfold g.
      rewrite js_pointOnLine_fin. simpl INR.
      replace (0 / INR n) with 0 by (field; lra).
      now rewrite pointOnLine_start.
    + intros _. split.
      * rewrite (nth_error_map_seq g) by lia. unfold g.
        rewrite js_pointOnLine_fin.
        replace (INR n / INR n) with 1 by (field; lra).
        now rewrite pointOnLine_end.
      * intros k K.
        exists (pointOnLine start end_ (INR k / INR n)),
               (pointOnLine start end_ (INR (S k) / INR n)).
        rewrite !(nth_error_map_seq g) by lia. unfold g.
        rewrite !js_pointOnLine_fin.
        split; [reflexivity|]. split; [reflexivity|].
        rewrite pointOnLine_distance, S_INR.
        replace ((INR k + 1) / INR n - INR k / INR n) with (/ INR n)
          by (field; lra).
        assert (Pi : 0 < / INR n) by (now apply Rinv_0_lt_compat).
        rewrite Rabs_right by lra.
        split; [unfold Rdiv; ring|].
        apply Rmult_le_reg_l with (INR n); [exact Pn|].
        rewrite <- Rmult_assoc, Rinv_r, Rmult_1_l by lra. lra.
Qed.

Lemma pointsForLine_spaced_witness :
  exists n : nat,
    INR n * 2 <= distance {| x := 0; y := 0 |} {| x := 3; y := 4 |}
    < (INR n + 1) * 2 /\
    forall fuel, (n + 2 <= fuel)%nat ->
      exists pts,
        pointsForLine fuel {| x := 0; y := 0 |} {| x := 3; y := 4 |} 2
        = Some pts /\
        length pts = S n /\
        nth_error pts 0 = Some (xpoint {| x := 0; y := 0 |}) /\
        ((1 <= n)%nat ->
         nth_error pts n = Some (xpoint {| x := 3; y := 4 |}) /\
         forall k, (k < n)%nat ->
           exists p q,
             nth_error pts k = Some (xpoint p) /\
             nth_error pts (S k) = Some (xpoint q) /\
             distance p q
             = distance {| x := 0; y := 0 |} {| x := 3; y := 4 |} / INR n /\
             2 <= distance p q).
Proof. apply pointsForLine_spaced. lra. Defined.

(** X13. [pointsForLine] with a segment length that is zero or negative,
    between two points that differ: the number of steps is infinite or
    negative and the loop never ends. *)
Theorem pointsForLine_never_ends (start end_ : point R) (len : R) (fuel : nat) :
  len <= 0 -> start <> end_ ->
  pointsForLine fuel start end_ len = None.
Proof.
  intros N D. unfold pointsForLine. cbv zeta.
  assert (Pd : 0 < distance start end_).
  { pose proof (distance_nonneg start end_) as Q.
    destruct (Req_dec_T (distance start end_) 0) as [Z|NZ]; [|lra].
    exfalso. apply D. now apply distance_zero_eq. }
  apply getPoints_stuck. simpl.
  destruct (Req_dec_T len 0) as [Z|NZ].
  - left. rewrite (Reqb_true len 0 Z), Reqb_false, Rltb_true by lra.
    reflexivity.
  - right. right. rewrite Reqb_false by exact NZ. simpl.
    eexists. split; [reflexivity|].
    assert (Q : distance start end_ / len < 0).
    { assert (0 < distance start end_ / - len)
        by (apply Rdiv_lt_0_compat; lra).
      replace (distance start end_ / len)
        with (- (distance start end_ / - len)) by (field; lra).
      lra. }
    destruct (base_Int_part (distance start end_ / len)) as [L _]. lra.
Qed.

Lemma pointsForLine_never_ends_witness :
  pointsForLine 100 {| x := 0; y := 0 |} {| x := 3; y := 4 |} 0 = None.
Proof.
  apply pointsForLine_never_ends; [lra|].
  intros E. apply (f_equal x) in E. simpl in E. lra.
Defined.

(** The points emitted along a re-parameterized curve. *)
Lemma points_along_curve (f : R -> point R) (res : nat) (len : R) :
  0 < len ->
  exists n : nat,
    INR n * len <= arcLength (approximateArcLengthOfCurve res f)
    < (INR n + 1) * len /\
    forall fuel, (n + 2 <= fuel)%nat ->
      exists pts,
        getPoints fuel (transformer (generateLinearCurve res f))
          (nsteps f res len) = Some pts /\
        length pts = S n /\
        nth_error pts 0 = Some (f 0) /\
        ((1 <= n)%nat -> nth_error pts n = Some (f 1)) /\
        Forall (fun p => exists t, 0 <= t <= 1 /\ p = f t) pts.
Proof.
  intros P. unfold nsteps. cbv zeta.
  destruct (floor_quotient (arcLength (approximateArcLengthOfCurve res f)) len
              (arcLength_nonneg res f) P) as [n [E B]].
  exists n. split; [exact B|]. intros fuel F.
  rewrite E, getPoints_exact by exact F.
  eexists. split; [reflexivity|].
  destruct (Nat.eqb_spec n 0) as [->|NZ].
  - split; [reflexivity|]. split; [|split; [lia|]].
    + cbn [nth_error]. now rewrite transformer_start by lra.
    + constructor; [|constructor]. apply transformer_on_curve.
  - assert (Pn : 0 < INR n) by (apply lt_0_INR; lia).
    set (g := fun k : nat =>
                transformer (generateLinearCurve res f) (Fin (INR k / INR n))).
    split; [now rewrite length_map, length_seq|].
    split; [|split].
    + rewrite (nth_error_map_seq g) by lia. unfold g.
      rewrite transformer_start; [reflexivity|].
      simpl INR. replace (0 / INR n) with 0 by (field; lra). lra.
    + intros _. rewrite (nth_error_map_seq g) by lia. unfold g.
      rewrite transformer_end; [reflexivity|].
      replace (INR n / INR n) with 1 by (field; lra). lra.
    + apply Forall_forall. intros p I. apply in_map_iff in I.
      destruct I as [k [<- _]]. unfold g. apply transformer_on_curve.
Qed.

Lemma cubicBezier_start (p0 p1 p2 p3 : point R) :
  pointOnCubicBezierCurve p0 p1 p2 p3 0 = p0.
Proof.
  destruct p0 as [x0 y0].
  unfold pointOnCubicBezierCurve, calculateCubicBezierParameter, pow2.
  simpl. f_equal; ring.
Qed.

Lemma cubicBezier_end (p0 p1 p2 p3 : point R) :
  pointOnCubicBezierCurve p0 p1 p2 p3 1 = p3.
Proof.
  destruct p3 as [x3 y3].
  unfold pointOnCubicBezierCurve, calculateCubicBezierParameter, pow2.
  simpl. f_equal; ring.
Qed.

(** X14. [pointsForBezier] with a positive segment length [len], in exact
    arithmetic: with [n] the number of whole segments of length [len] that
    fit into the approximated arc length, the loop ends and returns [n + 1]
    points; the first is [start], the last is [end] when [n >= 1], and every
    point is a point of the Bezier curve at some [t] in [[0, 1]]. *)
Theorem pointsForBezier_on_curve (start cp1 cp2 end_ : point R) (res : nat)
    (len : R) :
  0 < len ->
  exists n : nat,
    INR n * len
    <= arcLength
         (approximateArcLengthOfCurve res
            (pointOnCubicBezierCurve start cp1 cp2 end_))
    < (INR n + 1) * len /\
    forall fuel, (n + 2 <= fuel)%nat ->
      exists pts,
        pointsForBezier fuel start cp1 cp2 end_ res len = Some pts /\
        length pts = S n /\
        nth_error pts 0 = Some start /\
        ((1 <= n)%nat -> nth_error pts n = Some end_) /\
        Forall
          (fun p =>
             exists t,
               0 <= t <= 1 /\ p = pointOnCubicBezierCurve start cp1 cp2 end_ t)
          pts.
Proof.
  intros P.
  destruct (points_along_curve (pointOnCubicBezierCurve start cp1 cp2 end_)
              res len P) as [n [B Emit]].
  exists n. split; [exact B|]. intros fuel F.
  destruct (Emit fuel F) as [pts [E [Len [First [Last On]]]]].
  rewrite cubicBezier_start in First. rewrite cubicBezier_end in Last.
  exists pts. unfold pointsForBezier. cbv zeta. tauto.
Qed.

Lemma pointsForBezier_on_curve_witness :
  exists n : nat,
    INR n * 1
    <= arcLength
         (approximateArcLengthOfCurve 8
            (pointOnCubicBezierCurve {| x := 0; y := 0 |} {| x := 1; y := 2 |}
               {| x := 3; y := 2 |} {| x := 4; y := 0 |}))
    < (INR n + 1) * 1 /\
    forall fuel, (n + 2 <= fuel)%nat ->
      exists pts,
        pointsForBezier fuel {| x := 0; y := 0 |} {| x := 1; y := 2 |}
          {| x := 3; y := 2 |} {| x := 4; y := 0 |} 8 1 = Some pts /\
        length pts = S n /\
        nth_error pts 0 = Some {| x := 0; y := 0 |} /\
        ((1 <= n)%nat -> nth_error pts n = Some {| x := 4; y := 0 |}) /\
        Forall
          (fun p =>
             exists t,
               0 <= t <= 1 /\
               p = pointOnCubicBezierCurve {| x := 0; y := 0 |}
                     {| x := 1; y := 2 |} {| x := 3; y := 2 |}
                     {| x := 4; y := 0 |} t)
          pts.
Proof. apply pointsForBezier_on_curve. lra. Defined.

(** Every arc starts at its start point and ends at its end point, the
    degenerate ones included. *)
Lemma pointOnArc_ends (p0 : point R) (rx ry xAxisRotation : R)
    (largeArcFlag sweepFlag : bool) (p1 : point R) :
  pointOnArc p0 rx ry xAxisRotation largeArcFlag sweepFlag p1 0 = p0 /\
  pointOnArc p0 rx ry xAxisRotation largeArcFlag sweepFlag p1 1 = p1.
Proof.
  unfold pointOnArc. cbv zeta.
  destruct (Reqb (x p0) (x p1) && Reqb (y p0) (y p1)) eqn:Same.
  - apply andb_prop in Same. destruct Same as [Ex Ey]. unfold Reqb in Ex, Ey.
    destruct (Req_dec_T (x p0) (x p1)) as [Ex'|]; [|discriminate].
    destruct (Req_dec_T (y p0) (y p1)) as [Ey'|]; [|discriminate].
    destruct p0, p1. simpl in *. subst. split; reflexivity.
  - destruct (Reqb (Rabs rx) 0 || Reqb (Rabs ry) 0) eqn:Flat.
    + split; [apply pointOnLine_start | apply pointOnLine_end].
    + apply orb_false_elim in Flat. destruct Flat as [Fx Fy].
      unfold Reqb in Fx, Fy.
      destruct (Req_dec_T (Rabs rx) 0) as [|Nx]; [discriminate|].
      destruct (Req_dec_T (Rabs ry) 0) as [|Ny]; [discriminate|].
      pose proof (Rabs_pos rx). pose proof (Rabs_pos ry).
      assert (ND : ~ (x p0 = x p1 /\ y p0 = y p1)).
      { intros [Ex Ey].
        rewrite (Reqb_true _ _ Ex), (Reqb_true _ _ Ey) in Same. discriminate. }
      set (phi := toRadians (mod_ xAxisRotation 360)).
      destruct (arcGeometryOf_spec p0 (Rabs rx) (Rabs ry) phi largeArcFlag
                  sweepFlag p1) as [tc [Ec [Xs [Ys [Xe Ye]]]]];
        [lra | lra | exact ND |].
      rewrite Ec. split.
      * rewrite Rmult_0_r, Rplus_0_r. now apply arcCenter_back.
      * rewrite Rmult_1_r. now apply arcCenter_forth.
Qed.

(** X15. [pointsForArc] with a positive segment length [len], in exact
    arithmetic and for every arc, the degenerate ones included: with [n] the
    number of whole segments of length [len] that fit into the approximated
    arc length, the loop ends and returns [n + 1] points; the first is
    [start], the last is [end] when [n >= 1], and every point is a point of
    the arc at some [t] in [[0, 1]]. *)
Theorem pointsForArc_on_arc (start rads : point R) (rot : R) (lrg swp : bool)
    (end_ : point R) (res : nat) (len : R) :
  0 < len ->
  exists n : nat,
    INR n * len
    <= arcLength
         (approximateArcLengthOfCurve res
            (pointOnArc start (x rads) (y rads) rot lrg swp end_))
    < (INR n + 1) * len /\
    forall fuel, (n + 2 <= fuel)%nat ->
      exists pts,
        pointsForArc fuel start rads rot lrg swp end_ res len = Some pts /\
        length pts = S n /\
        nth_error pts 0 = Some start /\
        ((1 <= n)%nat -> nth_error pts n = Some end_) /\
        Forall
          (fun p =>
             exists t,
               0 <= t <= 1 /\
               p = pointOnArc start (x rads) (y rads) rot lrg swp end_ t)
          pts.
Proof.
  intros P.
  destruct (points_along_curve
              (pointOnArc start (x rads) (y rads) rot lrg swp end_)
              res len P) as [n [B Emit]].
  exists n. split; [exact B|]. intros fuel F.
  destruct (Emit fuel F) as [pts [E [Len [First [Last On]]]]].
  destruct (pointOnArc_ends start (x rads) (y rads) rot lrg swp end_)
    as [E0 E1].
  rewrite E0 in First. rewrite E1 in Last.
  exists pts. unfold pointsForArc. cbv zeta. tauto.
Qed.

Lemma pointsForArc_on_arc_witness :
  exists n : nat,
    INR n * 1
    <= arcLength
         (approximateArcLengthOfCurve 8
            (pointOnArc {| x := 0; y := 0 |} 2 1 30 true false
               {| x := 1; y := 1 |}))
    < (INR n + 1) * 1 /\
    forall fuel, (n + 2 <= fuel)%nat ->
      exists pts,
        pointsForArc fuel {| x := 0; y := 0 |} {| x := 2; y := 1 |} 30 true
          false {| x := 1; y := 1 |} 8 1 = Some pts /\
        length pts = S n /\
        nth_error pts 0 = Some {| x := 0; y := 0 |} /\
        ((1 <= n)%nat -> nth_error pts n = Some {| x := 1; y := 1 |}) /\
        Forall
          (fun p =>
             exists t,
               0 <= t <= 1 /\
               p = pointOnArc {| x := 0; y := 0 |} 2 1 30 true false
                     {| x := 1; y := 1 |} t)
          pts.
Proof.
  apply (pointsForArc_on_arc {| x := 0; y := 0 |} {| x := 2; y := 1 |} 30 true
           false {| x := 1; y := 1 |} 8 1). lra.
Defined.

(** ** pointOnArc: the ellipse *)

Lemma enlargedRadius_grows (check r : R) :
  0 <= r -> r <= enlargedRadius check r.
Proof.
  intros P. unfold enlargedRadius, Rltb.
  destruct (Rlt_dec 1 check) as [Big|Small]; [|lra].
  assert (1 <= sqrt check).
  { rewrite <- sqrt_1. apply sqrt_le_1; lra. }
  rewrite <- (Rmult_1_l r) at 1. apply Rmult_le_compat_r; lra.
Qed.

Lemma enlargedRadius_ratio (check rx ry : R) :
  enlargedRadius check rx * ry = enlargedRadius check ry * rx.
Proof. unfold enlargedRadius. destruct (Rltb 1 check); ring. Qed.

(** X16. In exact arithmetic, every point of a non-degenerate arc (start
    and end differ, both radii non-zero) lies on the ellipse that the
    program works out: moved to
    the centre and turned back by the rotation, its coordinates divided by
    the two resulting radii are a cosine and a sine.  The resulting radii
    are at least the absolute values of the radii given, and in the same
    proportion. *)
Theorem pointOnArc_on_ellipse (p0 : point R) (rx ry xAxisRotation : R)
    (largeArcFlag sweepFlag : bool) (p1 : point R) (t : R) :
  ~ (x p0 = x p1 /\ y p0 = y p1) -> rx <> 0 -> ry <> 0 ->
  let phi := toRadians (mod_ xAxisRotation 360) in
  let g := arcGeometryOf p0 (Rabs rx) (Rabs ry) phi largeArcFlag sweepFlag p1 in
  let p := pointOnArc p0 rx ry xAxisRotation largeArcFlag sweepFlag p1 t in
  let dx := x p - x (ellipticalArcCenter g) in
  let dy := y p - y (ellipticalArcCenter g) in
  pow2 ((cos phi * dx + sin phi * dy) / resultantRx g)
  + pow2 ((- sin phi * dx + cos phi * dy) / resultantRy g) = 1 /\
  Rabs rx <= resultantRx g /\ Rabs ry <= resultantRy g /\
  resultantRx g * Rabs ry = resultantRy g * Rabs rx.
Proof.
  intros ND Nx Ny. cbv zeta.
  pose proof (Rabs_pos_lt rx Nx) as Px. pose proof (Rabs_pos_lt ry Ny) as Py.
  set (phi := toRadians (mod_ xAxisRotation 360)).
  assert (Same : Reqb (x p0) (x p1) && Reqb (y p0) (y p1) = false).
  { unfold Reqb. destruct (Req_dec_T (x p0) (x p1)); [|reflexivity].
    destruct (Req_dec_T (y p0) (y p1)); [|reflexivity]. exfalso. tauto. }
  unfold pointOnArc. cbv zeta. fold phi.
  rewrite Same, (Reqb_false (Rabs rx) 0), (Reqb_false (Rabs ry) 0) by lra.
  cbn [orb x y].
  pose proof (transformedPoint_nonzero phi p0 p1 ND) as NZ.
  destruct (enlargedRadius_reaches (Rabs rx) (Rabs ry)
              (transformedPoint phi p0 p1) Px Py NZ) as [Prx [Pry _]].
  unfold arcGeometryOf. cbv zeta.
  cbn [resultantRx resultantRy ellipticalArcCenter ellipticalArcStartAngle
       sweepAngle].
  set (tp := transformedPoint phi p0 p1) in *.
  set (rx' := enlargedRadius (radiiCheck (Rabs rx) (Rabs ry) tp) (Rabs rx)) in *.
  set (ry' := enlargedRadius (radiiCheck (Rabs rx) (Rabs ry) tp) (Rabs ry)) in *.
  match goal with
  | |- context [cos (?a + ?b * t)] => set (angle := a + b * t)
  end.
  match goal with
  | |- context [x (arcCenter ?u1 ?u2 ?u3 ?u4)] =>
      set (c := arcCenter u1 u2 u3 u4)
  end.
  pose proof (sin2_cos2 phi) as T. unfold Rsqr in T.
  pose proof (sin2_cos2 angle) as Ta. unfold Rsqr in Ta.
  split; [|split; [|split]].
  - replace ((cos phi
              * (cos phi * (rx' * cos angle) - sin phi * (ry' * sin angle)
                 + x c - x c)
              + sin phi
                * (sin phi * (rx' * cos angle) + cos phi * (ry' * sin angle)
                   + y c - y c)) / rx')
      with ((sin phi * sin phi + cos phi * cos phi) * cos angle)
      by (field; lra).
    replace ((- sin phi
              * (cos phi * (rx' * cos angle) - sin phi * (ry' * sin angle)
                 + x c - x c)
              + cos phi
                * (sin phi * (rx' * cos angle) + cos phi * (ry' * sin angle)
                   + y c - y c)) / ry')
      with ((sin phi * sin phi + cos phi * cos phi) * sin angle)
      by (field; lra).
    rewrite T. unfold pow2. lra.
  - apply enlargedRadius_grows. lra.
  - apply enlargedRadius_grows. lra.
  - apply enlargedRadius_ratio.
Qed.

Lemma pointOnArc_on_ellipse_witness :
  let phi := toRadians (mod_ 30 360) in
  let g :=
    arcGeometryOf {| x := 0; y := 0 |} (Rabs 2) (Rabs 1) phi true false
      {| x := 1; y := 1 |} in
  let p :=
    pointOnArc {| x := 0; y := 0 |} 2 1 30 true false {| x := 1; y := 1 |}
      (1 / 3) in
  let dx := x p - x (ellipticalArcCenter g) in
  let dy := y p - y (ellipticalArcCenter g) in
  pow2 ((cos phi * dx + sin phi * dy) / resultantRx g)
  + pow2 ((- sin phi * dx + cos phi * dy) / resultantRy g) = 1 /\
  Rabs 2 <= resultantRx g /\ Rabs 1 <= resultantRy g /\
  resultantRx g * Rabs 1 = resultantRy g * Rabs 2.
Proof.
  apply (pointOnArc_on_ellipse {| x := 0; y := 0 |} 2 1 30 true false
           {| x := 1; y := 1 |} (1 / 3)); simpl; lra.
Defined.

(** ** scale and translate: how they compose *)

Lemma iter_ext {A : Type} (f g : A -> A) (k : nat) (a : A) :
  (forall b, f b = g b) -> Nat.iter k f a = Nat.iter k g a.
Proof.
  intros E. induction k as [|k IH]; [reflexivity|]. simpl. now rewrite IH, E.
Qed.

Lemma iter_commute {A : Type} (f g : A -> A) (k : nat) (a : A) :
  (forall b, f (g b) = g (f b)) ->
  Nat.iter k g (f a) = f (Nat.iter k g a).
Proof.
  intros C. induction k as [|k IH]; [reflexivity|]. simpl.
  now rewrite IH, C.
Qed.

Lemma iter_compose {A : Type} (f g : A -> A) (k : nat) (a : A) :
  (forall b, f (g b) = g (f b)) ->
  Nat.iter k g (Nat.iter k f a) = Nat.iter k (fun b => g (f b)) a.
Proof.
  intros C. induction k as [|k IH]; [reflexivity|]. simpl.
  rewrite <- IH. f_equal. now apply iter_commute.
Qed.

Lemma iter_id {A : Type} (f : A -> A) (k : nat) (a : A) :
  (forall b, f b = b) -> Nat.iter k f a = a.
Proof.
  intros E. induction k as [|k IH]; [reflexivity|]. simpl. now rewrite IH, E.
Qed.

Lemma point_eq (p q : point R) : x p = x q -> y p = y q -> p = q.
Proof. destruct p, q. simpl. now intros -> ->. Qed.

(** X17. Scaling twice is scaling once by the product, whatever the array
    holds (an object that occurs several times included): after [scale(a)]
    then [scale(b)] every object of the heap is as after [scale(a * b)].  So
    [scale(1)] changes nothing and [scale(1 / a)] undoes [scale(a)] for
    [a <> 0]. *)
Theorem scale_compose (a b : R) (g : PointGenerator) (h : heap) :
  (forall r,
     snd (scale b g (snd (scale a g h))) r = snd (scale (a * b) g h) r) /\
  (forall r, snd (scale 1 g h) r = h r) /\
  (a <> 0 -> forall r, snd (scale (/ a) g (snd (scale a g h))) r = h r).
Proof.
  assert (Two : forall c d r,
            snd (scale d g (snd (scale c g h))) r = snd (scale (c * d) g h) r).
  { intros c d r. unfold scale. simpl. rewrite !forEach_occurrences.
    rewrite iter_compose.
    - apply iter_ext. intros p. apply point_eq; simpl; ring.
    - intros p. apply point_eq; simpl; ring. }
  assert (One : forall r, snd (scale 1 g h) r = h r).
  { intros r. unfold scale. simpl. rewrite forEach_occurrences.
    apply iter_id. intros p. apply point_eq; simpl; ring. }
  split; [apply Two|]. split; [exact One|].
  intros N r. rewrite Two, Rinv_r by exact N. apply One.
Qed.

Lemma scale_compose_witness :
  snd (scale (/ 3) twoPoints (snd (scale 3 twoPoints twoPointsHeap))) 0%nat
  = twoPointsHeap 0%nat.
Proof.
  destruct (scale_compose 3 1 twoPoints twoPointsHeap) as [_ [_ Undo]].
  apply Undo. lra.
Defined.

(** What [translate] does to each object: one shift for each occurrence in
    the array, and one more for the object that is [this.center]. *)
Lemma translate_occurrences (dx dy : R) (g : PointGenerator) (h : heap)
    (r : ref) :
  snd (translate dx dy g h) r
  = Nat.iter
      (count_occ Nat.eq_dec (points g) r
       + (if Nat.eqb r (center g) then 1 else 0))
      (fun p => {| x := x p + dx; y := y p + dy |}) (h r).
Proof.
  unfold translate. cbv zeta. simpl. rewrite forEach_occurrences.
  unfold upd. destruct (Nat.eqb_spec r (center g)) as [->|N].
  - rewrite Nat.add_1_r, Nat.iter_succ_r. reflexivity.
  - now rewrite Nat.add_0_r.
Qed.

(** X18. Translating twice is translating once by the sum, whatever the
    array holds: after [translate(a, b)] then [translate(c, d)] every object
    of the heap, the tracked centre included, is as after
    [translate(a + c, b + d)].  So [translate(0, 0)] changes nothing and
    [translate(- a, - b)] undoes [translate(a, b)]. *)
Theorem translate_compose (a b c d : R) (g : PointGenerator) (h : heap) :
  (forall r,
     snd (translate c d g (snd (translate a b g h))) r
     = snd (translate (a + c) (b + d) g h) r) /\
  (forall r, snd (translate 0 0 g h) r = h r) /\
  (forall r, snd (translate (- a) (- b) g (snd (translate a b g h))) r = h r).
Proof.
  assert (Two : forall a b c d r,
            snd (translate c d g (snd (translate a b g h))) r
            = snd (translate (a + c) (b + d) g h) r).
  { intros a' b' c' d' r. rewrite !translate_occurrences.
    rewrite iter_compose.
    - apply iter_ext. intros p. apply point_eq; simpl; ring.
    - intros p. apply point_eq; simpl; ring. }
  assert (Zero : forall r, snd (translate 0 0 g h) r = h r).
  { intros r. rewrite translate_occurrences.
    apply iter_id. intros p. apply point_eq; simpl; ring. }
  split; [apply Two|]. split; [exact Zero|].
  intros r. rewrite Two, !Rplus_opp_r. apply Zero.
Qed.

(** ** bbox: the smallest box that holds the points *)

Section RunningExtremes.
Context (v : ref -> R).

Lemma running_min (l : list ref) :
  forall m0,
    let m := fold_left (fun m r => if Rltb (v r) m then v r else m) l m0 in
    m <= m0 /\ (forall r, In r l -> m <= v r) /\
    (m = m0 \/ exists r, In r l /\ v r = m).
Proof.
  induction l as [|a l IH]; intros m0; simpl.
  - split; [lra|]. split; [tauto | now left].
  - destruct (IH (if Rltb (v a) m0 then v a else m0)) as [Le [All Att]].
    cbv zeta in Le, All, Att.
    set (m := fold_left _ l _) in *.
    unfold Rltb in *. destruct (Rlt_dec (v a) m0) as [Lt|Ge].
    + split; [lra|]. split.
      * intros r [<-|I]; [exact Le | now apply All].
      * right. destruct Att as [E | [r [I E]]]; [exists a | exists r]; auto.
    + split; [exact Le|]. split.
      * intros r [<-|I]; [lra | now apply All].
      * destruct Att as [E | [r [I E]]]; [now left | right; exists r; auto].
Qed.

Lemma running_max (l : list ref) :
  forall m0,
    let m := fold_left (fun m r => if Rltb m (v r) then v r else m) l m0 in
    m0 <= m /\ (forall r, In r l -> v r <= m) /\
    (m = m0 \/ exists r, In r l /\ v r = m).
Proof.
  induction l as [|a l IH]; intros m0; simpl.
  - split; [lra|]. split; [tauto | now left].
  - destruct (IH (if Rltb m0 (v a) then v a else m0)) as [Le [All Att]].
    cbv zeta in Le, All, Att.
    set (m := fold_left _ l _) in *.
    unfold Rltb in *. destruct (Rlt_dec m0 (v a)) as [Lt|Ge].
    + split; [lra|]. split.
      * intros r [<-|I]; [exact Le | now apply All].
      * right. destruct Att as [E | [r [I E]]]; [exists a | exists r]; auto.
    + split; [exact Le|]. split.
      * intros r [<-|I]; [lra | now apply All].
      * destruct Att as [E | [r [I E]]]; [now left | right; exists r; auto].
Qed.

End RunningExtremes.

(** The four variables of [bbox] are running extremes, each on its own. *)
Lemma fold_bboxStep_fields (h : heap) (l : list ref) :
  forall e,
    xmin (fold_left (bboxStep h) l e)
    = fold_left (fun m r => if Rltb (x (h r)) m then x (h r) else m) l (xmin e)
    /\
    xmax (fold_left (bboxStep h) l e)
    = fold_left (fun m r => if Rltb m (x (h r)) then x (h r) else m) l (xmax e)
    /\
    ymin (fold_left (bboxStep h) l e)
    = fold_left (fun m r => if Rltb (y (h r)) m then y (h r) else m) l (ymin e)
    /\
    ymax (fold_left (bboxStep h) l e)
    = fold_left (fun m r => if Rltb m (y (h r)) then y (h r) else m) l (ymax e).
Proof.
  induction l as [|a l IH]; intros e; simpl; [repeat split|].
  destruct (IH (bboxStep h e a)) as [A [B [C D]]].
  rewrite A, B, C, D. unfold bboxStep. simpl. repeat split.
Qed.

(** X19. On a generator that holds at least one point, [bbox] returns a box
    of width and height at least [0] that holds every point of the array,
    and each of its four sides passes through a point of the array: it is
    the smallest such box. *)
Theorem bbox_smallest_box (g : PointGenerator) (h : heap) :
  points g <> [] ->
  exists b,
    bbox g h = Return b /\
    0 <= width b /\ 0 <= height b /\
    (forall r, In r (points g) ->
       bbox_x b <= x (h r) <= bbox_x b + width b /\
       bbox_y b <= y (h r) <= bbox_y b + height b) /\
    (exists r, In r (points g) /\ x (h r) = bbox_x b) /\
    (exists r, In r (points g) /\ x (h r) = bbox_x b + width b) /\
    (exists r, In r (points g) /\ y (h r) = bbox_y b) /\
    (exists r, In r (points g) /\ y (h r) = bbox_y b + height b).
Proof.
  intros NE. destruct (points g) as [|first rest] eqn:E; [congruence|].
  rewrite (bbox_cons g h first rest E). eexists. split; [reflexivity|].
  destruct (fold_bboxStep_fields h (first :: rest) (extentOf (h first)))
    as [A [B [C D]]].
  unfold boxOf. cbn [bbox_x bbox_y width height]. rewrite A, B, C, D.
  cbn [extentOf xmin xmax ymin ymax].
  destruct (running_min (fun r => x (h r)) (first :: rest) (x (h first)))
    as [Ax [Bx Cx]].
  destruct (running_max (fun r => x (h r)) (first :: rest) (x (h first)))
    as [Dx [Ex Fx]].
  destruct (running_min (fun r => y (h r)) (first :: rest) (y (h first)))
    as [Ay [By Cy]].
  destruct (running_max (fun r => y (h r)) (first :: rest) (y (h first)))
    as [Dy [Ey Fy]].
  cbv zeta in *.
  set (x0 := fold_left (fun m r => if Rltb (x (h r)) m then x (h r) else m)
               (first :: rest) (x (h first))) in *.
  set (x1 := fold_left (fun m r => if Rltb m (x (h r)) then x (h r) else m)
               (first :: rest) (x (h first))) in *.
  set (y0 := fold_left (fun m r => if Rltb (y (h r)) m then y (h r) else m)
               (first :: rest) (y (h first))) in *.
  set (y1 := fold_left (fun m r => if Rltb m (y (h r)) then y (h r) else m)
               (first :: rest) (y (h first))) in *.
  assert (At : forall (v : ref -> R) m,
            (m = v first \/ exists r, In r (first :: rest) /\ v r = m) ->
            exists r, In r (first :: rest) /\ v r = m).
  { intros v m [->|Ex']; [exists first; split; [now left | reflexivity]|].
    exact Ex'. }
  split; [lra|]. split; [lra|]. split.
  - intros r I. pose proof (Bx r I). pose proof (Ex r I).
    pose proof (By r I). pose proof (Ey r I). simpl in *. lra.
  - split; [exact (At (fun r => x (h r)) x0 Cx)|].
    split.
    + replace (x0 + (x1 - x0)) with x1 by ring.
      exact (At (fun r => x (h r)) x1 Fx).
    + split; [exact (At (fun r => y (h r)) y0 Cy)|].
      replace (y0 + (y1 - y0)) with y1 by ring.
      exact (At (fun r => y (h r)) y1 Fy).
Qed.

Lemma bbox_smallest_box_witness :
  exists b,
    bbox twoPoints twoPointsHeap = Return b /\
    0 <= width b /\ 0 <= height b /\
    (forall r, In r (points twoPoints) ->
       bbox_x b <= x (twoPointsHeap r) <= bbox_x b + width b /\
       bbox_y b <= y (twoPointsHeap r) <= bbox_y b + height b) /\
    (exists r, In r (points twoPoints) /\ x (twoPointsHeap r) = bbox_x b) /\
    (exists r,
       In r (points twoPoints) /\ x (twoPointsHeap r) = bbox_x b + width b) /\
    (exists r, In r (points twoPoints) /\ y (twoPointsHeap r) = bbox_y b) /\
    (exists r,
       In r (points twoPoints) /\ y (twoPointsHeap r) = bbox_y b + height b).
Proof. apply bbox_smallest_box. discriminate. Defined.

(** ** recenter: a rigid shift that forgets earlier translations *)

(** X20. On a generator that holds at least one point, each point object
    once, [recenter] moves all the points by one and the same vector and
    touches no other object: the distances between the points and the width
    and height of the bounding box are as before. *)
Theorem recenter_rigid (g : PointGenerator) (h : heap) :
  points g <> [] -> NoDup (points g) ->
  exists (dx dy : R) (h1 : heap),
    recenter g h = Return (g, h1) /\
    (forall r, In r (points g) -> h1 r = shiftPoint dx dy (h r)) /\
    (forall r, ~ In r (points g) -> h1 r = h r) /\
    (forall r s, In r (points g) -> In s (points g) ->
       distance (h1 r) (h1 s) = distance (h r) (h s)) /\
    (exists b b1,
       bbox g h = Return b /\ bbox g h1 = Return b1 /\
       width b1 = width b /\ height b1 = height b).
Proof.
  intros NE D. destruct (points g) as [|first rest] eqn:E; [congruence|].
  rewrite (recenter_cons g h first rest E). cbv zeta.
  set (e := fold_left (bboxStep h) (first :: rest) (extentOf (h first))).
  set (dx := bbox_x (boxOf e) + width (boxOf e) / 2).
  set (dy := bbox_y (boxOf e) + height (boxOf e) / 2).
  set (h1 := forEach (shiftPoint dx dy) (points g) h).
  assert (S : forall r, In r (first :: rest) -> h1 r = shiftPoint dx dy (h r)).
  { intros r I. unfold h1. rewrite E. apply forEach_once; [exact D | exact I]. }
  exists dx, dy, h1. split; [reflexivity|]. split; [exact S|]. split.
  - intros r N. unfold h1. rewrite E. now apply forEach_outside.
  - split.
    + intros r s Ir Is. rewrite (S r Ir), (S s Is).
      unfold distance, shiftPoint, pow2. simpl. f_equal. ring.
    + exists (boxOf e), (boxOf (shiftExtent dx dy e)).
      split; [now apply bbox_cons|]. split.
      * rewrite (bbox_cons g h1 first rest E). do 2 f_equal.
        rewrite (S first) by (now left).
        change (extentOf (shiftPoint dx dy (h first)))
          with (shiftExtent dx dy (extentOf (h first))).
        now apply fold_bboxStep_shift.
      * simpl. split; ring.
Qed.

Lemma recenter_rigid_witness :
  exists (dx dy : R) (h1 : heap),
    recenter twoPoints twoPointsHeap = Return (twoPoints, h1) /\
    (forall r, In r (points twoPoints) ->
       h1 r = shiftPoint dx dy (twoPointsHeap r)) /\
    (forall r, ~ In r (points twoPoints) -> h1 r = twoPointsHeap r) /\
    (forall r s, In r (points twoPoints) -> In s (points twoPoints) ->
       distance (h1 r) (h1 s) = distance (twoPointsHeap r) (twoPointsHeap s)) /\
    (exists b b1,
       bbox twoPoints twoPointsHeap = Return b /\ bbox twoPoints h1 = Return b1 /\
       width b1 = width b /\ height b1 = height b).
Proof.
  apply recenter_rigid; [discriminate | exact NoDup_twoPoints].
Defined.

(** Two heaps whose points differ by one shift are recentred alike. *)
Lemma recenter_after_shift (a b : R) (g : PointGenerator) (h h' : heap) :
  points g <> [] -> NoDup (points g) ->
  (forall r, In r (points g) -> h' r = shiftPoint a b (h r)) ->
  exists ha hb,
    recenter g h = Return (g, ha) /\ recenter g h' = Return (g, hb) /\
    forall r, In r (points g) -> hb r = ha r.
Proof.
  intros NE D S. destruct (points g) as [|first rest] eqn:E; [congruence|].
  rewrite (recenter_cons g h first rest E), (recenter_cons g h' first rest E).
  cbv zeta. do 2 eexists. split; [reflexivity|]. split; [reflexivity|].
  intros r I. rewrite E.
  rewrite !forEach_once by assumption.
  rewrite (S first) by (now left).
  change (extentOf (shiftPoint a b (h first)))
    with (shiftExtent a b (extentOf (h first))).
  rewrite (fold_bboxStep_shift h h' a b (first :: rest) S).
  rewrite (S r I).
  set (e := fold_left (bboxStep h) (first :: rest) (extentOf (h first))).
  unfold shiftPoint. apply point_eq; simpl; field.
Qed.

(** X21. [recenter] forgets an earlier [translate]: on a generator that
    holds at least one point, each point object once and none of them the
    object of [this.center], recentring after [translate(dx, dy)] leaves the
    points where recentring alone leaves them. *)
Theorem recenter_forgets_translate (dx dy : R) (g : PointGenerator) (h : heap) :
  points g <> [] -> NoDup (points g) -> ~ In (center g) (points g) ->
  exists ha hb,
    recenter g h = Return (g, ha) /\
    recenter g (snd (translate dx dy g h)) = Return (g, hb) /\
    forall r, In r (points g) -> hb r = ha r.
Proof.
  intros NE D C.
  apply (recenter_after_shift (- dx) (- dy)); try assumption.
  intros r I. rewrite translate_occurrences.
  pose proof (proj1 (NoDup_count_occ Nat.eq_dec (points g)) D r) as L.
  pose proof (proj1 (count_occ_In Nat.eq_dec (points g) r) I) as G.
  replace (count_occ Nat.eq_dec (points g) r) with 1%nat by lia.
  destruct (Nat.eqb_spec r (center g)) as [->|N]; [contradiction|].
  simpl. unfold shiftPoint. apply point_eq; simpl; ring.
Qed.

Lemma recenter_forgets_translate_witness :
  exists ha hb,
    recenter twoPoints twoPointsHeap = Return (twoPoints, ha) /\
    recenter twoPoints (snd (translate 7 (-2) twoPoints twoPointsHeap))
    = Return (twoPoints, hb) /\
    forall r, In r (points twoPoints) -> hb r = ha r.
Proof.
  apply recenter_forgets_translate;
    [discriminate | exact NoDup_twoPoints | simpl; intuition lia].
Defined.

(** ** clean: what it keeps *)

Lemma fold_left_flat_map {A B C : Type} (f : A -> C -> A) (g : B -> list C)
    (l : list B) :
  forall a,
    fold_left f (flat_map g l) a
    = fold_left (fun a b => fold_left f (g b) a) l a.
Proof.
  induction l as [|b l IH]; intros a; simpl; [reflexivity|].
  now rewrite fold_left_app, IH.
Qed.

Lemma nth_error_combine_seq {A : Type} (l : list A) :
  forall s k,
    nth_error (combine (seq s (length l)) l) k
    = option_map (pair (s + k)%nat) (nth_error l k).
Proof.
  induction l as [|a l IH]; intros s k; simpl.
  - now destruct k.
  - destruct k as [|k]; simpl; [now rewrite Nat.add_0_r|].
    rewrite IH. now rewrite Nat.add_succ_r.
Qed.

Lemma nth_error_indexed {A : Type} (l : list A) (k : nat) :
  nth_error (indexed l) k = option_map (pair k) (nth_error l k).
Proof. unfold indexed. now rewrite nth_error_combine_seq. Qed.

Lemma length_indexed {A : Type} (l : list A) : length (indexed l) = length l.
Proof. unfold indexed. rewrite length_combine, length_seq. lia. Qed.

Lemma firstn_snoc {A : Type} (l : list A) :
  forall s a,
    nth_error l s = Some a -> firstn (S s) l = firstn s l ++ [a].
Proof.
  induction l as [|b l IH]; intros s a E; [now destruct s|].
  destruct s as [|s]; simpl in *; [now inversion E|].
  now rewrite <- (IH s a E).
Qed.

Lemma subsequence_filter {A : Type} (keep : A -> bool) (l : list A) :
  subsequence (filter keep l) l.
Proof.
  induction l as [|a l IH]; simpl; [constructor|].
  destruct (keep a); now constructor.
Qed.

Lemma subsequence_map {A B : Type} (g : A -> B) (l l' : list A) :
  subsequence l l' -> subsequence (map g l) (map g l').
Proof. induction 1; simpl; now constructor. Qed.

Lemma subsequence_length {A : Type} (l l' : list A) :
  subsequence l l' -> (length l <= length l')%nat.
Proof. induction 1; simpl; lia. Qed.

Section FirstFit.
Context {num : Type} `{Number num}.
Context (minDist : num) (points : list (point num)).

Lemma closePairs_groups :
  closePairs minDist points
  = flat_map (pairsFrom minDist points) (indexed points).
Proof.
  unfold closePairs, pairsFrom. apply flat_map_ext. now intros [i p].
Qed.

Lemma in_pairsFrom (i : nat) (p : point num) (c : nat * nat) :
  In c (pairsFrom minDist points (i, p)) <->
  fst c = i /\ snd c <> i /\
  exists q, nth_error points (snd c) = Some q /\
            js_lt (qdist p q) minDist = true.
Proof.
  unfold pairsFrom. rewrite in_flat_map. split.
  - intros [[j q] [I C]]. apply in_indexed in I.
    destruct (Nat.eqb_spec i j) as [E|N]; simpl in C; [destruct C|].
    destruct (js_lt (qdist p q) minDist) eqn:L; [|destruct C].
    destruct C as [<-|[]]. simpl. split; [reflexivity|].
    split; [congruence|]. now exists q.
  - intros [E [N [q [Q L]]]]. exists (snd c, q).
    split; [now apply in_indexed|].
    destruct (Nat.eqb_spec i (snd c)) as [E'|_]; [congruence|].
    rewrite L. simpl. left. destruct c. simpl in *. now subst.
Qed.

(** The scan of the pairs of one index [i]: nothing when [i] is marked,
    otherwise every second index of the pairs gets marked, and [i] does not. *)
Lemma fold_group (i : nat) (pairs : list (nat * nat)) :
  (forall c, In c pairs -> fst c = i /\ snd c <> i) ->
  forall marked,
    (In i marked -> fold_left removalStep pairs marked = marked) /\
    (~ In i marked ->
     forall k,
       In k (fold_left removalStep pairs marked) <->
       In k marked \/ In (i, k) pairs).
Proof.
  induction pairs as [|c pairs IH]; intros G marked; simpl.
  - split; [reflexivity|]. intros _ k. tauto.
  - destruct (G c (or_introl eq_refl)) as [Fc Sc].
    assert (G' : forall d, In d pairs -> fst d = i /\ snd d <> i)
      by (intros d I; apply G; now right).
    unfold removalStep at 2 4. rewrite Fc.
    split.
    + intros I. rewrite (proj2 (includes_In marked i) I). simpl.
      now apply IH.
    + intros N k.
      assert (Fi : includes marked i = false).
      { destruct (includes marked i) eqn:E; [|reflexivity].
        apply includes_In in E. contradiction. }
      rewrite Fi. simpl.
      destruct (includes marked (snd c)) eqn:E.
      * apply includes_In in E.
        rewrite (proj2 (IH G' marked) N k). split.
        -- intros [I|I]; [now left | right; now right].
        -- intros [I|[Ec|I]]; [now left | | right; exact I].
           left. destruct c as [c1 c2]. inversion Ec. subst. exact E.
      * assert (N' : ~ In i (marked ++ [snd c])).
        { intros I. apply in_app_or in I. destruct I as [I|[I|[]]];
            [contradiction | congruence]. }
        rewrite (proj2 (IH G' (marked ++ [snd c])) N' k).
        rewrite in_app_iff. simpl. split.
        -- intros [[I|[I|[]]]|I]; [now left | | right; now right].
           right. left. destruct c as [c1 c2]. simpl in *. now subst.
        -- intros [I|[Ec|I]]; [left; now left | | now right].
           left. right. left. now subst c.
Qed.

Hypothesis symmetric :
  forall p q, In p points -> In q points ->
    js_lt (qdist p q) minDist = js_lt (qdist q p) minDist.

Lemma closeAt_sym (i j : nat) :
  closeAt minDist points i j -> closeAt minDist points j i.
Proof.
  intros [p [q [Pi [Pj L]]]]. exists q, p. split; [exact Pj|].
  split; [exact Pi|].
  rewrite <- symmetric; eauto using nth_error_In.
Qed.

Lemma scan_stage (s : nat) (p : point num) (marked : list nat) :
  nth_error points s = Some p ->
  scanInvariant minDist points s marked ->
  scanInvariant minDist points (S s)
    (fold_left removalStep (pairsFrom minDist points (s, p)) marked).
Proof.
  intros Ps [Early Cover].
  assert (G : forall c, In c (pairsFrom minDist points (s, p)) ->
                fst c = s /\ snd c <> s).
  { intros c I. apply in_pairsFrom in I. tauto. }
  destruct (fold_group s _ G marked) as [Skip Add].
  assert (Grp : forall k,
            In (s, k) (pairsFrom minDist points (s, p)) <->
            k <> s /\ closeAt minDist points s k).
  { intros k. rewrite in_pairsFrom. simpl. split.
    - intros [_ [N [q [Q L]]]]. split; [exact N|]. now exists p, q.
    - intros [N [p' [q [P' [Q L]]]]]. split; [reflexivity|].
      split; [exact N|]. exists q. split; [exact Q|]. congruence. }
  destruct (in_dec Nat.eq_dec s marked) as [I|N].
  - rewrite (Skip I). split.
    + intros j J. destruct (Early j J) as [i [Li [Lj [Ni C]]]].
      exists i. repeat split; try assumption. lia.
    + intros i j Li Ni C D.
      assert (i < s)%nat by (destruct (Nat.eq_dec i s); [subst; contradiction | lia]).
      now apply (Cover i j).
  - pose proof (Add N) as Mem. split.
    + intros j J. apply Mem in J.
      destruct (in_dec Nat.eq_dec j marked) as [Jm|Jn].
      * destruct (Early j Jm) as [i [Li [Lj [Ni C]]]].
        exists i. repeat split; try assumption; [lia|].
        intros Ii. apply Mem in Ii. destruct Ii as [Ii|Ii]; [contradiction|].
        apply Grp in Ii. destruct Ii as [Dis Cs].
        apply N. apply (Cover i s); try assumption. now apply closeAt_sym.
      * destruct J as [J|J]; [contradiction|].
        apply Grp in J. destruct J as [Dis Cs].
        exists s. split; [lia|]. split.
        -- destruct (Nat.lt_trichotomy j s) as [Lt|[E|Gt]];
             [|contradiction|exact Gt].
           exfalso. apply N. apply (Cover j s); try assumption.
           now apply closeAt_sym.
        -- split; [|exact Cs]. intros Is. apply Mem in Is.
           destruct Is as [Is|Is]; [contradiction|].
           apply Grp in Is. tauto.
    + intros i j Li Ni C D. apply Mem.
      assert (Nm : ~ In i marked) by (intros Ii; apply Ni, Mem; now left).
      destruct (Nat.eq_dec i s) as [->|Ne].
      * right. apply Grp. split; [congruence | exact C].
      * left. apply (Cover i j); try assumption. lia.
Qed.

Lemma scan_stages (s : nat) :
  (s <= length points)%nat ->
  scanInvariant minDist points s
    (fold_left
       (fun marked ip =>
          fold_left removalStep (pairsFrom minDist points ip) marked)
       (firstn s (indexed points)) []).
Proof.
  induction s as [|s IH]; intros L.
  - simpl. split; [intros j []|]. intros i j Li. lia.
  - destruct (nth_error points s) as [p|] eqn:Ps;
      [|apply nth_error_None in Ps; lia].
    rewrite (firstn_snoc (indexed points) s (s, p))
      by (now rewrite nth_error_indexed, Ps).
    rewrite fold_left_app. simpl. apply scan_stage; [exact Ps|].
    apply IH. lia.
Qed.

Lemma removals_scanInvariant :
  scanInvariant minDist points (length points)
    (removals (closePairs minDist points)).
Proof.
  unfold removals. rewrite closePairs_groups, fold_left_flat_map.
  rewrite <- (firstn_all (indexed points)) at 1.
  rewrite length_indexed. now apply scan_stages.
Qed.

End FirstFit.

Section CleanKeeps.
Context {num : Type} `{Number num}.

Lemma clean_subsequence (len : num) (points : list (point num))
    (tolerance : num) :
  subsequence (clean len points tolerance) points.
Proof.
  unfold clean. cbv zeta.
  rewrite <- (map_snd_indexed points) at 2.
  apply subsequence_map, subsequence_filter.
Qed.

Lemma clean_nothing_close (len : num) (points : list (point num))
    (tolerance : num) :
  (forall i j p q,
     nth_error points i = Some p -> nth_error points j = Some q -> i <> j ->
     js_lt (qdist p q) (js_sq (js_sub len tolerance)) = false) ->
  clean len points tolerance = points.
Proof.
  intros Far. unfold clean. cbv zeta.
  rewrite (closePairs_nil _ _ Far). unfold removals. simpl.
  assert (G : forall m : list (nat * point num),
             filter (fun '(idx, _) => negb (includes [] idx)) m = m).
  { induction m as [|[i p] m IH]; simpl; [reflexivity | now f_equal]. }
  rewrite G. apply map_snd_indexed.
Qed.

(** X22. [clean] returns its points in the order of the argument, inventing
    and moving none; and it returns the argument as it is exactly when no two
    of its entries at different positions are closer than the threshold. *)
Theorem clean_selects (len : num) (points : list (point num))
    (tolerance : num) :
  subsequence (clean len points tolerance) points /\
  (clean len points tolerance = points <->
   forall i j p q,
     nth_error points i = Some p -> nth_error points j = Some q -> i <> j ->
     js_lt (qdist p q) (js_sq (js_sub len tolerance)) = false).
Proof.
  split; [apply clean_subsequence|]. split.
  - intros E i j p q Pi Pj N. rewrite <- E in Pi, Pj.
    exact (clean_spaced len points tolerance i j p q N Pi Pj).
  - apply clean_nothing_close.
Qed.

Lemma removals_first_fit (minDist : num) (points : list (point num)) :
  (forall p q, In p points -> In q points ->
     js_lt (qdist p q) minDist = js_lt (qdist q p) minDist) ->
  forall j,
    In j (removals (closePairs minDist points)) <->
    exists i,
      (i < j)%nat /\ ~ In i (removals (closePairs minDist points)) /\
      closeAt minDist points i j.
Proof.
  intros Sym j.
  destruct (removals_scanInvariant minDist points Sym) as [Early Cover].
  split.
  - intros J. destruct (Early j J) as [i [_ [Lj [Ni C]]]]. now exists i.
  - intros [i [Lj [Ni C]]]. apply (Cover i j); try assumption; [|lia].
    destruct C as [p [_ [Pi _]]]. apply nth_error_Some. congruence.
Qed.

(** X23. Where the comparison of [qdist] with the threshold does not depend
    on the order of the two points, [clean] is a first fit: it drops the
    points at the marked indices, and an index is marked exactly when its
    point is too close to the point at an earlier index that is not marked. *)
Theorem clean_first_fit (len : num) (points : list (point num))
    (tolerance : num) :
  (forall p q, In p points -> In q points ->
     js_lt (qdist p q) (js_sq (js_sub len tolerance))
     = js_lt (qdist q p) (js_sq (js_sub len tolerance))) ->
  exists marked,
    clean len points tolerance
    = map snd
        (filter (fun '(idx, _) => negb (includes marked idx))
           (indexed points)) /\
    forall j,
      In j marked <->
      exists i,
        (i < j)%nat /\ ~ In i marked /\
        closeAt (js_sq (js_sub len tolerance)) points i j.
Proof.
  intros Sym.
  exists (removals (closePairs (js_sq (js_sub len tolerance)) points)).
  split; [reflexivity|]. now apply removals_first_fit.
Qed.

(** X24. Under the same condition [clean] never drops the first point: the
    result starts with the point the argument starts with. *)
Theorem clean_keeps_first (len : num) (points : list (point num))
    (tolerance : num) :
  (forall p q, In p points -> In q points ->
     js_lt (qdist p q) (js_sq (js_sub len tolerance))
     = js_lt (qdist q p) (js_sq (js_sub len tolerance))) ->
  hd_error (clean len points tolerance) = hd_error points.
Proof.
  intros Sym. destruct points as [|p rest]; [reflexivity|].
  pose proof (removals_first_fit _ _ Sym 0%nat) as F.
  unfold clean. cbv zeta.
  set (marked := removals _) in *.
  assert (N : includes marked 0 = false).
  { destruct (includes marked 0) eqn:E; [|reflexivity].
    apply includes_In, F in E. destruct E as [i [L _]]. lia. }
  unfold indexed. cbn [length seq combine filter]. rewrite N. reflexivity.
Qed.

End CleanKeeps.

Lemma clean_first_fit_witness :
  exists marked,
    clean 2%float
      [{| x := 0; y := 0 |}; {| x := 1; y := 0 |}; {| x := 5; y := 0 |}]%float
      0%float
    = map snd
        (filter (fun '(idx, _) => negb (includes marked idx))
           (indexed
              [{| x := 0; y := 0 |}; {| x := 1; y := 0 |};
               {| x := 5; y := 0 |}]%float)) /\
    forall j,
      In j marked <->
      exists i,
        (i < j)%nat /\ ~ In i marked /\
        closeAt (js_sq (js_sub 2%float 0%float))
          [{| x := 0; y := 0 |}; {| x := 1; y := 0 |}; {| x := 5; y := 0 |}]%float
          i j.
Proof.
  apply clean_first_fit.
  intros p q [<-|[<-|[<-|[]]]] [<-|[<-|[<-|[]]]]; vm_compute; reflexivity.
Defined.

Lemma clean_keeps_first_witness :
  hd_error
    (clean 2%float
       [{| x := 0; y := 0 |}; {| x := 1; y := 0 |}; {| x := 5; y := 0 |}]%float
       0%float)
  = hd_error
      [{| x := 0; y := 0 |}; {| x := 1; y := 0 |}; {| x := 5; y := 0 |}]%float.
Proof.
  apply clean_keeps_first.
  intros p q [<-|[<-|[<-|[]]]] [<-|[<-|[<-|[]]]]; vm_compute; reflexivity.
Defined.

Lemma xsq_xsub_sym (a b : xreal) : js_sq (js_sub a b) = js_sq (js_sub b a).
Proof.
  destruct a as [r| | |], b as [s| | |]; try reflexivity.
  unfold js_sq. simpl. f_equal. ring.
Qed.

(** X25. With exact reals and the IEEE special values, [qdist] does not
    depend on the order of its two points, infinite and NaN coordinates
    included; the condition of the first fit then holds for every list. *)
Theorem qdist_symmetric (p q : point xreal) : qdist p q = qdist q p.
Proof.
  unfold qdist.
  now rewrite (xsq_xsub_sym (x q) (x p)), (xsq_xsub_sym (y q) (y p)).
Qed.

(** ** tessellate and fillWithPoints *)

Lemma list_ind3 {A : Type} (P : list A -> Prop) :
  P [] -> (forall a, P [a]) -> (forall a b, P [a; b]) ->
  (forall a b c l, P l -> P (a :: b :: c :: l)) ->
  forall l, P l.
Proof.
  intros P0 P1 P2 P3 l.
  assert (G : P l /\ (forall a, P (a :: l)) /\ (forall a b, P (a :: b :: l))).
  { induction l as [|c l [IH0 [IH1 IH2]]]; [now repeat split|].
    split; [apply IH1|]. split; [intros a; apply IH2|].
    intros a b. now apply P3. }
  exact (proj1 G).
Qed.

Lemma subsequence_In {A : Type} (l l' : list A) (a : A) :
  subsequence l l' -> In a l -> In a l'.
Proof.
  induction 1 as [|b l l' S IH|b l l' S IH]; simpl; [tauto| |]; intuition.
Qed.

Lemma fold_concat {A : Type} (rest : list (list A)) :
  forall first,
    fold_left (fun prev cur => prev ++ cur) rest first = first ++ concat rest.
Proof.
  induction rest as [|c rest IH]; intros first; simpl.
  - now rewrite app_nil_r.
  - now rewrite IH, app_assoc.
Qed.

Lemma mapThrowing_Return {A B : Type} (f : A -> completion B) (l : list A) :
  forall bs, mapThrowing f l = Return bs -> Forall2 (fun a b => f a = Return b) l bs.
Proof.
  induction l as [|a l IH]; intros bs E; simpl in E.
  - inversion E. constructor.
  - destruct (f a) as [b|e] eqn:Fa; [|discriminate].
    destruct (mapThrowing f l) as [bs'|e]; [|discriminate].
    inversion E. subst. constructor; [exact Fa | now apply IH].
Qed.

Lemma mapThrowing_returns {A B : Type} (f : A -> completion B) (l : list A) :
  (exists bs, mapThrowing f l = Return bs) <->
  Forall (fun a => exists b, f a = Return b) l.
Proof.
  induction l as [|a l IH]; simpl.
  - split; [constructor | intros _; now exists []].
  - split.
    + intros [bs E]. destruct (f a) as [b|e] eqn:Fa; [|discriminate].
      destruct (mapThrowing f l) as [bs'|e]; [|discriminate].
      constructor; [now exists b|]. apply IH. now exists bs'.
    + intros F. inversion F as [|a' l' [b Fa] Fl]. subst.
      apply IH in Fl. destruct Fl as [bs E]. rewrite Fa, E.
      now exists (b :: bs).
Qed.

Lemma Forall_iff_ext {A : Type} (P Q : A -> Prop) (l : list A) :
  (forall a, P a <-> Q a) -> (Forall P l <-> Forall Q l).
Proof.
  intros E. split; apply Forall_impl; intros a; apply E.
Qed.

Section FillProperties.
Context {num : Type} `{Number num}.

Lemma triangleLines_returns (min max : num) (t : triangle num) :
  (exists ls, triangleLines min max t = Return ls) <->
  t_p1 t <> None /\ t_p2 t <> None /\ t_p3 t <> None.
Proof.
  unfold triangleLines.
  destruct (t_p1 t), (t_p2 t), (t_p3 t); split;
    try (intros [ls E]; discriminate);
    try (intros [N1 [N2 N3]]; congruence).
  - intros _. repeat split; discriminate.
  - intros _. eexists. reflexivity.
Qed.

Lemma triangleLines_Return (min max : num) (t : triangle num) (ls : list (line num)) :
  triangleLines min max t = Return ls ->
  (length ls <= 3)%nat /\
  forall l, In l ls ->
    edgeOf t l /\ between min max (qdist (p1 l) (p2 l)) = true.
Proof.
  unfold triangleLines, edgeOf.
  destruct (t_p1 t) as [a|]; [|discriminate].
  destruct (t_p2 t) as [b|]; [|discriminate].
  destruct (t_p3 t) as [c|]; [|discriminate].
  cbv zeta. intros E. inversion E as [E']. clear E E'.
  destruct (between min max (qdist a b)) eqn:B1;
    destruct (between min max (qdist a c)) eqn:B2;
    destruct (between min max (qdist b c)) eqn:B3;
    simpl; (split; [lia|]); intros l I;
    repeat (destruct I as [<-|I]; [simpl; auto|]); destruct I.
Qed.

Lemma triangles_nonempty (points : list (point num)) (vertices : list nat) :
  triangles points vertices = [] <-> vertices = [].
Proof.
  destruct vertices as [|v1 [|v2 [|v3 rest]]]; simpl; split;
    try discriminate; reflexivity.
Qed.

Lemma triangles_length (points : list (point num)) (vertices : list nat) :
  (exists k, length vertices = (3 * k)%nat) ->
  (3 * length (triangles points vertices))%nat = length vertices.
Proof.
  induction vertices as [|v1|v1 v2|v1 v2 v3 rest IH] using list_ind3;
    intros [k L]; simpl in L; try lia; [reflexivity|].
  cbn [triangles length]. rewrite <- IH; [lia|].
  exists (k - 1)%nat. lia.
Qed.

Lemma triangles_complete (points : list (point num)) (vertices : list nat) :
  Forall (fun t => t_p1 t <> None /\ t_p2 t <> None /\ t_p3 t <> None)
    (triangles points vertices) <->
  (exists k, length vertices = (3 * k)%nat) /\
  Forall (fun v => (v < length points)%nat) vertices.
Proof.
  induction vertices as [|v1|v1 v2|v1 v2 v3 rest IH] using list_ind3.
  - simpl. split; [intros _; split; [now exists 0%nat | constructor]|].
    intros _. constructor.
  - simpl. split.
    + intros F. inversion F as [|t ts [_ [N _]]]. now elim N.
    + intros [[k L] _]. simpl in L. lia.
  - simpl. split.
    + intros F. inversion F as [|t ts [_ [_ N]]]. now elim N.
    + intros [[k L] _]. simpl in L. lia.
  - cbn [triangles]. split.
    + intros F. inversion F as [|t ts [N1 [N2 N3]] Fr]. subst.
      cbn [t_p1 t_p2 t_p3] in *.
      apply IH in Fr. destruct Fr as [[k L] Fv]. split.
      * exists (S k). simpl. lia.
      * repeat constructor; try (now apply nth_error_Some); exact Fv.
    + intros [[k L] Fv].
      inversion Fv as [|w1 r1 V1 Fv1]. subst.
      inversion Fv1 as [|w2 r2 V2 Fv2]. subst.
      inversion Fv2 as [|w3 r3 V3 Fv3]. subst.
      constructor.
      * cbn [t_p1 t_p2 t_p3]. repeat split; now apply nth_error_Some.
      * apply IH. split; [|exact Fv3].
        exists (k - 1)%nat. simpl in L. lia.
Qed.

Lemma triangles_corners (points : list (point num)) (vertices : list nat)
    (t : triangle num) (l : line num) :
  In t (triangles points vertices) -> edgeOf t l ->
  In (p1 l) points /\ In (p2 l) points.
Proof.
  intros I E.
  assert (G : forall q, t_p1 t = Some q \/ t_p2 t = Some q \/ t_p3 t = Some q ->
                In q points).
  { revert I.
    induction vertices as [|v1|v1 v2|v1 v2 v3 rest IH] using list_ind3;
      cbn [triangles].
    - intros [].
    - intros [<-|[]] q. cbn [t_p1 t_p2 t_p3].
      intros [E'|[E'|E']]; try discriminate; eauto using nth_error_In.
    - intros [<-|[]] q. cbn [t_p1 t_p2 t_p3].
      intros [E'|[E'|E']]; try discriminate; eauto using nth_error_In.
    - intros [<-|I] q; [|now apply IH]. cbn [t_p1 t_p2 t_p3].
      intros [E'|[E'|E']]; eauto using nth_error_In. }
  destruct E as [[E1 E2]|[[E1 E2]|[E1 E2]]]; split; apply G; tauto.
Qed.

Lemma tessellate_returns (vertices : list nat) (points : list (point num))
    (minLength maxLength : num) :
  (exists lines,
     tessellate vertices points minLength maxLength = Return lines) <->
  triangulationOf points vertices.
Proof.
  unfold tessellate, triangulationOf. cbv zeta.
  rewrite <- triangles_complete.
  rewrite <- (Forall_iff_ext _ _ (triangles points vertices)
                (triangleLines_returns (js_sq minLength) (js_sq maxLength))).
  rewrite <- mapThrowing_returns. split.
  - intros [lines E].
    destruct (mapThrowing _ _) as [ls|e] eqn:M; [|discriminate].
    split; [|now exists ls].
    intros ->. simpl in M. inversion M. subst. discriminate.
  - intros [N [ls M]]. rewrite M.
    destruct ls as [|first rest]; [|eexists; reflexivity].
    exfalso. apply N, (triangles_nonempty points).
    apply mapThrowing_Return in M. now inversion M.
Qed.

Lemma tessellate_Return (vertices : list nat) (points : list (point num))
    (minLength maxLength : num) (lines : list (line num)) :
  tessellate vertices points minLength maxLength = Return lines ->
  (length lines <= 3 * length (triangles points vertices))%nat /\
  forall l, In l lines ->
    (exists t, In t (triangles points vertices) /\ edgeOf t l) /\
    In (p1 l) points /\ In (p2 l) points /\
    between (js_sq minLength) (js_sq maxLength) (qdist (p1 l) (p2 l)) = true.
Proof.
  unfold tessellate. cbv zeta. intros E.
  destruct (mapThrowing _ _) as [ls|e] eqn:M; [|discriminate].
  apply mapThrowing_Return in M.
  assert (C : lines = concat ls).
  { destruct ls as [|first rest]; [discriminate|].
    simpl in E. inversion E. now rewrite fold_concat. }
  clear E. subst lines.
  split.
  - induction M as [|t ls0 ts lss Et M IH]; simpl; [lia|].
    rewrite length_app.
    destruct (triangleLines_Return _ _ _ _ Et) as [L3 _]. lia.
  - intros l I. apply in_concat in I. destruct I as [ls0 [I0 I]].
    assert (T : exists t, In t (triangles points vertices) /\
                  triangleLines (js_sq minLength) (js_sq maxLength) t
                  = Return ls0).
    { clear I. induction M as [|t ls1 ts lss Et M IH]; [destruct I0|].
      destruct I0 as [->|I0].
      - exists t. split; [now left | exact Et].
      - destruct (IH I0) as [t' [It' Et']]. exists t'. split; [now right | exact Et']. }
    destruct T as [t [It Et]].
    destruct (triangleLines_Return _ _ _ _ Et) as [_ Ed].
    destruct (Ed l I) as [Edge Band].
    destruct (triangles_corners points vertices t l It Edge) as [I1 I2].
    split; [now exists t|]. now repeat split.
Qed.

(** X26. [tessellate] returns exactly when the array of the triangulation is
    not empty, holds its indices three by three and holds only indices of
    [this.points]; in every other case it throws: on no triangle at all the
    [reduce] without initial value does.  A line it returns joins two corners
    of one triangle, both points of [this.points], and its squared length
    lies strictly between the squares of the two bounds; there are at most
    three lines a triangle. *)
Theorem tessellate_lines (vertices : list nat) (points : list (point num))
    (minLength maxLength : num) :
  (tessellate vertices points minLength maxLength = Throw TypeError <->
   ~ triangulationOf points vertices) /\
  (forall lines,
     tessellate vertices points minLength maxLength = Return lines ->
     triangulationOf points vertices /\
     (length lines <= length vertices)%nat /\
     forall l, In l lines ->
       (exists t, In t (triangles points vertices) /\ edgeOf t l) /\
       In (p1 l) points /\ In (p2 l) points /\
       js_lt (js_sq minLength) (qdist (p1 l) (p2 l)) = true /\
       js_lt (qdist (p1 l) (p2 l)) (js_sq maxLength) = true).
Proof.
  pose proof (tessellate_returns vertices points minLength maxLength) as R.
  split.
  - split.
    + intros E W. apply R in W. destruct W as [lines E']. congruence.
    + intros N.
      destruct (tessellate vertices points minLength maxLength) as [lines|[]];
        [|reflexivity].
      exfalso. apply N, R. now exists lines.
  - intros lines E.
    assert (W : triangulationOf points vertices) by (apply R; now exists lines).
    split; [exact W|].
    destruct (tessellate_Return _ _ _ _ _ E) as [L Ed].
    split.
    + destruct W as [_ [Three _]].
      now rewrite <- (triangles_length points vertices Three).
    + intros l I. destruct (Ed l I) as [T [I1 [I2 B]]].
      apply andb_prop in B. now repeat split.
Qed.

(** X27. [fillWithPoints] throws where [tessellate] does, and otherwise
    leaves in [this.points] only old points and midpoints of lines of the
    tessellation, no two entries closer than the segment length, and at most
    one new point for each index of the triangulation. *)
Theorem fillWithPoints_result (vertices : list nat) (len : num)
    (points : list (point num)) (minThreshold maxThreshold : num) :
  (fillWithPoints vertices len points minThreshold maxThreshold
   = Throw TypeError <->
   ~ triangulationOf points vertices) /\
  (forall out,
     fillWithPoints vertices len points minThreshold maxThreshold = Return out ->
     (forall a b p q,
        a <> b -> nth_error out a = Some p -> nth_error out b = Some q ->
        js_lt (qdist p q) (js_sq (js_sub len js_zero)) = false) /\
     (forall p, In p out ->
        In p points \/
        exists l,
          p = midpoint l /\ In (p1 l) points /\ In (p2 l) points /\
          between (js_sq minThreshold) (js_sq maxThreshold)
            (qdist (p1 l) (p2 l)) = true) /\
     (length out <= length points + length vertices)%nat).
Proof.
  pose proof (tessellate_returns vertices points minThreshold maxThreshold) as R.
  unfold fillWithPoints.
  destruct (tessellate vertices points minThreshold maxThreshold)
    as [lines|[]] eqn:T.
  - split.
    + split; [discriminate|]. intros N. exfalso. apply N, R. now exists lines.
    + cbv zeta. intros out E. inversion E as [E']. clear E.
      destruct (tessellate_Return _ _ _ _ _ T) as [L Ed].
      pose proof (clean_subsequence len (points ++ map midpoint lines) js_zero)
        as Sub.
      split; [|split].
      * intros a b p q N Pa Pb.
        exact (clean_spaced len _ js_zero a b p q N Pa Pb).
      * intros p I. apply (subsequence_In _ _ _ Sub) in I.
        apply in_app_or in I. destruct I as [I|I]; [now left | right].
        apply in_map_iff in I. destruct I as [l [<- Il]].
        exists l. destruct (Ed l Il) as [_ [I1 [I2 B]]]. now repeat split.
      * apply subsequence_length in Sub.
        rewrite length_app, length_map in Sub.
        assert (W : triangulationOf points vertices)
          by (apply R; now exists lines).
        destruct W as [_ [Three _]].
        rewrite <- (triangles_length points vertices Three). lia.
  - split.
    + split; [|reflexivity]. intros _ W. apply R in W.
      destruct W as [lines E]. discriminate.
    + intros out E. discriminate.
Qed.

End FillProperties.

(** ** pointOnArc: the sweep angle in exact arithmetic *)

(** Between unit vectors the quotient is the dot product, and lies in
    [[-1, 1]]. *)
Lemma cosineBetween_unit (u v : point R) :
  pow2 (x u) + pow2 (y u) = 1 -> pow2 (x v) + pow2 (y v) = 1 ->
  cosineBetween u v = x u * x v + y u * y v /\
  -1 <= cosineBetween u v <= 1.
Proof.
  intros Uu Uv. unfold cosineBetween. rewrite Uu, Uv, Rmult_1_r, sqrt_1.
  unfold Rdiv. rewrite Rinv_1, Rmult_1_r. split; [reflexivity|].
  unfold pow2 in Uu, Uv.
  assert (L : (x u * x v + y u * y v) ^ 2 + (x u * y v - y u * x v) ^ 2 = 1).
  { transitivity ((x u ^ 2 + y u ^ 2) * (x v ^ 2 + y v ^ 2)); [ring|].
    rewrite Uu, Uv. ring. }
  pose proof (pow2_ge_0 (x u * y v - y u * x v)) as P.
  split; nra.
Qed.

(** X29. In exact arithmetic, in the non-degenerate branch of [pointOnArc]
    (start and end differ, both radii are non-zero): the sweep angle is
    taken between two unit vectors, whose quotient [p / n] lies in
    [[-1, 1]] where [Math.acos] is defined; it is non-positive when the
    sweep flag is false, non-negative when it is true, and lies strictly
    between [- 2 PI] and [2 PI]. *)
Theorem sweepAngle_exact (p0 : point R) (rx ry xAxisRotation : R)
    (largeArcFlag sweepFlag : bool) (p1 : point R) :
  ~ (x p0 = x p1 /\ y p0 = y p1) -> rx <> 0 -> ry <> 0 ->
  let g :=
    arcGeometryOf p0 (Rabs rx) (Rabs ry) (toRadians (mod_ xAxisRotation 360))
      largeArcFlag sweepFlag p1 in
  (exists u v : point R,
     sweepAngle g = sweepAngleBetween sweepFlag u v /\
     pow2 (x u) + pow2 (y u) = 1 /\ pow2 (x v) + pow2 (y v) = 1 /\
     -1 <= cosineBetween u v <= 1) /\
  (sweepFlag = false -> sweepAngle g <= 0) /\
  (sweepFlag = true -> 0 <= sweepAngle g) /\
  - (2 * PI) < sweepAngle g < 2 * PI.
Proof.
  intros ND Nx Ny. cbv zeta.
  pose proof (Rabs_pos_lt rx Nx) as Px. pose proof (Rabs_pos_lt ry Ny) as Py.
  set (phi := toRadians (mod_ xAxisRotation 360)).
  unfold arcGeometryOf. cbv zeta. cbn [sweepAngle].
  set (tp := transformedPoint phi p0 p1).
  pose proof (transformedPoint_nonzero phi p0 p1 ND) as NZ. fold tp in NZ.
  destruct (enlargedRadius_reaches (Rabs rx) (Rabs ry) tp Px Py NZ)
    as [Prx [Pry [Pd Pn]]].
  set (rx' := enlargedRadius (radiiCheck (Rabs rx) (Rabs ry) tp) (Rabs rx)) in *.
  set (ry' := enlargedRadius (radiiCheck (Rabs rx) (Rabs ry) tp) (Rabs ry)) in *.
  pose proof (cCoef_square rx' ry' tp largeArcFlag sweepFlag Pd Pn) as Ecc.
  set (cc := cCoef rx' ry' tp largeArcFlag sweepFlag) in *.
  destruct (start_end_vectors_unit rx' ry' cc tp Prx Pry Ecc) as [Us Ue].
  set (tc := transformedCenter rx' ry' cc tp) in *.
  set (sv := startVector rx' ry' tp tc) in *.
  set (ev := endVector rx' ry' tp tc) in *.
  destruct (sweepAngleBetween_spec sweepFlag sv ev) as [Neg [Pos [Rg _]]].
  split; [|split; [exact Neg | split; [exact Pos | exact Rg]]].
  exists sv, ev. split; [reflexivity|]. split; [exact Us|].
  split; [exact Ue|]. exact (proj2 (cosineBetween_unit sv ev Us Ue)).
Qed.

Lemma sweepAngle_exact_witness :
  let g :=
    arcGeometryOf {| x := 0; y := 0 |} (Rabs 2) (Rabs 1)
      (toRadians (mod_ 30 360)) true false {| x := 1; y := 1 |} in
  (exists u v : point R,
     sweepAngle g = sweepAngleBetween false u v /\
     pow2 (x u) + pow2 (y u) = 1 /\ pow2 (x v) + pow2 (y v) = 1 /\
     -1 <= cosineBetween u v <= 1) /\
  (false = false -> sweepAngle g <= 0) /\
  (false = true -> 0 <= sweepAngle g) /\
  - (2 * PI) < sweepAngle g < 2 * PI.
Proof.
  apply (sweepAngle_exact {| x := 0; y := 0 |} 2 1 30 true false
           {| x := 1; y := 1 |}); simpl; lra.
Defined.

(** ** pointOnArc on binary64 numbers: where the sweep angle is lost *)

Lemma float_add_nan (a : float) : PrimFloat.add a nan = nan.
Proof.
  apply Prim2SF_inj. rewrite add_spec.
  destruct (Prim2SF a) as [s|s| |s m e]; try destruct s; reflexivity.
Qed.

Lemma float_mul_nan (t : float) : PrimFloat.mul nan t = nan.
Proof.
  apply Prim2SF_inj. rewrite mul_spec.
  destruct (Prim2SF t) as [s|s| |s m e]; try destruct s; reflexivity.
Qed.

Lemma float_nan_leb (tolerance : float) : PrimFloat.leb nan tolerance = false.
Proof.
  rewrite leb_spec.
  destruct (Prim2SF tolerance) as [s|s| |s m e]; try destruct s; reflexivity.
Qed.

(** C6. On the numbers of the program the sweep angle can be [NaN].  The arc
    from [(0, 0)] to [(8, 9)] with the radii [3] and [2], no rotation and
    both flags false is not degenerate; its radii are enlarged, and rounding
    leaves the quotient [p / n] of its start and end vectors below [-1],
    where [Math.acos] is [NaN].  Whatever the implementation's cosine, sine
    and arc cosine are, the sweep angle is [NaN]: it is neither [<= 0] nor
    of an absolute value below [2 PI]. *)
Theorem sweepAngle_binary64_NaN (impl : Binary64.approximations) :
  let p0 := {| x := 0; y := 0 |}%float in
  let p1 := {| x := 8; y := 9 |}%float in
  let rx := PrimFloat.abs 3 in
  let ry := PrimFloat.abs 2 in
  let g :=
    Binary64.arcGeometryOf impl p0 rx ry
      (Binary64.toRadians (Binary64.mod_ 0 360)) false false p1 in
  (PrimFloat.eqb (x p0) (x p1) && PrimFloat.eqb (y p0) (y p1) = false /\
   PrimFloat.eqb rx 0 || PrimFloat.eqb ry 0 = false) /\
  (exists u v : point float,
     Binary64.sweepAngle g = Binary64.sweepAngleBetween impl false u v /\
     PrimFloat.ltb (Binary64.cosineBetween u v) (-1) = true) /\
  Binary64.sweepAngle g = nan /\
  PrimFloat.leb (Binary64.sweepAngle g) 0 = false /\
  PrimFloat.ltb (PrimFloat.abs (Binary64.sweepAngle g))
    (2 * Binary64.Math_PI) = false.
Proof.
  cbv zeta. split; [split; vm_compute; reflexivity|].
  split.
  - unfold Binary64.arcGeometryOf. cbv zeta. cbn [Binary64.sweepAngle].
    eexists. eexists. split; [reflexivity|]. vm_compute. reflexivity.
  - repeat split; vm_compute; reflexivity.
Qed.

(** C4. On the numbers of the program [pointOnArc] does not return the
    start point at [t = 0] nor the end point at [t = 1] of a non-degenerate
    arc, within any tolerance.  For the arc from [(0, 0)] to [(8, 9)] with
    the radii [3] and [2], no rotation and both flags false, the sweep angle
    is [NaN], and so are both coordinates of the point at every [t],
    whatever the implementation's cosine, sine and arc cosine are. *)
Theorem pointOnArc_binary64_NaN (impl : Binary64.approximations) :
  let arc :=
    Binary64.pointOnArc impl {| x := 0; y := 0 |}%float 3 2 0 false false
      {| x := 8; y := 9 |}%float in
  (forall t : float, arc t = {| x := nan; y := nan |}) /\
  (forall tolerance : float,
     PrimFloat.leb (PrimFloat.abs (x (arc 0) - 0)) tolerance = false /\
     PrimFloat.leb (PrimFloat.abs (y (arc 0) - 0)) tolerance = false /\
     PrimFloat.leb (PrimFloat.abs (x (arc 1) - 8)) tolerance = false /\
     PrimFloat.leb (PrimFloat.abs (y (arc 1) - 9)) tolerance = false)%float.
Proof.
  cbv zeta.
  assert (E : forall t : float,
            Binary64.pointOnArc impl {| x := 0; y := 0 |}%float 3 2 0
              false false {| x := 8; y := 9 |}%float t
            = {| x := nan; y := nan |}).
  { intros t. vm_compute. rewrite ?float_mul_nan, ?float_add_nan.
    vm_compute. reflexivity. }
  split; [exact E|].
  intros tolerance. rewrite !E. cbn [x y].
  change (PrimFloat.abs (nan - 0)%float) with nan.
  change (PrimFloat.abs (nan - 8)%float) with nan.
  change (PrimFloat.abs (nan - 9)%float) with nan.
  rewrite float_nan_leb. repeat split.
Qed.
